(** * Lastuser: scope strings, tokens, permissions and account merging

    A shallow embedding of the model layer of Lastuser
    ([lastuser_core/models/client.py] and [lastuser_core/models/user.py])
    and the properties of its scope algebra, token life cycle, permission
    lookup and account-merge migrations; then of the helpers of the views
    ([lastuser_oauth/views/helpers.py]), the email addresses and names of
    users and organizations, and the owners of organizations, clients
    and permissions. *)

From Stdlib Require Import ZArith Ascii String.
From stdpp Require Import base option list sorting strings gmap.

Local Open Scope string_scope.
Local Open Scope nat_scope.
Local Open Scope list_scope.

(** ** Python primitives used by the models *)

Module Py.

(** [s.split(sep)] for a one-character separator: every occurrence of the
    separator cuts the string, so a string with [k] separators gives
    [k + 1] pieces, and the empty string gives one empty piece. *)
Fixpoint split (sep : ascii) (s : string) : list string :=
  match s with
  | EmptyString => [EmptyString]
  | String c s' =>
      if Ascii.eqb c sep then EmptyString :: split sep s'
      else match split sep s' with
           | w :: ws => String c w :: ws
           | [] => [String c EmptyString]
           end
  end.

(** [sep.join(l)]. *)
Definition join (sep : string) (l : list string) : string :=
  String.concat sep l.

(** [sorted(l)] on strings: ascending in the lexicographic order of the
    characters. The order is total and antisymmetric, so the result
    does not depend on the sorting algorithm. *)
Definition sorted (l : list string) : list string :=
  merge_sort String.le l.

(** A Python [set] is represented by the list of its elements in the
    order in which iterating over it yields them. The language leaves
    that order open: it is a parameter of the development, and may
    depend on the sequence in which the elements were supplied. *)
Class SetIter := {
  set_iter : list string → list string;
  set_iter_NoDup l : NoDup (set_iter l);
  set_iter_elem x l : x ∈ set_iter l ↔ x ∈ l
}.

Section sets.
Context `{SetIter}.

(** [set(l)] *)
Definition set (l : list string) : list string := set_iter l.
(** [a.union(b)], [a | b], and [a.update(b)] seen as a value *)
Definition union (a b : list string) : list string := set_iter (a ++ b).
(** [s.remove(x)] for an [x] in [s] *)
Definition remove (x : string) (s : list string) : list string :=
  filter (λ y, y ≠ x) s.
End sets.

(** The string hash of CPython 2 on a 64-bit build (hash randomisation
    is off unless asked for), as an unsigned word. *)
Definition string_hash (s : string) : Z :=
  match s with
  | EmptyString => 0
  | String c _ =>
      let ord a := Z.of_N (N_of_ascii a) in
      let x := foldl (λ x a, Z.lxor ((1000003 * x) mod 2 ^ 64) (ord a))
                     (Z.shiftl (ord c) 7) (list_ascii_of_string s) in
      let x := Z.lxor x (Z.of_nat (String.length s)) in
      if (x =? 2 ^ 64 - 1)%Z then (2 ^ 64 - 2)%Z else x
  end.

(** The slot a string first probes in the 8-slot table every small set
    starts with. *)
Definition slot8 (s : string) : Z := Z.land (string_hash s) 7.

Definition slot_le (x y : string) : Prop := (slot8 x ≤ slot8 y)%Z.

Global Instance slot_le_dec : RelDecision slot_le.
Proof. intros x y. unfold slot_le. apply _. Defined.

(** Iteration walks the table by slot. For a set of at most five strings
    whose slots differ (no probing, no resize) this is the order
    CPython 2 yields. *)
Definition slot_order (l : list string) : list string :=
  merge_sort slot_le (remove_dups l).

(** The order of first occurrence, which the list of tokens would have
    if unions kept what was seen first in front. *)
Definition insertion_order (l : list string) : list string :=
  foldl (λ acc x, if decide (x ∈ acc) then acc else acc ++ [x]) [] l.

End Py.

(** ** Scope arguments *)

(** The argument of [add_scope]: one token (a [basestring]) or an iterable
    of tokens. *)
Inductive scope_arg :=
  | OneToken (tok : string)
  | Tokens (toks : list string).

(** [if isinstance(additional, basestring): additional = [additional]] *)
Definition scope_arg_list (additional : scope_arg) : list string :=
  match additional with
  | OneToken tok => [tok]
  | Tokens toks => toks
  end.

(** ** Authorization codes *)

Module AuthCode.

Record t := mk {
  user_id : nat;
  client_id : nat;
  code : string;
  _scope : string;
  redirect_uri : string;
  used : bool
}.

(** The [scope] property: [self._scope.split(u' ')] *)
Definition scope (c : t) : list string := Py.split " " (_scope c).

(** The [scope] setter: [self._scope = u' '.join(value)] *)
Definition set_scope (value : list string) (c : t) : t :=
  mk (user_id c) (client_id c) (code c) (Py.join " " value)
     (redirect_uri c) (used c).

Section with_sets.
Context `{Py.SetIter}.

(** [self.scope = list(set(self.scope).union(set(additional)))] *)
Definition add_scope (additional : scope_arg) (c : t) : t :=
  let additional := scope_arg_list additional in
  set_scope (Py.union (Py.set (scope c)) (Py.set additional)) c.
End with_sets.

End AuthCode.

(** ** Exceptions *)

Inductive exn :=
  | TypeError (msg : string)
  | ValueError (msg : string).

Inductive result (A : Type) :=
  | Return (a : A)
  | Raise (e : exn).
Arguments Return {A} a.
Arguments Raise {A} e.

(** ** Tables *)

(** The rows of a table in the order of their primary keys: the order in
    which a query without [order_by], and a relationship that loads its
    collection, yield them. *)
Definition key_le {A} (p q : nat * A) : Prop := p.1 ≤ q.1.

Global Instance key_le_dec {A} : RelDecision (@key_le A).
Proof. intros p q. unfold key_le. apply _. Defined.

Definition by_key {A} (m : gmap nat A) : list (nat * A) :=
  merge_sort key_le (map_to_list m).

(** ** Access tokens *)

Module AuthToken.

(** A row of [authtoken]; the primary key [id] is the key under which the
    session holds the row. In a row the relationship [user] and the
    column [user_id] are one, and so are [client] and [client_id]. *)
Record t := mk {
  user_id : option nat;      (* null for client-only tokens *)
  client_id : nat;
  token : string;
  token_type : string;
  secret : option string;
  _algorithm : option string;
  _scope : string;
  validity : Z;
  refresh_token : option string
}.

Definition set_user_id (v : option nat) (tk : t) : t :=
  mk v (client_id tk) (token tk) (token_type tk) (secret tk)
     (_algorithm tk) (_scope tk) (validity tk) (refresh_token tk).
Definition set_token (v : string) (tk : t) : t :=
  mk (user_id tk) (client_id tk) v (token_type tk) (secret tk)
     (_algorithm tk) (_scope tk) (validity tk) (refresh_token tk).
Definition set_secret (v : option string) (tk : t) : t :=
  mk (user_id tk) (client_id tk) (token tk) (token_type tk) v
     (_algorithm tk) (_scope tk) (validity tk) (refresh_token tk).
Definition set__algorithm (v : option string) (tk : t) : t :=
  mk (user_id tk) (client_id tk) (token tk) (token_type tk) (secret tk)
     v (_scope tk) (validity tk) (refresh_token tk).
Definition set__scope (v : string) (tk : t) : t :=
  mk (user_id tk) (client_id tk) (token tk) (token_type tk) (secret tk)
     (_algorithm tk) v (validity tk) (refresh_token tk).
Definition set_refresh_token (v : option string) (tk : t) : t :=
  mk (user_id tk) (client_id tk) (token tk) (token_type tk) (secret tk)
     (_algorithm tk) (_scope tk) (validity tk) v.

(** The [scope] property: [self._scope.split(u' ')] *)
Definition scope (tk : t) : list string := Py.split " " (_scope tk).

(** The [scope] setter: [self._scope = u' '.join(sorted(value))] *)
Definition set_scope (value : list string) (tk : t) : t :=
  set__scope (Py.join " " (Py.sorted value)) tk.

(** The [algorithm] property *)
Definition algorithm (tk : t) : option string := _algorithm tk.

(** The [algorithm] setter. An exception leaves the object as it was. *)
Definition set_algorithm (value : option string) (tk : t) : result unit * t :=
  match value with
  | None => (Return (), set_secret None (set__algorithm None tk))
  | Some v =>
      if bool_decide (v ∈ ["hmac-sha-1"; "hmac-sha-256"])
      then (Return (), set__algorithm (Some v) tk)
      else (Raise (ValueError ("Unrecognized algorithm ‘" +:+ v +:+ "’")), tk)
  end.

(** [coaster.newid] and [coaster.newsecret] draw from a random source;
    they are taken as operations on the state of that source. *)
Section random.
Context {rng : Type} (newid newsecret : rng → string * rng).

(** [__init__], for a call that gives [user], [client], [scope],
    [validity] and maybe [algorithm], as the row of the object made:
    the columns given by the caller ([algorithm], when given, goes
    through its setter), then a fresh token, a refresh token when a user
    is attached, and a fresh secret. [AuthTokenObject.__init__] below is
    the constructor for every list of keywords. *)
Definition init (user : option nat) (client : nat) (scope : list string)
    (valid : Z) (alg : option (option string)) (g : rng) : result t * rng :=
  let tk := set_scope scope (mk user client "" "bearer" None None "" valid None) in
  let '(r, tk) := match alg with
                  | Some value => set_algorithm value tk
                  | None => (Return (), tk)
                  end in
  match r with
  | Raise e => (Raise e, g)
  | Return _ =>
      let '(i, g) := newid g in
      let tk := set_token i tk in
      let '(tk, g) :=
        match user_id tk with
        | Some _ => let '(r, g) := newid g in (set_refresh_token (Some r) tk, g)
        | None => (tk, g)
        end in
      let '(k, g) := newsecret g in
      (Return (set_secret (Some k) tk), g)
  end.

(** [refresh]: a new token while retaining the refresh token. *)
Definition refresh (tk : t) (g : rng) : t * rng :=
  match refresh_token tk with
  | Some _ =>
      let '(i, g) := newid g in
      let tk := set_token i tk in
      let '(k, g) := newsecret g in
      (set_secret (Some k) tk, g)
  | None => (tk, g)
  end.
End random.

Section with_sets.
Context `{Py.SetIter}.

(** [self.scope = list(set(self.scope).union(set(additional)))] *)
Definition add_scope (additional : scope_arg) (tk : t) : t :=
  let additional := scope_arg_list additional in
  set_scope (Py.union (Py.set (scope tk)) (Py.set additional)) tk.

(** The session: the rows by primary key, and the keys passed to
    [db.session.delete]. A deleted object stays reachable through the
    references the program holds; queries no longer return it. *)
Record session := Session {
  rows : gmap nat t;
  deleted : gset nat
}.

Definition update (i : nat) (f : t → t) (s : session) : session :=
  Session (alter f i (rows s)) (deleted s).
Definition delete (i : nat) (s : session) : session :=
  Session (rows s) ({[i]} ∪ deleted s).

(** [cls.query.filter_by(user=u).all()] *)
Definition query_filter_by_user (u : nat) (s : session) : list (nat * t) :=
  filter (λ p, ¬ (p.1 ∈ deleted s) ∧ user_id p.2 = Some u)
         (by_key (rows s)).

(** [newtokens.setdefault(token.client_id, []).append(token)], over
    the tokens of the new user *)
Definition newtokens_of (l : list (nat * t)) : gmap nat (list nat) :=
  foldl (λ d p, <[client_id p.2 := default [] (d !! client_id p.2) ++ [p.1]]> d)
        ∅ l.

(** The first [newtoken] of the list with [newtoken.user == newuser] *)
Definition first_of_user (newuser : nat) (s : session) (l : list nat)
  : option (nat * t) :=
  head (omap (λ i, match rows s !! i with
                   | Some nt => if decide (user_id nt = Some newuser)
                                then Some (i, nt) else None
                   | None => None
                   end) l).

(** One round of the loop over [oldtokens] *)
Definition migrate_token (newuser : nat) (newtokens : gmap nat (list nat))
    (s : session) (i : nat) : session :=
  match rows s !! i with
  | None => s
  | Some token =>
      match newtokens !! client_id token ≫= first_of_user newuser s with
      | Some (j, newtoken) =>
          (* another token for newuser with the same client:
             extend the scope there *)
          delete i
            (update j (set_scope (Py.union (Py.set (scope newtoken))
                                           (Py.set (scope token)))) s)
      | None =>
          (* reassign this token to newuser *)
          update i (set_user_id (Some newuser)) s
      end
  end.

(** [AuthToken.migrate_user]; a user that is [None] makes it return at
    once. *)
Definition migrate_user (olduser newuser : option nat) (s : session)
  : session :=
  match olduser, newuser with
  | Some o, Some n =>
      let oldtokens := query_filter_by_user o s in
      let newtokens := newtokens_of (query_filter_by_user n s) in
      foldl (migrate_token n newtokens) s oldtokens.*1
  | _, _ => s
  end.
End with_sets.

End AuthToken.

(** ** Truth values of Python *)

(** [bool(x)] for an argument that is [None] or a mapped object: objects
    are true, [None] is false. *)
Definition bool_of_object {A} (x : option A) : bool :=
  match x with Some _ => true | None => false end.

(** [bool(x)] for an argument that is [None] or a string: [None] and the
    empty string are false. *)
Definition bool_of_string (x : option string) : bool :=
  match x with
  | Some s => negb (String.eqb s "")
  | None => false
  end.

(** ** Permissions *)

Module Permission.

Record t := mk {
  user_id : option nat;
  org_id : option nat;
  name : string;
  title : string;
  description : string;
  allusers : bool
}.

(** [cls.query.filter_by(...).first()] over the rows in the order the
    query yields them *)
Definition first (P : t → Prop) `{∀ p, Decision (P p)} (table : list t)
  : option t :=
  head (filter P table).

(** [Permission.get(name, user=None, org=None, allusers=False)] *)
Definition get (table : list t) (nm : string) (user org : option nat)
    (all : bool) : result (option t) :=
  if all then
    Return (first (λ p, name p = nm ∧ allusers p = true) table)
  else
    if negb (xorb (bool_of_object user) (bool_of_object org)) then
      Raise (TypeError "Either user or org should be specified")
    else
      match user with
      | Some u => Return (first (λ p, name p = nm ∧ user_id p = Some u) table)
      | None => Return (first (λ p, name p = nm ∧ org_id p = org) table)
      end.

End Permission.

(** ** Users *)

Module USER_STATUS.
Definition ACTIVE : Z := 0.
Definition SUSPENDED : Z := 1.
Definition MERGED : Z := 2.
End USER_STATUS.

Module User.

Record t := mk {
  userid : string;
  fullname : string;
  _username : option string;
  pw_hash : option string;
  status : Z
}.

Definition first (P : t → Prop) `{∀ u, Decision (P u)} (table : list t)
  : option t :=
  head (filter P table).

(** [User.get(username=None, userid=None)] *)
Definition get (table : list t) (username userid : option string)
  : result (option t) :=
  if negb (xorb (bool_of_string username) (bool_of_string userid)) then
    Raise (TypeError "Either username or userid should be specified")
  else
    if bool_of_string userid then
      Return (first (λ u, Some (User.userid u) = userid
                          ∧ status u = USER_STATUS.ACTIVE) table)
    else
      Return (first (λ u, _username u = username
                          ∧ status u = USER_STATUS.ACTIVE) table).

End User.

(** ** Iterating over a list that the loop body may change *)

(** [for x in coll: body], where [coll] is a list object living in the
    state: the iterator keeps an index into the list as it is at each
    round, so that removing the element just visited makes the loop pass
    over its successor. [None] when the fuel runs out. *)
Fixpoint for_in {S : Type} (fuel i : nat) (coll : S → list nat)
    (body : nat → S → option S) (st : S) : option S :=
  match fuel with
  | 0 => None
  | Datatypes.S fuel =>
      match coll st !! i with
      | Some x => body x st ≫= for_in fuel (Datatypes.S i) coll body
      | None => Some st
      end
  end.

(** ** Permissions assigned to a user on a client *)

Module UserClientPermissions.

Record t := mk {
  user_id : nat;
  client_id : nat;
  access_permissions : string
}.

Definition set_user_id (v : nat) (p : t) : t :=
  mk v (client_id p) (access_permissions p).
Definition set_access_permissions (v : string) (p : t) : t :=
  mk (user_id p) (client_id p) v.

(** The session: the rows by primary key, the keys passed to
    [db.session.delete], and the [client_permissions] collections
    loaded so far, by user. The collection is the other side of the
    [user] relationship (its [backref]): assigning [perm.user] takes
    the row out of the list of its former user and appends it to the
    list of the new one. *)
Record session := Session {
  rows : gmap nat t;
  deleted : gset nat;
  client_permissions : gmap nat (list nat)
}.

(** First access to [user.client_permissions] loads the rows of the
    user, in the order of their keys; later accesses give the same list
    object. *)
Definition load (u : nat) (s : session) : session :=
  match client_permissions s !! u with
  | Some _ => s
  | None =>
      let l := filter (λ p, ¬ (p.1 ∈ deleted s) ∧ user_id p.2 = u)
                      (by_key (rows s)) in
      Session (rows s) (deleted s) (<[u := l.*1]> (client_permissions s))
  end.

Definition collection (u : nat) (s : session) : list nat :=
  default [] (client_permissions s !! u).

Definition update (i : nat) (f : t → t) (s : session) : session :=
  Session (alter f i (rows s)) (deleted s) (client_permissions s).
Definition delete (i : nat) (s : session) : session :=
  Session (rows s) ({[i]} ∪ deleted s) (client_permissions s).

(** [perm.user = newuser] *)
Definition set_user (i : nat) (newuser : nat) (s : session) : session :=
  match rows s !! i with
  | None => s
  | Some p =>
      if decide (user_id p = newuser) then s
      else
        let cp := client_permissions s in
        let cp := alter (filter (λ j, j ≠ i)) (user_id p) cp in
        let cp := alter (λ l, l ++ [i]) newuser cp in
        Session (alter (set_user_id newuser) i (rows s)) (deleted s) cp
  end.

Section with_sets.
Context `{Py.SetIter}.

(** The merged permission string *)
Definition merge_permissions (operm nperm : t) : string :=
  let tokens := Py.set (Py.split " " (access_permissions operm)) in
  let tokens := Py.union tokens (Py.set (Py.split " " (access_permissions nperm))) in
  let tokens := if decide (" " ∈ tokens) then Py.remove " " tokens
                else tokens in
  Py.join " " (Py.sorted tokens).

(** One round of the loop over [newuser.client_permissions]; the
    boolean is [merge_performed]. *)
Definition merge_into (i : nat) (j : nat) (st : session * bool)
  : option (session * bool) :=
  let '(s, merge_performed) := st in
  match rows s !! i, rows s !! j with
  | Some operm, Some nperm =>
      if decide (client_id nperm = client_id operm) then
        let s := update j (set_access_permissions
                             (merge_permissions operm nperm)) s in
        Some (delete i s, true)
      else Some (s, merge_performed)
  | _, _ => Some (s, merge_performed)
  end.

(** One round of the loop over [olduser.client_permissions] *)
Definition migrate_permission (newuser : nat) (i : nat) (s : session)
  : option session :=
  let s := load newuser s in
  st ← for_in (Datatypes.S (length (collection newuser s))) 0
              (λ st : session * bool, collection newuser st.1)
              (merge_into i) (s, false);
  let '(s, merge_performed) := st in
  Some (if merge_performed : bool then s else set_user i newuser s).

(** [UserClientPermissions.migrate_user] *)
Definition migrate_user (olduser newuser : nat) (s : session)
  : option session :=
  let s := load olduser s in
  for_in (Datatypes.S (length (collection olduser s))) 0
         (collection olduser) (migrate_permission newuser) s.
End with_sets.

End UserClientPermissions.

(** ** Organizations and teams *)

Module Team.

Record t := mk {
  title : string;
  org : option nat;     (* the organization object the team refers to *)
  users : list nat
}.

End Team.

Module Organization.

Record t := mk {
  owners : option nat;  (* the team object the organization refers to *)
  userid : option string;
  _name : option string;
  title : option string;
  description : option string;
  teams : list nat      (* the other side of [Team.org] *)
}.

Definition set_owners (v : option nat) (o : t) : t :=
  mk v (userid o) (_name o) (title o) (description o) (teams o).
Definition append_team (v : nat) (o : t) : t :=
  mk (owners o) (userid o) (_name o) (title o) (description o) (teams o ++ [v]).

(** Objects live in a store and refer to each other by address. *)
Inductive object :=
  | OrganizationObject (o : t)
  | TeamObject (tm : Team.t).

(** The keyword arguments of the constructor: each one given is
    assigned to the attribute of that name. *)
Record kwargs := Kwargs {
  kw_owners : option nat;
  kw_userid : option string;
  kw_name : option string;
  kw_title : option string;
  kw_description : option string
}.

Section init.
(** [self.valid_name(value)], which consults the database *)
Variable valid_name : string → bool.

(** The [name] setter: [if self.valid_name(value): self._name = value] *)
Definition name_of (kw : kwargs) : option string :=
  match kw_name kw with
  | Some v => if valid_name v then Some v else None
  | None => None
  end.

(** [Organization.__init__]: the address of the new object and the
    store after the constructor has returned. *)
Definition init (kw : kwargs) (h : gmap nat object) : nat * gmap nat object :=
  let self := fresh (dom h) in
  let o := mk (kw_owners kw) (kw_userid kw) (name_of kw) (kw_title kw)
              (kw_description kw) [] in
  let h := <[self := OrganizationObject o]> h in
  match owners o with
  | None =>
      (* self.owners = Team(title=u"Owners", org=self) *)
      let team := fresh (dom h) in
      let h := <[team := TeamObject (Team.mk "Owners" (Some self) [])]> h in
      let o := set_owners (Some team) (append_team team o) in
      (self, <[self := OrganizationObject o]> h)
  | Some _ => (self, h)
  end.
End init.

End Organization.

(** ** Constructing an access token *)

Module AuthTokenObject.

(** An [AuthToken] object in memory, before the session has flushed it:
    an attribute that nothing was assigned to is [None]. [user] and
    [client] are the relationships, [user_id] and [client_id] the
    columns; assigning one does not change the other in memory. *)
Record t := mk {
  user : option nat;
  user_id : option nat;
  client : option nat;
  client_id : option nat;
  token : option string;
  token_type : option string;
  secret : option string;
  _algorithm : option string;
  _scope : option string;
  validity : option Z;
  refresh_token : option string
}.

Definition blank : t :=
  mk None None None None None None None None None None None.

Definition set_token (v : option string) (o : t) : t :=
  mk (user o) (user_id o) (client o) (client_id o) v (token_type o)
     (secret o) (_algorithm o) (_scope o) (validity o) (refresh_token o).
Definition set_secret (v : option string) (o : t) : t :=
  mk (user o) (user_id o) (client o) (client_id o) (token o) (token_type o)
     v (_algorithm o) (_scope o) (validity o) (refresh_token o).
Definition set__algorithm (v : option string) (o : t) : t :=
  mk (user o) (user_id o) (client o) (client_id o) (token o) (token_type o)
     (secret o) v (_scope o) (validity o) (refresh_token o).
Definition set__scope (v : option string) (o : t) : t :=
  mk (user o) (user_id o) (client o) (client_id o) (token o) (token_type o)
     (secret o) (_algorithm o) v (validity o) (refresh_token o).
Definition set_refresh_token (v : option string) (o : t) : t :=
  mk (user o) (user_id o) (client o) (client_id o) (token o) (token_type o)
     (secret o) (_algorithm o) (_scope o) (validity o) v.

(** The [scope] setter *)
Definition set_scope (value : list string) (o : t) : t :=
  set__scope (Some (Py.join " " (Py.sorted value))) o.

(** The [algorithm] setter *)
Definition set_algorithm (value : option string) (o : t) : result unit * t :=
  match value with
  | None => (Return (), set_secret None (set__algorithm None o))
  | Some v =>
      if bool_decide (v ∈ ["hmac-sha-1"; "hmac-sha-256"])
      then (Return (), set__algorithm (Some v) o)
      else (Raise (ValueError ("Unrecognized algorithm ‘" +:+ v +:+ "’")), o)
  end.

(** A keyword argument of the constructor, for the columns,
    relationships and properties the class declares: its name and its
    value. [None] is a value like any other. The columns of the mixin
    ([id] and the timestamps) are not attributes of the record. *)
Inductive keyword :=
  | Kw_user (v : option nat)
  | Kw_user_id (v : option nat)
  | Kw_client (v : option nat)
  | Kw_client_id (v : option nat)
  | Kw_token (v : option string)
  | Kw_token_type (v : option string)
  | Kw_secret (v : option string)
  | Kw__algorithm (v : option string)
  | Kw_algorithm (v : option string)
  | Kw__scope (v : option string)
  | Kw_scope (v : list string)
  | Kw_validity (v : option Z)
  | Kw_refresh_token (v : option string).

(** [setattr(self, k, kwargs[k])]: a column or relationship is
    assigned, a property goes through its setter. *)
Definition setattr (k : keyword) (o : t) : result unit * t :=
  match k with
  | Kw_user v =>
      (Return (),
       mk v (user_id o) (client o) (client_id o) (token o) (token_type o)
          (secret o) (_algorithm o) (_scope o) (validity o) (refresh_token o))
  | Kw_user_id v =>
      (Return (),
       mk (user o) v (client o) (client_id o) (token o) (token_type o)
          (secret o) (_algorithm o) (_scope o) (validity o) (refresh_token o))
  | Kw_client v =>
      (Return (),
       mk (user o) (user_id o) v (client_id o) (token o) (token_type o)
          (secret o) (_algorithm o) (_scope o) (validity o) (refresh_token o))
  | Kw_client_id v =>
      (Return (),
       mk (user o) (user_id o) (client o) v (token o) (token_type o)
          (secret o) (_algorithm o) (_scope o) (validity o) (refresh_token o))
  | Kw_token v => (Return (), set_token v o)
  | Kw_token_type v =>
      (Return (),
       mk (user o) (user_id o) (client o) (client_id o) (token o) v
          (secret o) (_algorithm o) (_scope o) (validity o) (refresh_token o))
  | Kw_secret v => (Return (), set_secret v o)
  | Kw__algorithm v => (Return (), set__algorithm v o)
  | Kw_algorithm v => set_algorithm v o
  | Kw__scope v => (Return (), set__scope v o)
  | Kw_scope v => (Return (), set_scope v o)
  | Kw_validity v =>
      (Return (),
       mk (user o) (user_id o) (client o) (client_id o) (token o) (token_type o)
          (secret o) (_algorithm o) (_scope o) v (refresh_token o))
  | Kw_refresh_token v => (Return (), set_refresh_token v o)
  end.

(** The constructor of the base class: [for k in kwargs: setattr(self,
    k, kwargs[k])], the keywords coming in the order in which the
    dictionary yields them. *)
Fixpoint setattrs (kwargs : list keyword) (o : t) : result t :=
  match kwargs with
  | [] => Return o
  | k :: kwargs =>
      match setattr k o with
      | (Return _, o) => setattrs kwargs o
      | (Raise e, _) => Raise e
      end
  end.

Section random.
Context {rng : Type} (newid newsecret : rng → string * rng).

(** [AuthToken.__init__(self, **kwargs)] *)
Definition __init__ (kwargs : list keyword) (g : rng) : result t * rng :=
  match setattrs kwargs blank with
  | Raise e => (Raise e, g)
  | Return self =>
      let '(i, g) := newid g in
      let self := set_token (Some i) self in
      let '(self, g) :=
        match user self with
        | Some _ => let '(r, g) := newid g in
                    (set_refresh_token (Some r) self, g)
        | None => (self, g)
        end in
      let '(k, g) := newsecret g in
      (Return (set_secret (Some k) self), g)
  end.

(** [refresh], on the object *)
Definition refresh (self : t) (g : rng) : t * rng :=
  match refresh_token self with
  | Some _ =>
      let '(i, g) := newid g in
      let self := set_token (Some i) self in
      let '(k, g) := newsecret g in
      (set_secret (Some k) self, g)
  | None => (self, g)
  end.
End random.

End AuthTokenObject.

(** ** Team membership *)

Module TeamMembership.

(** [user.teams]: the teams of a user, by user; the same memberships are
    seen from the team as [team.users]. A user without an entry has no
    team. *)
Definition teams (u : nat) (m : gmap nat (list nat)) : list nat :=
  default [] (m !! u).

(** [if team not in newuser.teams: newuser.teams.append(team)] *)
Definition join_team (newuser : nat) (m : gmap nat (list nat)) (team : nat)
  : gmap nat (list nat) :=
  if decide (team ∈ teams newuser m) then m
  else <[newuser := teams newuser m ++ [team]]> m.

(** [Team.migrate_user]. The loop walks [olduser.teams], which its body
    leaves alone: the body appends to [newuser.teams] only, and only a
    team that list does not hold, so never when the two users are one. *)
Definition migrate_user (olduser newuser : nat) (m : gmap nat (list nat))
  : gmap nat (list nat) :=
  <[olduser := []]> (foldl (join_team newuser) m (teams olduser m)).

End TeamMembership.

(** ** Clients *)

Module Client.

Record t := mk {
  user_id : option nat;
  org_id : option nat;
  title : string;
  website : string;
  active : bool;
  allow_any_login : bool;
  team_access : bool;
  key : string;
  secret : string;
  trusted : bool
}.

(** [secret_is]: [self.secret == candidate] *)
Definition secret_is (c : t) (candidate : string) : bool :=
  String.eqb (secret c) candidate.

(** [Client.get]: [cls.query.filter_by(key=key, active=True).first()] *)
Definition get (table : list t) (k : string) : option t :=
  head (filter (λ c, key c = k ∧ active c = true) table).

End Client.

(** ** The helpers of the views *)

Module Helpers.

(** [s.startswith(p)] *)
Definition startswith (p s : string) : bool := String.prefix p s.

(** [s[k:]] *)
Fixpoint from (k : nat) (s : string) : string :=
  match k, s with
  | 0, _ => s
  | S k, String _ s' => from k s'
  | S _, EmptyString => EmptyString
  end.

(** [s.endswith('/')] *)
Fixpoint ends_with_slash (s : string) : bool :=
  match s with
  | EmptyString => false
  | String c EmptyString => Ascii.eqb c "/"
  | String _ s' => ends_with_slash s'
  end.

(** [os.path.join(a, b)] on a POSIX system *)
Definition path_join (a b : string) : string :=
  if startswith "/" b then b
  else if String.eqb a "" || ends_with_slash a then a +:+ b
  else a +:+ "/" +:+ b.

(** What the filters read of the request: [request.url_root] and
    [request.url] *)
Record request := Request {
  url_root : string;
  url : string
}.

(** [usessl(url)]; [use_ssl] is the truth value of
    [current_app.config.get('USE_SSL')]. *)
Definition usessl (use_ssl : bool) (req : request) (u : string) : string :=
  if negb use_ssl then u
  else if startswith "//" u then "https:" +:+ u
  else
    let u := if startswith "/" u then path_join (url_root req) (from 1 u)
             else u in
    if startswith "http:" u then "https:" +:+ from 5 u else u.

(** [nossl(url)] *)
Definition nossl (req : request) (u : string) : string :=
  if startswith "//" u then "http:" +:+ u
  else
    let u := if startswith "/" u && startswith "https:" (url req)
             then path_join (url_root req) (from 1 u)
             else u in
    if startswith "https://" u then "http:" +:+ from 6 u else u.

(** [autoset_timezone(user)], on the timezone of the user.
    [valid_timezones] is the set made of [pytz.common_timezones],
    [unquote] is [urllib.unquote], [cookies] is [request.cookies]. *)
Definition autoset_timezone (valid_timezones : gset string)
    (unquote : string → string) (cookies : gmap string string)
    (timezone : option string) : option string :=
  if match timezone with
     | None => true
     | Some tz => bool_decide (tz ∉ valid_timezones)
     end
  then
    if bool_of_string (cookies !! "timezone") then
      let tz := unquote (default "" (cookies !! "timezone")) in
      if bool_decide (tz ∈ valid_timezones) then Some tz else timezone
    else timezone
  else timezone.

(** The Flask session: its keys, and whether it is permanent *)
Record session := Session {
  data : gmap string string;
  permanent : bool
}.

(** The request globals [g.user] and [g.client], the session, and the
    messages flashed *)
Record context := Context {
  user : option User.t;
  client : option Client.t;
  sess : session;
  flashes : list (string * string)
}.

Definition set_user (v : option User.t) (c : context) : context :=
  Context v (client c) (sess c) (flashes c).
Definition set_client (v : option Client.t) (c : context) : context :=
  Context (user c) v (sess c) (flashes c).
Definition set_sess (v : session) (c : context) : context :=
  Context (user c) (client c) v (flashes c).
Definition flash (msg category : string) (c : context) : context :=
  Context (user c) (client c) (sess c) (flashes c ++ [(msg, category)]).

(** What a view returns *)
Inductive response :=
  | Response (body : string) (status : nat) (headers : list (string * string))
  | Redirect (endpoint : string).

(** [lookup_current_user]: [g.user] for the request *)
Definition lookup_current_user (table : list User.t) (c : context)
  : result context :=
  let c := set_user None c in
  match data (sess c) !! "userid" with
  | Some userid =>
      match User.get table None (Some userid) with
      | Return u => Return (set_user u c)
      | Raise e => Raise e
      end
  | None => Return c
  end.

(** [requires_login]; [current_url] is [get_current_url()]. *)
Definition requires_login (current_url : string)
    (f : context → response * context) (c : context) : response * context :=
  match user c with
  | None =>
      let c := flash "You need to be logged in for that page" "info" c in
      let c := set_sess (Session (<["next" := current_url]> (data (sess c)))
                                 (permanent (sess c))) c in
      (Redirect "login", c)
  | Some _ => f c
  end.

(** [{'WWW-Authenticate': 'Basic realm="Client credentials"'}] *)
Definition www_authenticate : list (string * string) :=
  [("WWW-Authenticate",
    "Basic realm=" +:+ String "034" ("Client credentials" +:+ String "034" ""))].

(** [_client_login_inner]; [authorization] is [request.authorization],
    a user name and a password when the request has one. *)
Definition _client_login_inner (clients : list Client.t)
    (authorization : option (string * string)) (c : context)
  : option response * context :=
  match authorization with
  | None => (Some (Response "Client credentials required." 401 www_authenticate), c)
  | Some (username, password) =>
      match Client.get clients username with
      | Some cl =>
          if negb (Client.secret_is cl password)
          then (Some (Response "Invalid client credentials." 401 www_authenticate), c)
          else (None, set_client (Some cl) c)
      | None => (Some (Response "Invalid client credentials." 401 www_authenticate), c)
      end
  end.

(** [requires_client_login] *)
Definition requires_client_login (clients : list Client.t)
    (authorization : option (string * string))
    (f : context → response * context) (c : context) : response * context :=
  match _client_login_inner clients authorization c with
  | (None, c) => f c
  | (Some r, c) => (r, c)
  end.

(** [requires_user_or_client_login] *)
Definition requires_user_or_client_login (clients : list Client.t)
    (authorization : option (string * string))
    (f : context → response * context) (c : context) : response * context :=
  match user c with
  | Some _ => f c
  | None =>
      match _client_login_inner clients authorization c with
      | (None, c) => f c
      | (Some r, c) => (r, c)
      end
  end.

(** [login_internal(user)]; the timezone of the user is its fourth
    argument and second result. The [user_login] signal goes to
    observers outside these files. *)
Definition login_internal (valid_timezones : gset string)
    (unquote : string → string) (cookies : gmap string string)
    (u : User.t) (timezone : option string) (c : context)
  : context * option string :=
  let c := set_user (Some u) c in
  let c := set_sess (Session (<["userid" := User.userid u]> (data (sess c)))
                             (permanent (sess c))) c in
  let c := set_sess (Session (data (sess c)) true) c in
  (c, autoset_timezone valid_timezones unquote cookies timezone).

(** [logout_internal]; the [user_logout] signal goes to observers
    outside these files. *)
Definition logout_internal (c : context) : context :=
  let c := set_user None c in
  let d := data (sess c) in
  let d := delete "userid" d in
  let d := delete "merge_userid" d in
  let d := delete "userid_external" d in
  let d := delete "avatar_url" d in
  set_sess (Session d false) c.

End Helpers.

(** ** The owners of an organization *)

Module Owners.

Section permissions.
(** [super(...).permissions(user, inherited)]: the set the base class
    returns for this user, whatever it is *)
Variable perms : gset string.
(** the team memberships, as in [TeamMembership] *)
Variable m : gmap nat (list nat).

(** [user in team.users] *)
Definition is_member (user team : nat) : bool :=
  bool_decide (team ∈ TeamMembership.teams user m).

(** [Organization.permissions]. [user and ...] does not look at
    [self.owners] without a user; [None] stands for the AttributeError
    of [self.owners.users] on an organization without owners team. *)
Definition organization_permissions (self : Organization.t) (user : option nat)
  : option (gset string) :=
  let not_owner := perms ∖ {["view"]} ∖ {["edit"]} ∖ {["delete"]} in
  match user with
  | Some u =>
      owners ← Organization.owners self;
      Some (if is_member u owners
            then perms ∪ {["view"]} ∪ {["edit"]} ∪ {["delete"]}
                       ∪ {["view-teams"]} ∪ {["new-team"]}
            else not_owner)
  | None => Some not_owner
  end.

(** [Team.permissions], for a team whose [org] is the organization
    [org]; the owners are those of the organization, not the members of
    the team. *)
Definition team_permissions (org : Organization.t) (user : option nat)
  : option (gset string) :=
  match user with
  | Some u =>
      owners ← Organization.owners org;
      Some (if is_member u owners
            then perms ∪ {["edit"]} ∪ {["delete"]}
            else perms)
  | None => Some perms
  end.
End permissions.

End Owners.

(** ** The headers of a response *)

Module Http.

(** [str.lower()] on ASCII *)
Definition lower_ascii (c : ascii) : ascii :=
  let n := nat_of_ascii c in
  if (65 <=? n) && (n <=? 90) then ascii_of_nat (n + 32) else c.

Fixpoint lower (s : string) : string :=
  match s with
  | EmptyString => EmptyString
  | String c s => String (lower_ascii c) (lower s)
  end.

(** [p in s] on strings *)
Fixpoint substring_in (p s : string) : bool :=
  String.prefix p s ||
  match s with
  | EmptyString => false
  | String _ s => substring_in p s
  end.

(** What the code uses of [response.headers] (werkzeug's [Headers]):
    [key in headers], [headers[key]] ([None] for its KeyError) and
    [headers[key] = value]. Header names are compared without case. *)
Class Headers (H : Type) := {
  contains : string → H → bool;
  get : string → H → option string;
  set : string → string → H → H;
  contains_get k h : contains k h = true ↔ is_Some (get k h);
  get_set k v h : get k (set k v h) = Some v;
  get_set_ne k k' v h : lower k ≠ lower k' → get k' (set k v h) = get k' h
}.

Section cache.
Context {H : Type} `{Headers H}.

(** [cache_expiry_headers], on the headers of the response *)
Definition cache_expiry_headers (headers : H) : option H :=
  let headers :=
    if negb (contains "Expires" headers)
    then set "Expires" "Fri, 01 Jan 1990 00:00:00 GMT" headers
    else headers in
  if contains "Cache-Control" headers then
    value ← get "Cache-Control" headers;
    if negb (substring_in "private" value) then
      value' ← get "Cache-Control" headers;
      Some (set "Cache-Control" ("private, " +:+ value') headers)
    else Some headers
  else Some (set "Cache-Control" "private" headers).
End cache.

(** The headers as werkzeug keeps them: a list of pairs of a name and a
    value, in the order sent. Assignment replaces the first pair with
    that name and drops the later ones, or appends a pair if there is
    none. *)
Definition same_name (k : string) (p : string * string) : bool :=
  String.eqb (lower p.1) (lower k).

Fixpoint list_get (k : string) (l : list (string * string)) : option string :=
  match l with
  | [] => None
  | p :: l => if same_name k p then Some p.2 else list_get k l
  end.

Fixpoint list_set (k v : string) (l : list (string * string))
  : list (string * string) :=
  match l with
  | [] => [(k, v)]
  | p :: l =>
      if same_name k p then (k, v) :: filter (λ q, ¬ same_name k q) l
      else p :: list_set k v l
  end.

End Http.

(** ** The email addresses of a user *)

Module UserEmail.

Record t := mk {
  user_id : nat;
  _email : string;
  md5sum : string;
  primary : bool
}.

Definition set_primary (v : bool) (e : t) : t :=
  mk (user_id e) (_email e) (md5sum e) v.

(** The session: the rows by primary key, the keys passed to
    [db.session.delete], and the [UserPastEmail] rows added, as pairs of
    a user and an address. *)
Record session := Session {
  rows : gmap nat t;
  deleted : gset nat;
  past_emails : list (nat * string)
}.

Definition update (i : nat) (f : t → t) (s : session) : session :=
  Session (alter f i (rows s)) (deleted s) (past_emails s).
Definition delete (i : nat) (s : session) : session :=
  Session (rows s) ({[i]} ∪ deleted s) (past_emails s).
Definition add_past (user : nat) (email : string) (s : session) : session :=
  Session (rows s) (deleted s) (past_emails s ++ [(user, email)]).

(** [UserEmail.query.filter_by(user=u).all()], also what [u.emails]
    holds *)
Definition query_filter_by_user (u : nat) (s : session) : list (nat * t) :=
  filter (λ p, ¬ (p.1 ∈ deleted s) ∧ user_id p.2 = u) (by_key (rows s)).

Section md5.
(** [md5(email).hexdigest()] *)
Variable md5_hexdigest : string → string.

(** [UserEmail(user=user, email=email, primary=primary)] *)
Definition init (user : nat) (email : string) (primary : bool) : t :=
  mk user email (md5_hexdigest email) primary.

(** [if emailob.primary: emailob.primary = False] *)
Definition clear_primary (emailob : t) : t :=
  if primary emailob then set_primary false emailob else emailob.

(** [User.add_email]: the key of the new row and the session *)
Definition add_email (self : nat) (email : string) (primary : bool)
    (s : session) : nat * session :=
  let s := if primary
           then foldl (λ s i, update i clear_primary s) s
                      (query_filter_by_user self s).*1
           else s in
  let useremail := fresh (dom (rows s) ∪ deleted s) in
  (useremail,
   Session (<[useremail := init self email primary]> (rows s)) (deleted s)
           (past_emails s)).
End md5.

(** [User.del_email] *)
Definition del_email (self : nat) (email : string) (s : session) : session :=
  match head (filter (λ p, _email p.2 = email) (query_filter_by_user self s)) with
  | Some (i, useremail) =>
      let setprimary := primary useremail in
      let s := delete i (add_past self (_email useremail) s) in
      if setprimary then
        (* the first [emailob] that [is not useremail] *)
        match head (filter (λ p, p.1 ≠ i) (query_filter_by_user self s)) with
        | Some (j, _) => update j (set_primary true) s
        | None => s
        end
      else s
  | None => s
  end.

(** The property [User.email], when it is computed: the key of the row
    returned, [None] for the empty string. *)
Definition email (self : nat) (s : session) : option nat * session :=
  match head (filter (λ p, primary p.2 = true) (query_filter_by_user self s)) with
  | Some (i, _) => (Some i, s)
  | None =>
      match head (query_filter_by_user self s) with
      | Some (i, _) => (Some i, update i (set_primary true) s)
      | None => (None, s)
      end
  end.

End UserEmail.

(** ** User names and organization names *)

Module Names.

(** The two tables, rows by primary key *)
Record db := Db {
  users : gmap nat User.t;
  organizations : gmap nat Organization.t
}.

Definition set__username (v : option string) (u : User.t) : User.t :=
  User.mk (User.userid u) (User.fullname u) v (User.pw_hash u) (User.status u).
Definition set__name (v : option string) (o : Organization.t) : Organization.t :=
  Organization.mk (Organization.owners o) (Organization.userid o) v
                  (Organization.title o) (Organization.description o)
                  (Organization.teams o).

(** [existing and existing.id != self.id]; [self.id] is [None] for an
    object not yet flushed. *)
Definition is_another {A} (existing : option (nat * A)) (self_id : option nat)
  : bool :=
  match existing with
  | Some (i, _) => bool_decide (Some i ≠ self_id)
  | None => false
  end.

(** [Organization.get(name=None, userid=None)] *)
Definition organization_get (name userid : option string) (d : db)
  : result (option (nat * Organization.t)) :=
  if negb (xorb (bool_of_string name) (bool_of_string userid)) then
    Raise (TypeError "Either name or userid should be specified")
  else
    if bool_of_string userid then
      Return (head (filter (λ p, Organization.userid p.2 = userid)
                           (by_key (organizations d))))
    else
      Return (head (filter (λ p, Organization._name p.2 = name)
                           (by_key (organizations d)))).

Section valid.
(** [valid_username] of coaster *)
Variable valid_username : string → bool.

(** [User.is_valid_username] *)
Definition is_valid_username (self_id : option nat) (value : string) (d : db)
  : result bool :=
  if negb (valid_username value) then Return false
  else
    let existing :=
      head (filter (λ p, User._username p.2 = Some value
                         ∨ User.userid p.2 = value)
                   (by_key (users d))) in
    if is_another existing self_id then Return false
    else
      match organization_get (Some value) None d with
      | Raise e => Raise e
      | Return existing =>
          if bool_of_object existing then Return false else Return true
      end.

(** The [username] setter of a user, on the row [self] *)
Definition set_username (self : nat) (value : option string) (d : db)
  : result db :=
  if negb (bool_of_string value) then
    Return (Db (alter (set__username None) self (users d)) (organizations d))
  else
    match value with
    | Some v =>
        match is_valid_username (Some self) v d with
        | Raise e => Raise e
        | Return true =>
            Return (Db (alter (set__username (Some v)) self (users d))
                       (organizations d))
        | Return false => Return d
        end
    | None => Return d
    end.

(** [Organization.valid_name] *)
Definition valid_name (self_id : option nat) (value : string) (d : db)
  : result bool :=
  if negb (valid_username value) then Return false
  else
    match organization_get (Some value) None d with
    | Raise e => Raise e
    | Return existing =>
        if is_another existing self_id then Return false
        else
          let existing :=
            head (filter (λ p, User._username p.2 = Some value)
                         (by_key (users d))) in
          if bool_of_object existing then Return false else Return true
    end.

(** The [name] setter of an organization, on the row [self] *)
Definition set_name (self : nat) (value : string) (d : db) : result db :=
  match valid_name (Some self) value d with
  | Raise e => Raise e
  | Return true =>
      Return (Db (users d)
                 (alter (set__name (Some value)) self (organizations d)))
  | Return false => Return d
  end.
End valid.

End Names.

(** ** The owner of a client and of a permission *)

Module Ownership.

Section store.
(** the organizations and teams *)
Variable h : gmap nat Organization.object.
(** the team memberships, as in [TeamMembership] *)
Variable m : gmap nat (list nat).

Definition team_at (team : nat) : option Team.t :=
  match h !! team with
  | Some (Organization.TeamObject tm) => Some tm
  | _ => None
  end.

Definition organization_at (org : nat) : option Organization.t :=
  match h !! org with
  | Some (Organization.OrganizationObject o) => Some o
  | _ => None
  end.

(** [team.org if team.org.owners == team], as a list of no or one
    organization; [None] for the AttributeError of a team without
    organization. *)
Definition owned_through (team : nat) : option (list nat) :=
  tm ← team_at team;
  org ← Team.org tm;
  o ← organization_at org;
  Some (if decide (Organization.owners o = Some team) then [org] else []).

(** [User.organizations_owned], as the set of the organizations in the
    list it returns, which is ordered by title. *)
Definition organizations_owned (user : nat) : option (gset nat) :=
  orgs ← mapM owned_through (TeamMembership.teams user m);
  Some (list_to_set (concat orgs)).

(** [Client.owner_is], as the truth value of what it returns *)
Definition client_owner_is (self : Client.t) (user : option nat) : option bool :=
  match user with
  | None => Some false
  | Some u =>
      if decide (Client.user_id self = Some u) then Some true
      else
        match Client.org_id self with
        | None => Some false
        | Some org =>
            owned ← organizations_owned u;
            Some (bool_decide (org ∈ owned))
        end
  end.

(** [Permission.owner_is], as the truth value of what it returns: [and]
    binds tighter than [or], so without a user the organization is
    still looked for in [user.organizations_owned()]. *)
Definition permission_owner_is (self : Permission.t) (user : option nat)
  : option bool :=
  if bool_decide (is_Some user ∧ Permission.user_id self = user) then Some true
  else
    match Permission.org_id self with
    | None => Some false
    | Some org =>
        u ← user;
        owned ← organizations_owned u;
        Some (bool_decide (org ∈ owned))
    end.

Section permissions.
(** [super(...).permissions(user, inherited)] *)
Variable perms : gset string.

(** [Client.permissions] *)
Definition client_permissions (self : Client.t) (user : option nat)
  : option (gset string) :=
  let perms := perms ∪ {["view"]} in
  match user with
  | Some _ =>
      owner ← client_owner_is self user;
      Some (if owner : bool
            then perms ∪ {["edit"]} ∪ {["delete"]} ∪ {["assign-permissions"]}
                       ∪ {["new-resource"]}
            else perms)
  | None => Some perms
  end.

(** [Permission.permissions] *)
Definition permission_permissions (self : Permission.t) (user : option nat)
  : option (gset string) :=
  match user with
  | Some _ =>
      owner ← permission_owner_is self user;
      Some (if owner : bool then perms ∪ {["edit"]} ∪ {["delete"]} else perms)
  | None => Some perms
  end.
End permissions.
End store.

End Ownership.

(** ** Notions used in the statements *)

(** The string has an occurrence of the character. *)
Fixpoint contains (c : ascii) (s : string) : Prop :=
  match s with
  | EmptyString => False
  | String a s' => a = c ∨ contains c s'
  end.

(** The number of occurrences of the character. *)
Fixpoint occurrences (c : ascii) (s : string) : nat :=
  match s with
  | EmptyString => 0
  | String a s' => (if Ascii.eqb a c then 1 else 0) + occurrences c s'
  end.

(** [r] is what the first row of [table] satisfying [P] is: a row with
    [P] before which no row has [P], or nothing when no row has [P]. *)
Definition first_match {A} (P : A → Prop) (table : list A) (r : option A) : Prop :=
  match r with
  | Some x => ∃ before after,
      table = before ++ x :: after ∧ P x ∧ Forall (λ y, ¬ P y) before
  | None => Forall (λ y, ¬ P y) table
  end.

(** The names the [algorithm] setter takes *)
Definition recognized_algorithm (v : string) : Prop :=
  v = "hmac-sha-1" ∨ v = "hmac-sha-256".

(** What the [algorithm] column may hold: nothing, or one of those names *)
Definition allowed_algorithm (a : option string) : Prop :=
  match a with
  | None => True
  | Some v => recognized_algorithm v
  end.

(** The row [tk] is held under the key [i] and has not been deleted. *)
Definition live_token (s : AuthToken.session) (i : nat) (tk : AuthToken.t) : Prop :=
  AuthToken.rows s !! i = Some tk ∧ ¬ (i ∈ AuthToken.deleted s).

(** [UniqueConstraint("user_id", "client_id")]: no two rows for the same
    user and client. Rows without a user are not constrained. *)
Definition unique_user_client (s : AuthToken.session) : Prop :=
  ∀ i j ti tj u,
    live_token s i ti → live_token s j tj →
    AuthToken.user_id ti = Some u → AuthToken.user_id tj = Some u →
    AuthToken.client_id ti = AuthToken.client_id tj → i = j.

(** [cls.query.filter_by(user=u, client=c).all()] *)
Definition tokens_of_user_client (u c : nat) (s : AuthToken.session)
  : list (nat * AuthToken.t) :=
  filter (λ p, AuthToken.client_id p.2 = c) (AuthToken.query_filter_by_user u s).

(** The row of the new user once the row of the old user has been merged
    into it *)
Definition merged_token (old new : AuthToken.t) : AuthToken.t :=
  AuthToken.set_scope
    (remove_dups (AuthToken.scope new ++ AuthToken.scope old)) new.

(** The merged string as C5 words it: the union of the two token sets
    without the empty token, sorted and joined by spaces. *)
Definition union_without_empty (a b : string) : string :=
  Py.join " " (Py.sorted (filter (λ w, w ≠ "")
                 (remove_dups (Py.split " " a ++ Py.split " " b)))).

(** A row a query of the session returns *)
Definition live_email (s : UserEmail.session) (i : nat) (e : UserEmail.t) : Prop :=
  UserEmail.rows s !! i = Some e ∧ i ∉ UserEmail.deleted s.

(** The user has at most one primary address. *)
Definition one_primary (u : nat) (s : UserEmail.session) : Prop :=
  ∀ i j ei ej,
    live_email s i ei → live_email s j ej →
    UserEmail.user_id ei = u → UserEmail.user_id ej = u →
    UserEmail.primary ei = true → UserEmail.primary ej = true → i = j.

(** The names in use are told apart: no two users share a username or a
    userid, no username is the userid of another user, no username is
    the name of an organization, and no two organizations share a
    name. *)
Record namespace (d : Names.db) : Prop := {
  namespace_usernames : ∀ i j ui uj n,
    Names.users d !! i = Some ui → Names.users d !! j = Some uj →
    User._username ui = Some n → User._username uj = Some n → i = j;
  namespace_userids : ∀ i j ui uj,
    Names.users d !! i = Some ui → Names.users d !! j = Some uj →
    User.userid ui = User.userid uj → i = j;
  namespace_username_userid : ∀ i j ui uj,
    Names.users d !! i = Some ui → Names.users d !! j = Some uj →
    User._username ui = Some (User.userid uj) → i = j;
  namespace_user_org : ∀ i o ui org n,
    Names.users d !! i = Some ui → Names.organizations d !! o = Some org →
    User._username ui = Some n → Organization._name org ≠ Some n;
  namespace_names : ∀ i j oi oj n,
    Names.organizations d !! i = Some oi → Names.organizations d !! j = Some oj →
    Organization._name oi = Some n → Organization._name oj = Some n → i = j
}.

(** Every team of the user is in the store, with its organization. *)
Definition teams_in_store (h : gmap nat Organization.object)
    (m : gmap nat (list nat)) (user : nat) : Prop :=
  ∀ team, team ∈ TeamMembership.teams user m →
    ∃ tm org o, Ownership.team_at h team = Some tm
                ∧ Team.org tm = Some org
                ∧ Ownership.organization_at h org = Some o.

(** The user the keywords give: the value of the last [user] keyword *)
Definition given_user (kwargs : list AuthTokenObject.keyword) : option nat :=
  foldl (λ acc k, match k with
                  | AuthTokenObject.Kw_user v => v
                  | _ => acc
                  end) None kwargs.

(** The refresh token the keywords give: the value of the last
    [refresh_token] keyword *)
Definition given_refresh_token (kwargs : list AuthTokenObject.keyword)
  : option string :=
  foldl (λ acc k, match k with
                  | AuthTokenObject.Kw_refresh_token v => v
                  | _ => acc
                  end) None kwargs.

(** The keywords of a call that gives the user, the client, the scope,
    the validity and maybe the algorithm *)
Definition plain_keywords (user : option nat) (client : nat)
    (scope : list string) (valid : Z) (alg : option (option string))
  : list AuthTokenObject.keyword :=
  [AuthTokenObject.Kw_user user; AuthTokenObject.Kw_client (Some client);
   AuthTokenObject.Kw_scope scope; AuthTokenObject.Kw_validity (Some valid)]
  ++ match alg with
     | Some a => [AuthTokenObject.Kw_algorithm a]
     | None => []
     end.

(** ** Inputs used in examples *)

(** A code of user 1 for client 7 with the given stored scope *)
Definition example_code (scope : string) : AuthCode.t :=
  AuthCode.mk 1 7 "code" scope "https://app/cb" false.

(** A token for client 7 with the given user and stored scope *)
Definition example_token (user : option nat) (scope : string) : AuthToken.t :=
  AuthToken.mk user 7 "token" "bearer" (Some "secret") None scope 0
               (match user with Some _ => Some "refresh" | None => None end).

(** A session with a token of user 1 and a token of user 2 for client 7,
    and a token of client 7 alone. *)
Definition example_session : AuthToken.session :=
  AuthToken.Session
    {[ 1 := example_token (Some 1) "profile/read";
       2 := example_token (Some 2) "email/read";
       3 := example_token None "profile/read" ]}
    ∅.

(** The old user has no permission on client 7 (an empty string, the
    default of the column) and the new user has the permission [a]. *)
Definition example_permissions : UserClientPermissions.session :=
  UserClientPermissions.Session
    {[ 1 := UserClientPermissions.mk 1 7 "";
       2 := UserClientPermissions.mk 2 7 "a" ]} ∅ ∅.

(** The old user has permissions on the clients 7 and 8, the new user
    has none. *)
Definition example_permissions_two : UserClientPermissions.session :=
  UserClientPermissions.Session
    {[ 1 := UserClientPermissions.mk 1 7 "read";
       2 := UserClientPermissions.mk 1 8 "write" ]} ∅ ∅.

(** A store holding an organization at address 0 and its owners team at
    address 1. *)
Definition example_store : gmap nat Organization.object :=
  {[ 0 := Organization.OrganizationObject
            (Organization.mk (Some 1) (Some "org-1") None (Some "First") None [1]);
     1 := Organization.TeamObject (Team.mk "Owners" (Some 0) []) ]}.

(** The session of the examples with the token of user 2 held for
    another client *)
Definition example_session_apart : AuthToken.session :=
  AuthToken.Session
    {[ 1 := example_token (Some 1) "profile/read";
       2 := AuthToken.mk (Some 2) 8 "token8" "bearer" (Some "secret") None
                         "email/read" 0 (Some "refresh8") ]}
    ∅.

(** Two addresses of user 1, the first one primary, and one address of
    user 2 *)
Definition example_emails : UserEmail.session :=
  UserEmail.Session
    {[ 1 := UserEmail.mk 1 "a@example.org" "" true;
       2 := UserEmail.mk 1 "b@example.org" "" false;
       3 := UserEmail.mk 2 "c@example.org" "" true ]}
    ∅ [].

(** Two users, one with a username, and an organization with a name *)
Definition example_names : Names.db :=
  Names.Db
    {[ 1 := User.mk "u1" "Alice" (Some "alice") None USER_STATUS.ACTIVE;
       2 := User.mk "u2" "Bob" None None USER_STATUS.ACTIVE ]}
    {[ 1 := Organization.mk (Some 10) (Some "o1") (Some "hasgeek")
                            (Some "HasGeek") None [10] ]}.

(** A client owned by the organization at address 0 *)
Definition example_client : Client.t :=
  Client.mk None (Some 0) "App" "https://app.example.org" true false false
            "key" "secret" false.

(** * Properties *)

(** ** The definitions on small inputs *)

Example split_two_spaces : Py.split " " "a  b " = ["a"; ""; "b"; ""].
Proof. reflexivity. Qed.

Example join_three : Py.join " " ["a"; ""; "b"] = "a  b".
Proof. reflexivity. Qed.

Example sorted_tokens :
  Py.sorted ["profile/read"; "email"; "email/read"; "email"]
  = ["email"; "email"; "email/read"; "profile/read"].
Proof. by vm_compute. Qed.

Example token_scope_is_sorted :
  AuthToken._scope (AuthToken.set_scope ["profile/read"; "email/read"]
                      (example_token (Some 1) ""))
  = "email/read profile/read".
Proof. by vm_compute. Qed.

Example code_scope_keeps_order :
  AuthCode._scope (AuthCode.set_scope ["profile/read"; "email/read"]
                     (example_code ""))
  = "profile/read email/read".
Proof. reflexivity. Qed.

Example user_get_skips_merged :
  let merged := User.mk "u1" "Alice" (Some "alice") None USER_STATUS.MERGED in
  let active := User.mk "u2" "Alice" None None USER_STATUS.ACTIVE in
  User.get [merged; active] None (Some "u1") = Return None
  ∧ User.get [merged; active] (Some "alice") None = Return None
  ∧ User.get [merged; active] None (Some "u2") = Return (Some active)
  ∧ User.get [merged; active] (Some "") (Some "u2") = Return (Some active)
  ∧ User.get [merged; active] (Some "alice") (Some "u2")
    = Raise (TypeError "Either username or userid should be specified").
Proof. by vm_compute. Qed.

Example permission_get_global :
  let own := Permission.mk (Some 1) None "x" "Own" "" false in
  let global := Permission.mk None None "x" "Global" "" true in
  Permission.get [own; global] "x" (Some 1) (Some 5) true = Return (Some global)
  ∧ Permission.get [own; global] "x" (Some 1) None false = Return (Some own)
  ∧ Permission.get [own; global] "x" None (Some 5) false = Return None
  ∧ Permission.get [own; global] "x" (Some 1) (Some 5) false
    = Raise (TypeError "Either user or org should be specified").
Proof. by vm_compute. Qed.

(** ** Splitting and joining *)

Section split_join.
Variable sep : ascii.

Lemma split_not_nil s : Py.split sep s ≠ [].
Proof.
  destruct s as [|a s]; simpl; [done|].
  destruct (Ascii.eqb a sep); [done|].
  by destruct (Py.split sep s).
Qed.

Lemma split_length s : length (Py.split sep s) = S (occurrences sep s).
Proof.
  induction s as [|a s IH]; simpl; [done|].
  destruct (Ascii.eqb a sep); simpl; [by rewrite IH|].
  destruct (Py.split sep s); simpl in *; [done|lia].
Qed.

Lemma split_no_sep s : Forall (λ w, ¬ contains sep w) (Py.split sep s).
Proof.
  induction s as [|a s IH]; simpl.
  - repeat constructor. tauto.
  - destruct (Ascii.eqb_spec a sep) as [->|Hne].
    + constructor; [simpl; tauto | done].
    + destruct (Py.split sep s) as [|w ws].
      * repeat constructor. simpl. tauto.
      * inversion_clear IH. constructor; [simpl; tauto | done].
Qed.

Lemma join_split s : Py.join (String sep "") (Py.split sep s) = s.
Proof.
  unfold Py.join. induction s as [|a s IH]; simpl; [done|].
  destruct (Ascii.eqb_spec a sep) as [->|Hne].
  - pose proof (split_not_nil s).
    destruct (Py.split sep s) as [|w ws] eqn:E; [done|].
    simpl. simpl in IH. by rewrite IH.
  - destruct (Py.split sep s) as [|w ws] eqn:E; simpl; [by destruct (split_not_nil s)|].
    destruct ws; simpl in *; by rewrite <- IH.
Qed.

Lemma split_app_no_sep w s :
  ¬ contains sep w →
  Py.split sep (w +:+ String sep s) = w :: Py.split sep s.
Proof.
  induction w as [|a w IH]; intros Hw.
  - change ("" +:+ String sep s) with (String sep s). simpl.
    by rewrite Ascii.eqb_refl.
  - change (String a w +:+ String sep s) with (String a (w +:+ String sep s)).
    simpl in *. destruct (Ascii.eqb_spec a sep) as [->|Hne]; [tauto|].
    rewrite IH by tauto. done.
Qed.

Lemma split_word w : ¬ contains sep w → Py.split sep w = [w].
Proof.
  induction w as [|a w IH]; simpl; intros Hw; [done|].
  destruct (Ascii.eqb_spec a sep) as [->|Hne]; [tauto|].
  rewrite IH by tauto. done.
Qed.

Lemma split_join l :
  l ≠ [] → Forall (λ w, ¬ contains sep w) l →
  Py.split sep (Py.join (String sep "") l) = l.
Proof.
  unfold Py.join. intros Hl Hall. induction Hall as [|w l Hw Hall IH]; [done|].
  destruct l as [|w' l].
  - by apply split_word.
  - change (String.concat (String sep "") (w :: w' :: l))
      with (w +:+ String sep (String.concat (String sep "") (w' :: l))).
    rewrite split_app_no_sep by done. f_equal. by apply IH.
Qed.
End split_join.

(** ** Sorting and sets *)

Lemma sorted_Permutation l : Py.sorted l ≡ₚ l.
Proof. apply merge_sort_Permutation. Qed.

Lemma sorted_Sorted l : Sorted String.le (Py.sorted l).
Proof. apply (Sorted_merge_sort String.le). Qed.

(** [sorted] depends on the elements only, not on the order in which they
    arrive. *)
Lemma sorted_proper l1 l2 : l1 ≡ₚ l2 → Py.sorted l1 = Py.sorted l2.
Proof.
  intros Hp. apply (Sorted_unique String.le); try apply sorted_Sorted.
  by rewrite !sorted_Permutation.
Qed.

Lemma sorted_not_nil l : l ≠ [] → Py.sorted l ≠ [].
Proof.
  intros Hl Hs. apply Hl, Permutation_nil_r. rewrite <- Hs.
  symmetry. apply sorted_Permutation.
Qed.

Section set_facts.
Context `{Py.SetIter}.

Lemma set_iter_Permutation l : Py.set_iter l ≡ₚ remove_dups l.
Proof.
  apply NoDup_Permutation.
  - apply Py.set_iter_NoDup.
  - apply NoDup_remove_dups.
  - intros x. by rewrite Py.set_iter_elem, elem_of_remove_dups.
Qed.

Lemma union_Permutation a b :
  Py.union (Py.set a) (Py.set b) ≡ₚ remove_dups (a ++ b).
Proof.
  unfold Py.union, Py.set. rewrite set_iter_Permutation.
  apply NoDup_Permutation; try apply NoDup_remove_dups.
  intros x. rewrite !elem_of_remove_dups, !elem_of_app, !Py.set_iter_elem. done.
Qed.

Lemma union_elem x a b :
  x ∈ Py.union (Py.set a) (Py.set b) ↔ x ∈ a ∨ x ∈ b.
Proof. by rewrite union_Permutation, elem_of_remove_dups, elem_of_app. Qed.

Lemma union_not_nil a b : a ≠ [] → Py.union (Py.set a) (Py.set b) ≠ [].
Proof.
  destruct a as [|x a]; [done|]. intros _ Hnil.
  assert (Hx : x ∈ Py.union (Py.set (x :: a)) (Py.set b))
    by (apply union_elem; left; left).
  rewrite Hnil in Hx. by apply elem_of_nil in Hx.
Qed.

(** Sorting the union gives one list, however the set is iterated. *)
Lemma sorted_union a b :
  Py.sorted (Py.union (Py.set a) (Py.set b)) = Py.sorted (remove_dups (a ++ b)).
Proof. apply sorted_proper, union_Permutation. Qed.
End set_facts.

(** Iteration by slot is one of the orders a set may have. *)
Global Program Instance slot_iter : Py.SetIter := {|
  Py.set_iter := Py.slot_order
|}.
Next Obligation.
  intros l. unfold Py.slot_order.
  rewrite merge_sort_Permutation. apply NoDup_remove_dups.
Qed.
Next Obligation.
  intros x l. unfold Py.slot_order.
  by rewrite merge_sort_Permutation, elem_of_remove_dups.
Qed.

(** The slots of the tokens [a] and [b]: in a set holding both, [a] comes
    first whichever was put in first. *)
Example slots_a_b :
  Py.string_hash "a" = 12416037344%Z ∧ Py.string_hash "b" = 12544037731%Z
  ∧ Py.slot8 "a" = 0%Z ∧ Py.slot8 "b" = 3%Z.
Proof. by vm_compute. Qed.

(** ** Reading and writing the scope of a code or token *)

(** C4, as stated, fails: the scope read from an empty stored string is
    the list holding one empty token, not an empty collection. *)
Lemma C4_empty_string_parses_to_one_token :
  AuthCode._scope (example_code "") = ""
  ∧ AuthCode.scope (example_code "") = [""]
  ∧ AuthCode.scope (example_code "") ≠ []
  ∧ AuthToken.scope (example_token None "") = [""]
  ∧ AuthToken.scope (example_token None "") ≠ [].
Proof. repeat split; done. Qed.

(** C4, amended: the scope read from a code or a token is its stored
    string cut at every single space. The pieces joined by single spaces
    give the stored string back, no piece holds a space, there is one
    piece more than there are spaces, and the empty string gives the one
    piece [""]. *)
Theorem C4_scope_splits_on_single_spaces (c : AuthCode.t) (tk : AuthToken.t) :
  let pieces_of s l :=
    Py.join " " l = s
    ∧ Forall (λ w, ¬ contains " " w) l
    ∧ length l = S (occurrences " " s) in
  pieces_of (AuthCode._scope c) (AuthCode.scope c)
  ∧ pieces_of (AuthToken._scope tk) (AuthToken.scope tk)
  ∧ (AuthCode._scope c = "" → AuthCode.scope c = [""])
  ∧ (AuthToken._scope tk = "" → AuthToken.scope tk = [""]).
Proof.
  unfold AuthCode.scope, AuthToken.scope. simpl.
  repeat split; auto using join_split, split_no_sep, split_length.
  - by intros ->.
  - by intros ->.
Qed.

(** C6: reading the scope of an object, writing what was read to an
    object, the same one or any other, and reading the scope of that
    one gives the same tokens. For a code the list read is the same, in
    the same order; for a token it is the list read first put in sorted
    order, which holds the same tokens. Whatever the object written to
    held before does not show. *)
Theorem C6_scope_round_trip (c c' : AuthCode.t) (tk tk' : AuthToken.t) :
  AuthCode.scope (AuthCode.set_scope (AuthCode.scope c) c') = AuthCode.scope c
  ∧ AuthToken.scope (AuthToken.set_scope (AuthToken.scope tk) tk')
    = Py.sorted (AuthToken.scope tk)
  ∧ AuthToken.scope (AuthToken.set_scope (AuthToken.scope tk) tk')
    ≡ₚ AuthToken.scope tk
  ∧ (∀ x, x ∈ AuthToken.scope (AuthToken.set_scope (AuthToken.scope tk) tk')
          ↔ x ∈ AuthToken.scope tk).
Proof.
  assert (Hc : AuthCode.scope (AuthCode.set_scope (AuthCode.scope c) c')
               = AuthCode.scope c).
  { unfold AuthCode.scope. simpl.
    by rewrite (join_split " "%char). }
  assert (Ht : AuthToken.scope (AuthToken.set_scope (AuthToken.scope tk) tk')
               = Py.sorted (AuthToken.scope tk)).
  { unfold AuthToken.scope. simpl.
    apply (split_join " "%char).
    - apply sorted_not_nil, split_not_nil.
    - rewrite sorted_Permutation. apply split_no_sep. }
  split; [done|]. split; [done|]. rewrite Ht. split.
  - apply sorted_Permutation.
  - intros x. by rewrite sorted_Permutation.
Qed.

(** ** The order of the tokens in a serialized scope *)

Example insertion_order_keeps_first_seen :
  Py.insertion_order ["b"; "a"; "b"; "c"; "a"] = ["b"; "a"; "c"].
Proof. reflexivity. Qed.

(** With the tokens iterated by slot, adding [a] to the scope [b] of a
    code stores [a b]; the order of first occurrence is [b a]. *)
Example add_scope_a_to_b :
  AuthCode._scope (AuthCode.add_scope (OneToken "a") (example_code "b")) = "a b"
  ∧ Py.join " " (Py.insertion_order
                   (AuthCode.scope (example_code "b") ++ ["a"])) = "b a".
Proof. by vm_compute. Qed.

(** C2, as stated, fails: [add_scope] on a code does not keep the tokens
    in the order in which they were first seen. *)
Lemma C2_add_scope_loses_insertion_order :
  ¬ (∀ (H : Py.SetIter) (c : AuthCode.t) (additional : scope_arg),
       AuthCode._scope (AuthCode.add_scope additional c)
       = Py.join " " (Py.insertion_order
                        (AuthCode.scope c ++ scope_arg_list additional))).
Proof.
  intros Hclaim.
  specialize (Hclaim slot_iter (example_code "b") (OneToken "a")).
  by vm_compute in Hclaim.
Qed.

(** C2, amended: assigning a sequence of tokens to the scope of a code
    stores them joined by single spaces in the order of the sequence,
    unsorted. [add_scope] on a code stores the tokens of the scope and of
    the addition, each once, in the order in which the set holding them
    is iterated, whatever order that is. A token stores the tokens
    sorted, always. *)
Theorem C2_code_scope_order `{Py.SetIter} (c : AuthCode.t) (tk : AuthToken.t)
    (additional : scope_arg) (value : list string) :
  AuthCode._scope (AuthCode.set_scope value c) = Py.join " " value
  ∧ (∃ l, AuthCode._scope (AuthCode.add_scope additional c) = Py.join " " l
          ∧ l ≡ₚ remove_dups (AuthCode.scope c ++ scope_arg_list additional))
  ∧ AuthToken._scope (AuthToken.set_scope value tk)
    = Py.join " " (Py.sorted value)
  ∧ AuthToken._scope (AuthToken.add_scope additional tk)
    = Py.join " " (Py.sorted (remove_dups
                                (AuthToken.scope tk ++ scope_arg_list additional))).
Proof.
  split; [done|]. split; [|split; [done|]].
  - eexists. split; [reflexivity|]. apply union_Permutation.
  - unfold AuthToken.add_scope, AuthToken.set_scope. simpl.
    by rewrite sorted_union.
Qed.

(** ** Refreshing a token *)

(** C3: on a token with a refresh token, [refresh] stores a newly drawn
    token and a newly drawn secret and leaves the refresh token, the scope,
    the validity and every other column as they were; on a token without
    one it changes nothing, draws nothing and raises nothing. *)
Theorem C3_refresh {rng : Type} (newid newsecret : rng → string * rng)
    (tk : AuthToken.t) (g : rng) :
  let '(tk', g') := AuthToken.refresh newid newsecret tk g in
  match AuthToken.refresh_token tk with
  | Some r =>
      AuthToken.token tk' = (newid g).1
      ∧ AuthToken.secret tk' = Some (newsecret (newid g).2).1
      ∧ g' = (newsecret (newid g).2).2
      ∧ AuthToken.refresh_token tk' = Some r
      ∧ AuthToken._scope tk' = AuthToken._scope tk
      ∧ AuthToken.scope tk' = AuthToken.scope tk
      ∧ AuthToken.validity tk' = AuthToken.validity tk
      ∧ AuthToken.user_id tk' = AuthToken.user_id tk
      ∧ AuthToken.client_id tk' = AuthToken.client_id tk
      ∧ AuthToken.token_type tk' = AuthToken.token_type tk
      ∧ AuthToken._algorithm tk' = AuthToken._algorithm tk
  | None => tk' = tk ∧ g' = g
  end.
Proof.
  unfold AuthToken.refresh.
  destruct (AuthToken.refresh_token tk) as [r|] eqn:Hr; [|done].
  destruct (newid g) as [i g1]. simpl.
  destruct (newsecret g1) as [k g2]. simpl.
  by rewrite Hr.
Qed.

(** ** The MAC algorithm of a token *)

Lemma recognized_algorithm_elem v :
  v ∈ ["hmac-sha-1"; "hmac-sha-256"] ↔ recognized_algorithm v.
Proof.
  unfold recognized_algorithm.
  rewrite !elem_of_cons, elem_of_nil. tauto.
Qed.

(** C8: assigning [None] to [algorithm] stores [None] in both the
    algorithm and the secret; assigning one of the two recognized names
    stores it and leaves the secret; assigning anything else raises
    [ValueError] and leaves the token as it was. A token new from its
    constructor holds [None] or a recognized name, and the setter keeps
    it so: the column only ever holds [None] or a recognized name. *)
Theorem C8_algorithm_setter (tk : AuthToken.t) (value : option string) :
  let '(r, tk') := AuthToken.set_algorithm value tk in
  match value with
  | None =>
      r = Return ()
      ∧ AuthToken.algorithm tk' = None ∧ AuthToken.secret tk' = None
  | Some v =>
      (recognized_algorithm v →
         r = Return ()
         ∧ AuthToken.algorithm tk' = Some v
         ∧ AuthToken.secret tk' = AuthToken.secret tk)
      ∧ (¬ recognized_algorithm v →
         (∃ msg, r = Raise (ValueError msg)) ∧ tk' = tk)
  end
  ∧ (r = Return () → allowed_algorithm (AuthToken.algorithm tk'))
  ∧ (allowed_algorithm (AuthToken.algorithm tk) →
     allowed_algorithm (AuthToken.algorithm tk'))
  ∧ (∀ (rng : Type) (newid newsecret : rng → string * rng)
       user client scope valid alg g tk0 g',
       AuthToken.init newid newsecret user client scope valid alg g
       = (Return tk0, g') →
       allowed_algorithm (AuthToken.algorithm tk0))
  ∧ AuthToken.user_id tk' = AuthToken.user_id tk
  ∧ AuthToken.client_id tk' = AuthToken.client_id tk
  ∧ AuthToken.token tk' = AuthToken.token tk
  ∧ AuthToken._scope tk' = AuthToken._scope tk
  ∧ AuthToken.validity tk' = AuthToken.validity tk
  ∧ AuthToken.refresh_token tk' = AuthToken.refresh_token tk.
Proof.
  assert (Hset : ∀ v t0, (AuthToken.set_algorithm v t0).1 = Return () →
             allowed_algorithm (AuthToken.algorithm (AuthToken.set_algorithm v t0).2)).
  { intros [v|] t0; unfold AuthToken.set_algorithm; simpl; [|done].
    case_bool_decide as Hv; [|done]. intros _.
    by apply recognized_algorithm_elem. }
  assert (Hinit : ∀ (rng : Type) (newid newsecret : rng → string * rng)
                    user client scope valid alg g tk0 g',
             AuthToken.init newid newsecret user client scope valid alg g
             = (Return tk0, g') →
             allowed_algorithm (AuthToken.algorithm tk0)).
  { intros rng newid newsecret user client scope valid alg g tk0 g'.
    unfold AuthToken.init.
    set (t0 := AuthToken.set_scope scope _).
    assert (Ht0 : ∀ t1, AuthToken.algorithm t1 = None ∨
                        (∃ v, alg = Some v ∧ (AuthToken.set_algorithm v t0).1 = Return ()
                              ∧ t1 = (AuthToken.set_algorithm v t0).2) →
                        allowed_algorithm (AuthToken.algorithm t1)).
    { intros t1 [->|(v & _ & Hr & ->)]; [done|by apply Hset]. }
    destruct alg as [v|].
    - destruct (AuthToken.set_algorithm v t0) as [r t1] eqn:Hv.
      destruct r as [[]|e]; [|done].
      assert (Ha : allowed_algorithm (AuthToken.algorithm t1)).
      { apply Ht0. right. exists v. by rewrite Hv. }
      destruct (newid g) as [i g1]. simpl.
      destruct (AuthToken.user_id t1).
      + destruct (newid g1) as [r g2]. destruct (newsecret g2).
        by intros [= <- _].
      + destruct (newsecret g1). by intros [= <- _].
    - destruct (newid g) as [i g1]. simpl. destruct user.
      + destruct (newid g1) as [r g2]. destruct (newsecret g2).
        by intros [= <- _].
      + destruct (newsecret g1). by intros [= <- _]. }
  unfold AuthToken.set_algorithm. destruct value as [v|]; [|by repeat split].
  case_bool_decide as Hv; rewrite recognized_algorithm_elem in Hv.
  - repeat split; try done. all: eauto.
  - repeat split; try done. all: eauto.
Qed.

(** ** Looking rows up *)

Lemma head_filter_first_match {A} (P : A → Prop) `{∀ x, Decision (P x)} table :
  first_match P table (head (filter P table)).
Proof.
  induction table as [|x table IH]; simpl; [constructor|].
  rewrite filter_cons. destruct (decide (P x)) as [Hx|Hx]; simpl.
  - exists [], table. by repeat split.
  - destruct (head (filter P table)) as [y|]; simpl in *.
    + destruct IH as (before & after & -> & Hy & Hb).
      exists (x :: before), after. repeat split; [done|]. by constructor.
    + by constructor.
Qed.

(** C7: with [allusers] true, [Permission.get] gives the first permission
    of that name open to all users, whatever [user] and [org] are; with
    [allusers] false it raises [TypeError] unless exactly one of [user]
    and [org] is given, and then gives the first permission of that name
    owned by that user or organization; nothing when there is none. *)
Theorem C7_permission_get (table : list Permission.t) (nm : string)
    (user org : option nat) :
  (∃ r, Permission.get table nm user org true = Return r
        ∧ Permission.get table nm None None true = Return r
        ∧ first_match (λ p, Permission.name p = nm
                            ∧ Permission.allusers p = true) table r)
  ∧ match user, org with
    | Some u, None =>
        ∃ r, Permission.get table nm user org false = Return r
             ∧ first_match (λ p, Permission.name p = nm
                                 ∧ Permission.user_id p = Some u) table r
    | None, Some o =>
        ∃ r, Permission.get table nm user org false = Return r
             ∧ first_match (λ p, Permission.name p = nm
                                 ∧ Permission.org_id p = Some o) table r
    | _, _ => ∃ msg, Permission.get table nm user org false = Raise (TypeError msg)
    end.
Proof.
  split.
  - eexists. repeat split. apply head_filter_first_match.
  - destruct user as [u|], org as [o|]; simpl; eauto.
    + eexists. split; [done|]. apply head_filter_first_match.
    + eexists. split; [done|]. apply head_filter_first_match.
Qed.

(** C10: [User.get] raises [TypeError] unless exactly one of [username]
    and [userid] is given (an empty string counts as not given, as for
    [bool]); otherwise it gives the first user with that userid, or else
    that username, among the users whose status is [ACTIVE]. A user it
    gives is active; one that is suspended or merged is never given. *)
Theorem C10_user_get_active_only (table : list User.t)
    (username userid : option string) :
  (bool_of_string username = bool_of_string userid →
     ∃ msg, User.get table username userid = Raise (TypeError msg))
  ∧ (bool_of_string username = false → bool_of_string userid = true →
     ∃ r, User.get table username userid = Return r
          ∧ first_match (λ u, Some (User.userid u) = userid
                              ∧ User.status u = USER_STATUS.ACTIVE) table r)
  ∧ (bool_of_string username = true → bool_of_string userid = false →
     ∃ r, User.get table username userid = Return r
          ∧ first_match (λ u, User._username u = username
                              ∧ User.status u = USER_STATUS.ACTIVE) table r)
  ∧ (∀ u, User.get table username userid = Return (Some u) →
       u ∈ table
       ∧ User.status u = USER_STATUS.ACTIVE
       ∧ User.status u ≠ USER_STATUS.SUSPENDED
       ∧ User.status u ≠ USER_STATUS.MERGED
       ∧ (Some (User.userid u) = userid ∨ User._username u = username)).
Proof.
  assert (Hactive : ∀ (P : User.t → Prop) `{∀ u, Decision (P u)} u,
             head (filter (λ u, P u ∧ User.status u = USER_STATUS.ACTIVE) table)
             = Some u →
             u ∈ table ∧ User.status u = USER_STATUS.ACTIVE
             ∧ User.status u ≠ USER_STATUS.SUSPENDED
             ∧ User.status u ≠ USER_STATUS.MERGED ∧ P u).
  { intros P ? u Hu. apply head_Some_elem_of, list_elem_of_filter in Hu.
    destruct Hu as [[Hm Hs] Hin]. rewrite Hs. by repeat split. }
  unfold User.get, User.first.
  destruct (bool_of_string username) eqn:Hn, (bool_of_string userid) eqn:Hi;
    simpl; (split; [|split; [|split]]); try done;
    eauto using @head_filter_first_match.
  - intros u [= Hu]. apply Hactive in Hu.
    destruct Hu as (? & ? & ? & ? & ?). repeat split; auto.
  - intros u [= Hu]. apply Hactive in Hu.
    destruct Hu as (? & ? & ? & ? & ?). repeat split; auto.
Qed.

(** ** Constructing an organization *)

(** C9, as stated, fails: an organization constructed with the owners
    team of another organization keeps that team, which belongs to the
    other organization. *)
Lemma C9_owners_given_by_caller :
  let kw := Organization.Kwargs (Some 1) None None (Some "Second") None in
  let '(self, h) := Organization.init (λ _, true) kw example_store in
  self = 2
  ∧ ∃ o tm,
      h !! self = Some (Organization.OrganizationObject o)
      ∧ Organization.owners o = Some 1
      ∧ h !! 1 = Some (Organization.TeamObject tm)
      ∧ Team.org tm = Some 0
      ∧ Team.org tm ≠ Some self.
Proof. vm_compute. split; [done|]. do 2 eexists. repeat split. done. Qed.

(** C9, amended: when the constructor returns, [owners] of the new
    organization is not [None]. When the caller gave no [owners], it is
    a team made by the constructor, titled [Owners], whose [org] is the
    new organization; a team given by the caller is kept as it is. No
    other object of the store is changed. *)
Theorem C9_owners_after_init (valid_name : string → bool)
    (kw : Organization.kwargs) (h : gmap nat Organization.object) :
  let '(self, h') := Organization.init valid_name kw h in
  h !! self = None
  ∧ ∃ o team,
      h' !! self = Some (Organization.OrganizationObject o)
      ∧ Organization.owners o = Some team
      ∧ match Organization.kw_owners kw with
        | None =>
            h !! team = None ∧ team ≠ self
            ∧ h' !! team = Some (Organization.TeamObject
                                   (Team.mk "Owners" (Some self) []))
            ∧ Organization.teams o = [team]
            ∧ ∀ a, a ≠ self → a ≠ team → h' !! a = h !! a
        | Some given =>
            team = given
            ∧ ∀ a, a ≠ self → h' !! a = h !! a
        end.
Proof.
  unfold Organization.init. simpl.
  set (self := fresh (dom h)).
  assert (Hself : h !! self = None).
  { apply not_elem_of_dom. apply is_fresh. }
  destruct (Organization.kw_owners kw) as [given|] eqn:Hkw; simpl.
  - split; [done|]. do 2 eexists. rewrite lookup_insert_eq.
    repeat split. intros a Ha. by rewrite lookup_insert_ne.
  - set (h1 := <[self := _]> h).
    set (team := fresh (dom h1)).
    assert (Hteam : h1 !! team = None).
    { apply not_elem_of_dom. apply is_fresh. }
    assert (Hne : team ≠ self).
    { intros Heq. rewrite Heq in Hteam. unfold h1 in Hteam.
      by rewrite lookup_insert_eq in Hteam. }
    split; [done|]. do 2 eexists. rewrite lookup_insert_eq.
    repeat split; try done.
    + unfold h1 in Hteam. by rewrite lookup_insert_ne in Hteam.
    + by rewrite lookup_insert_ne, lookup_insert_eq.
    + intros a Ha Hat. unfold h1. by rewrite !lookup_insert_ne.
Qed.

(** ** The rows of a table *)

Lemma by_key_Permutation {A} (m : gmap nat A) : by_key m ≡ₚ map_to_list m.
Proof. apply merge_sort_Permutation. Qed.

Lemma elem_of_by_key {A} (m : gmap nat A) (i : nat) (a : A) :
  (i, a) ∈ by_key m ↔ m !! i = Some a.
Proof. by rewrite by_key_Permutation, elem_of_map_to_list. Qed.

Lemma NoDup_by_key {A} (m : gmap nat A) : NoDup (by_key m).
Proof. rewrite by_key_Permutation. apply NoDup_map_to_list. Qed.



(** ** Moving the tokens of a user to another user *)

Lemma query_filter_by_user_elem u s i tk :
  (i, tk) ∈ AuthToken.query_filter_by_user u s
  ↔ live_token s i tk ∧ AuthToken.user_id tk = Some u.
Proof.
  unfold AuthToken.query_filter_by_user, live_token.
  rewrite list_elem_of_filter, elem_of_by_key. simpl. tauto.
Qed.

Lemma query_filter_by_user_NoDup u s :
  NoDup (AuthToken.query_filter_by_user u s).
Proof. apply NoDup_filter, NoDup_by_key. Qed.

Lemma query_filter_by_user_NoDup_keys u s :
  NoDup (AuthToken.query_filter_by_user u s).*1.
Proof.
  apply NoDup_fmap_fst; [|apply query_filter_by_user_NoDup].
  intros i t1 t2 [[H1 _] _]%query_filter_by_user_elem
                 [[H2 _] _]%query_filter_by_user_elem.
  congruence.
Qed.

Lemma query_filter_by_user_keys u s i :
  i ∈ (AuthToken.query_filter_by_user u s).*1
  ↔ ∃ tk, live_token s i tk ∧ AuthToken.user_id tk = Some u.
Proof.
  rewrite list_elem_of_fmap. split.
  - intros [[j tk] [-> Hin]]. exists tk. by apply query_filter_by_user_elem.
  - intros [tk Htk]. exists (i, tk). split; [done|].
    by apply query_filter_by_user_elem.
Qed.

(** What the dictionary [newtokens] holds for a client: the keys of the
    rows of that client, in the order of the query, when there are any. *)
Lemma newtokens_of_lookup l c :
  AuthToken.newtokens_of l !! c
  = match (filter (λ p, AuthToken.client_id p.2 = c) l).*1 with
    | [] => None
    | ids => Some ids
    end.
Proof.
  unfold AuthToken.newtokens_of.
  enough (Hgen : ∀ d : gmap nat (list nat),
    foldl (λ d p, <[AuthToken.client_id p.2 :=
                      default [] (d !! AuthToken.client_id p.2) ++ [p.1]]> d) d l !! c
    = match (filter (λ p, AuthToken.client_id p.2 = c) l).*1 with
      | [] => d !! c
      | ids => Some (default [] (d !! c) ++ ids)
      end).
  { rewrite Hgen, lookup_empty. by destruct ((filter _ l).*1). }
  induction l as [|p l IH]; intros d; simpl; [done|].
  rewrite IH, filter_cons. destruct (decide (AuthToken.client_id p.2 = c)) as [<-|Hne].
  - rewrite lookup_insert_eq, fmap_cons. simpl.
    destruct ((filter _ l).*1) as [|k ids]; simpl; [done|].
    by rewrite <- app_assoc.
  - by rewrite lookup_insert_ne.
Qed.

Lemma first_of_user_Some n s l j nt :
  AuthToken.first_of_user n s l = Some (j, nt) →
  j ∈ l ∧ AuthToken.rows s !! j = Some nt ∧ AuthToken.user_id nt = Some n.
Proof.
  unfold AuthToken.first_of_user. intros Hhd%head_Some_elem_of.
  apply list_elem_of_omap in Hhd as (k & Hk & Hf).
  destruct (AuthToken.rows s !! k) as [nt'|] eqn:Hrow; [|done].
  destruct (decide (AuthToken.user_id nt' = Some n)); [|done].
  by simplify_eq.
Qed.

Lemma first_of_user_None n s l j nt :
  AuthToken.first_of_user n s l = None →
  j ∈ l → AuthToken.rows s !! j = Some nt → AuthToken.user_id nt ≠ Some n.
Proof.
  unfold AuthToken.first_of_user. intros Hhd Hj Hrow Hu.
  assert (Hin : (j, nt) ∈ omap (λ i, match AuthToken.rows s !! i with
                       | Some nt => if decide (AuthToken.user_id nt = Some n)
                                    then Some (i, nt) else None
                       | None => None
                       end) l).
  { apply list_elem_of_omap. exists j. split; [done|].
    rewrite Hrow. by rewrite decide_True. }
  destruct (omap _ l); [by apply elem_of_nil in Hin | done].
Qed.

Section migrate_tokens.
Context `{Py.SetIter}.
Variables (s0 : AuthToken.session) (o n : nat).
Hypothesis Hon : o ≠ n.

Let newtokens := AuthToken.newtokens_of (AuthToken.query_filter_by_user n s0).
Let oldtokens := (AuthToken.query_filter_by_user o s0).*1.

(** The lists of [newtokens] are not empty and hold rows of the new
    user for that client. *)
Lemma newtokens_elem c l j :
  newtokens !! c = Some l → j ∈ l →
  ∃ tk, live_token s0 j tk ∧ AuthToken.user_id tk = Some n
        ∧ AuthToken.client_id tk = c.
Proof.
  unfold newtokens. rewrite newtokens_of_lookup. intros Hl Hj.
  assert (Hin : j ∈ (filter (λ p, AuthToken.client_id p.2 = c)
                       (AuthToken.query_filter_by_user n s0)).*1).
  { set (ids := (filter _ _).*1) in *. destruct ids; by simplify_eq. }
  apply list_elem_of_fmap in Hin as ([j' tk] & -> & Hin).
  apply list_elem_of_filter in Hin as [Hc Hin].
  apply query_filter_by_user_elem in Hin as [Hlive Hu]. eauto.
Qed.

Lemma newtokens_not_nil c : newtokens !! c ≠ Some [].
Proof.
  unfold newtokens. rewrite newtokens_of_lookup.
  set (ids := (filter _ _).*1). by destruct ids.
Qed.

Lemma newtokens_Some j tk :
  live_token s0 j tk → AuthToken.user_id tk = Some n →
  ∃ l, newtokens !! AuthToken.client_id tk = Some l ∧ j ∈ l.
Proof.
  intros Hlive Hu. unfold newtokens. rewrite newtokens_of_lookup.
  assert (Hin : j ∈ (filter (λ p, AuthToken.client_id p.2 = AuthToken.client_id tk)
                       (AuthToken.query_filter_by_user n s0)).*1).
  { apply list_elem_of_fmap. exists (j, tk). split; [done|].
    apply list_elem_of_filter. split; [done|].
    by apply query_filter_by_user_elem. }
  set (ids := (filter _ _).*1) in *.
  destruct ids; [by apply elem_of_nil in Hin|]. eauto.
Qed.

(** What holds of the session once the old tokens [pre] have gone
    through the loop. *)
Record migrated (pre : list nat) (s : AuthToken.session) : Prop := {
  migrated_deleted_mono k :
    k ∈ AuthToken.deleted s0 → k ∈ AuthToken.deleted s;
  migrated_deleted k :
    k ∈ AuthToken.deleted s → k ∈ AuthToken.deleted s0 ∨ k ∈ pre;
  migrated_None k :
    AuthToken.rows s0 !! k = None → AuthToken.rows s !! k = None;
  migrated_Some k tk0 :
    AuthToken.rows s0 !! k = Some tk0 →
    ∃ tk, AuthToken.rows s !! k = Some tk
          ∧ AuthToken.client_id tk = AuthToken.client_id tk0
          ∧ (k ∈ pre →
             k ∈ AuthToken.deleted s
             ∨ (AuthToken.user_id tk = Some n
                ∧ newtokens !! AuthToken.client_id tk0 = None))
          ∧ (k ∉ pre → AuthToken.user_id tk0 ≠ Some n → tk = tk0)
          ∧ (AuthToken.user_id tk0 = Some n → AuthToken.user_id tk = Some n)
}.

Lemma migrated_start : migrated [] s0.
Proof.
  split; auto.
  intros k tk0 Hk. exists tk0. repeat split; auto.
  by intros ?%elem_of_nil.
Qed.

Lemma oldtokens_elem i :
  i ∈ oldtokens ↔ ∃ tk, live_token s0 i tk ∧ AuthToken.user_id tk = Some o.
Proof. apply query_filter_by_user_keys. Qed.

Lemma migrated_old_row pre s i tk0 :
  migrated pre s → live_token s0 i tk0 → AuthToken.user_id tk0 = Some o →
  i ∉ pre → AuthToken.rows s !! i = Some tk0.
Proof.
  intros Hm [Hrow _] Hu Hpre.
  destruct (migrated_Some _ _ Hm _ _ Hrow) as (tk & Htk & _ & _ & Hsame & _).
  rewrite Htk, Hsame; [done..|]. rewrite Hu. by intros [=].
Qed.

Lemma migrated_new_row pre s j tk0 :
  migrated pre s → live_token s0 j tk0 → AuthToken.user_id tk0 = Some n →
  ∃ tk, AuthToken.rows s !! j = Some tk ∧ AuthToken.user_id tk = Some n
        ∧ AuthToken.client_id tk = AuthToken.client_id tk0.
Proof.
  intros Hm [Hrow _] Hu.
  destruct (migrated_Some _ _ Hm _ _ Hrow) as (tk & Htk & Hc & _ & _ & Huser).
  eauto.
Qed.

(** One round of the loop keeps the invariant. *)
Lemma migrated_step pre s i :
  migrated pre s → i ∈ oldtokens → i ∉ pre →
  migrated (pre ++ [i]) (AuthToken.migrate_token n newtokens s i).
Proof.
  intros Hm (tk0 & Hlive & Hu)%oldtokens_elem Hpre.
  pose proof (migrated_old_row _ _ _ _ Hm Hlive Hu Hpre) as Hrow.
  unfold AuthToken.migrate_token. rewrite Hrow.
  destruct (newtokens !! AuthToken.client_id tk0) as [l|] eqn:Hd; simpl.
  - destruct (AuthToken.first_of_user n s l) as [[j nt]|] eqn:Hf.
    + apply first_of_user_Some in Hf as (Hj & Hjrow & Hju).
      destruct (newtokens_elem _ _ _ Hd Hj) as (tkj & Hjlive & Hjn & Hjc).
      assert (Hji : j ≠ i).
      { intros ->. destruct Hlive as [Hi _], Hjlive as [Hi' _]. congruence. }
      split; simpl.
      * intros k Hk. apply elem_of_union_r. by apply (migrated_deleted_mono _ _ Hm).
      * intros k [->%elem_of_singleton|Hk]%elem_of_union.
        { right. apply elem_of_app. right. by left. }
        destruct (migrated_deleted _ _ Hm _ Hk); [by left|].
        right. apply elem_of_app. by left.
      * intros k Hk. rewrite lookup_alter. case_decide; subst.
        -- by rewrite (migrated_None _ _ Hm _ Hk).
        -- by apply (migrated_None _ _ Hm).
      * intros k tk0' Hk.
        destruct (migrated_Some _ _ Hm _ _ Hk) as (tk & Htk & Hc & Hin & Hout & Huser).
        rewrite lookup_alter. case_decide as Hjk; subst.
        -- rewrite Htk. simpl. eexists. split; [done|]. simpl.
           repeat split; auto.
           ++ intros [Hkp|Hki%list_elem_of_singleton]%elem_of_app; [|done].
              destruct (Hin Hkp) as [?|[? ?]]; [left|right]; [|done].
              by apply elem_of_union_r.
           ++ intros _ Hne. destruct Hjlive as [Hk' _]. congruence.
        -- exists tk. repeat split; auto.
           ++ intros [Hkp|Hki%list_elem_of_singleton]%elem_of_app.
              ** destruct (Hin Hkp) as [?|[? ?]]; [left|right]; [|done].
                 by apply elem_of_union_r.
              ** left. subst. apply elem_of_union_l. by apply elem_of_singleton.
           ++ intros Hnot. apply Hout. intros ?. apply Hnot, elem_of_app. by left.
    + exfalso. destruct l as [|j l]; [by apply newtokens_not_nil in Hd|].
      destruct (newtokens_elem _ _ j Hd) as (tkj & Hjlive & Hjn & Hjc); [by left|].
      destruct (migrated_new_row _ _ _ _ Hm Hjlive Hjn) as (tk & Htk & Htkn & _).
      by eapply (first_of_user_None n s (j :: l) j tk); [|left|..].
  - split; simpl.
    + apply (migrated_deleted_mono _ _ Hm).
    + intros k Hk. destruct (migrated_deleted _ _ Hm _ Hk); [by left|].
      right. apply elem_of_app. by left.
    + intros k Hk. rewrite lookup_alter. case_decide; subst.
      * by rewrite (migrated_None _ _ Hm _ Hk).
      * by apply (migrated_None _ _ Hm).
    + intros k tk0' Hk.
      destruct (migrated_Some _ _ Hm _ _ Hk) as (tk & Htk & Hc & Hin & Hout & Huser).
      rewrite lookup_alter. case_decide as Hik; subst.
      * rewrite Hrow. simpl. eexists. split; [done|]. simpl.
        destruct Hlive as [Hk' _]. assert (tk0' = tk0) as -> by congruence.
        repeat split; auto.
        intros Hnot. exfalso. apply Hnot, elem_of_app. right. by left.
      * exists tk. repeat split; auto.
        -- intros [Hkp|Hki%list_elem_of_singleton]%elem_of_app; [auto|done].
        -- intros Hnot. apply Hout. intros ?. apply Hnot, elem_of_app. by left.
Qed.

Lemma migrated_foldl todo : ∀ pre s,
  migrated pre s → NoDup (pre ++ todo) → (∀ i, i ∈ todo → i ∈ oldtokens) →
  migrated (pre ++ todo) (foldl (AuthToken.migrate_token n newtokens) s todo).
Proof.
  induction todo as [|i todo IH]; intros pre s Hm Hnd Hold; simpl.
  - by rewrite app_nil_r.
  - replace (pre ++ i :: todo) with ((pre ++ [i]) ++ todo) in *
      by (by rewrite <- app_assoc).
    apply IH; [|done|].
    + apply migrated_step; [done|by apply Hold; left|].
      apply NoDup_app in Hnd as [Hnd _]. apply NoDup_app in Hnd as (_ & Hd & _).
      intros Hi. apply (Hd _ Hi). by left.
    + intros k Hk. apply Hold. by right.
Qed.

Lemma migrated_end :
  migrated oldtokens (AuthToken.migrate_user (Some o) (Some n) s0).
Proof.
  apply (migrated_foldl oldtokens [] s0); [apply migrated_start| |done].
  apply query_filter_by_user_NoDup_keys.
Qed.

(** The two ways a round can go: the token is merged into a token of
    the new user for the same client, or, when there is none, handed
    over to the new user. *)
Lemma migrate_token_cases pre s i tk0 :
  migrated pre s → live_token s0 i tk0 → AuthToken.user_id tk0 = Some o →
  i ∉ pre →
  (∃ l j nt tkj,
      newtokens !! AuthToken.client_id tk0 = Some l ∧ j ∈ l ∧ j ≠ i
      ∧ AuthToken.rows s !! j = Some nt
      ∧ live_token s0 j tkj ∧ AuthToken.user_id tkj = Some n
      ∧ AuthToken.client_id tkj = AuthToken.client_id tk0
      ∧ AuthToken.migrate_token n newtokens s i
        = AuthToken.delete i
            (AuthToken.update j
               (AuthToken.set_scope
                  (Py.union (Py.set (AuthToken.scope nt))
                            (Py.set (AuthToken.scope tk0)))) s))
  ∨ (newtokens !! AuthToken.client_id tk0 = None
     ∧ AuthToken.migrate_token n newtokens s i
       = AuthToken.update i (AuthToken.set_user_id (Some n)) s).
Proof.
  intros Hm Hlive Hu Hpre.
  pose proof (migrated_old_row _ _ _ _ Hm Hlive Hu Hpre) as Hrow.
  unfold AuthToken.migrate_token. rewrite Hrow.
  destruct (newtokens !! AuthToken.client_id tk0) as [l|] eqn:Hd; simpl;
    [|by right].
  destruct (AuthToken.first_of_user n s l) as [[j nt]|] eqn:Hf.
  - left. apply first_of_user_Some in Hf as (Hj & Hjrow & Hju).
    destruct (newtokens_elem _ _ _ Hd Hj) as (tkj & Hjlive & Hjn & Hjc).
    exists l, j, nt, tkj. repeat split; try done.
    + intros ->. destruct Hlive as [Hi _], Hjlive as [Hi' _]. congruence.
    + apply Hjlive.
    + apply Hjlive.
  - exfalso. destruct l as [|j l]; [by apply newtokens_not_nil in Hd|].
    destruct (newtokens_elem _ _ j Hd) as (tkj & Hjlive & Hjn & Hjc); [by left|].
    destruct (migrated_new_row _ _ _ _ Hm Hjlive Hjn) as (tk & Htk & Htkn & _).
    by eapply (first_of_user_None n s (j :: l) j tk); [|left|..].
Qed.

Section one_client.
Variables (C io jn : nat) (old new : AuthToken.t).
Hypothesis Hunique : unique_user_client s0.
Hypothesis Hold : live_token s0 io old.
Hypothesis Hold_user : AuthToken.user_id old = Some o.
Hypothesis Hold_client : AuthToken.client_id old = C.
Hypothesis Hnew : live_token s0 jn new.
Hypothesis Hnew_user : AuthToken.user_id new = Some n.
Hypothesis Hnew_client : AuthToken.client_id new = C.

Lemma merged_token_eq :
  AuthToken.set_scope (Py.union (Py.set (AuthToken.scope new))
                                (Py.set (AuthToken.scope old))) new
  = merged_token old new.
Proof.
  unfold merged_token, AuthToken.set_scope. by rewrite sorted_union.
Qed.

Record merged_into (pre : list nat) (s : AuthToken.session) : Prop := {
  merged_row :
    AuthToken.rows s !! jn
    = Some (if decide (io ∈ pre) then merged_token old new else new);
  merged_deleted : io ∈ pre → io ∈ AuthToken.deleted s
}.

Lemma merged_into_start : merged_into [] s0.
Proof.
  split.
  - rewrite decide_False by (by intros ?%elem_of_nil). apply Hnew.
  - by intros ?%elem_of_nil.
Qed.

Lemma merged_into_step pre s i :
  migrated pre s → merged_into pre s → i ∈ oldtokens → i ∉ pre →
  merged_into (pre ++ [i]) (AuthToken.migrate_token n newtokens s i).
Proof.
  intros Hm [Hrow Hdel] (tk0 & Hlive & Hu)%oldtokens_elem Hpre.
  assert (Hjn : jn ≠ i).
  { intros ->. destruct Hlive as [Hi _], Hnew as [Hi' _]. congruence. }
  assert (Hio : AuthToken.client_id tk0 = C → i = io ∧ tk0 = old).
  { intros Hc. assert (i = io) as ->.
    { eapply Hunique; eauto. congruence. }
    split; [done|]. destruct Hlive as [Hi _], Hold as [Hi' _]. congruence. }
  assert (Hmem : io ∈ pre ++ [i] ↔ io ∈ pre ∨ io = i).
  { by rewrite elem_of_app, list_elem_of_singleton. }
  destruct (migrate_token_cases _ _ _ _ Hm Hlive Hu Hpre)
    as [(l & j & nt & tkj & Hd & Hj & Hji & Hjrow & Hjlive & Hjn' & Hjc & ->)
       |[Hd ->]].
  - destruct (decide (AuthToken.client_id tk0 = C)) as [Hc|Hc].
    + destruct (Hio Hc) as [-> ->].
      assert (j = jn) as ->.
      { eapply Hunique; eauto. congruence. }
      rewrite decide_False in Hrow by done.
      assert (nt = new) as -> by congruence.
      split; simpl.
      * rewrite lookup_alter_eq, Hjrow. simpl.
        rewrite decide_True by (apply Hmem; by right).
        by rewrite merged_token_eq.
      * intros _. apply elem_of_union_l. by apply elem_of_singleton.
    + assert (j ≠ jn).
      { intros ->. destruct Hjlive as [Hj' _], Hnew as [Hn' _].
        apply Hc. congruence. }
      assert (i ≠ io).
      { intros ->. destruct Hlive as [Hi _], Hold as [Hi' _].
        apply Hc. congruence. }
      split; simpl.
      * rewrite lookup_alter_ne by done. rewrite Hrow. f_equal.
        destruct (decide (io ∈ pre));
          [rewrite decide_True|rewrite decide_False]; try done;
          rewrite Hmem; intuition congruence.
      * intros [?|?]%Hmem; [|done]. apply elem_of_union_r. auto.
  - assert (i ≠ io).
    { intros ->. destruct Hlive as [Hi _], Hold as [Hi' _].
      assert (tk0 = old) as -> by congruence.
      destruct (newtokens_Some _ _ Hnew Hnew_user) as (l & Hl & _).
      congruence. }
    split; simpl.
    + rewrite lookup_alter_ne by done. rewrite Hrow. f_equal.
      destruct (decide (io ∈ pre));
        [rewrite decide_True|rewrite decide_False]; try done;
        rewrite Hmem; intuition congruence.
    + intros [?|?]%Hmem; [|done]. auto.
Qed.

Lemma merged_into_foldl todo : ∀ pre s,
  migrated pre s → merged_into pre s → NoDup (pre ++ todo) →
  (∀ i, i ∈ todo → i ∈ oldtokens) →
  merged_into (pre ++ todo)
    (foldl (AuthToken.migrate_token n newtokens) s todo).
Proof.
  induction todo as [|i todo IH]; intros pre s Hm Hj Hnd Hin; simpl.
  - by rewrite app_nil_r.
  - replace (pre ++ i :: todo) with ((pre ++ [i]) ++ todo) in *
      by (by rewrite <- app_assoc).
    assert (Hi : i ∉ pre).
    { apply NoDup_app in Hnd as [Hnd _]. apply NoDup_app in Hnd as (_ & Hd & _).
      intros Hi. apply (Hd _ Hi). by left. }
    apply IH; [| |done|].
    + apply migrated_step; [done|by apply Hin; left|done].
    + apply merged_into_step; [done|done|by apply Hin; left|done].
    + intros k Hk. apply Hin. by right.
Qed.

Lemma merged_into_end :
  merged_into oldtokens (AuthToken.migrate_user (Some o) (Some n) s0).
Proof.
  apply (merged_into_foldl oldtokens [] s0);
    [apply migrated_start|apply merged_into_start| |done].
  apply query_filter_by_user_NoDup_keys.
Qed.
End one_client.
End migrate_tokens.

Lemma singleton_list {A} (l : list A) (a : A) :
  NoDup l → (∀ x, x ∈ l ↔ x = a) → l = [a].
Proof.
  intros Hnd Hl. destruct l as [|x l].
  - assert (Ha : a ∈ []) by (by apply Hl). by apply elem_of_nil in Ha.
  - assert (x = a) as -> by (apply Hl; by left).
    f_equal. apply elem_of_nil_inv. intros y Hy.
    apply NoDup_cons in Hnd as [Hnot _].
    assert (y = a) as -> by (apply Hl; by right). done.
Qed.

Lemma tokens_of_user_client_elem u c s i tk :
  (i, tk) ∈ tokens_of_user_client u c s
  ↔ live_token s i tk ∧ AuthToken.user_id tk = Some u
    ∧ AuthToken.client_id tk = c.
Proof.
  unfold tokens_of_user_client.
  rewrite list_elem_of_filter, query_filter_by_user_elem. simpl. tauto.
Qed.

(** Reading back the scope a token was given: the tokens of the value,
    sorted, when none of them holds a space. *)
Lemma scope_set_scope value tk :
  value ≠ [] → Forall (λ w, ¬ contains " " w) value →
  AuthToken.scope (AuthToken.set_scope value tk) = Py.sorted value.
Proof.
  intros Hv Hall. unfold AuthToken.scope. simpl.
  apply (split_join " "%char).
  - by apply sorted_not_nil.
  - by rewrite sorted_Permutation.
Qed.

(** C1: let the old and the new user be different, and each hold a token
    for the client [C], no user holding two tokens for one client. After
    [AuthToken.migrate_user] the new user holds one token for [C], the
    row it held before, whose scope is the union of the two scopes,
    stored sorted; the old user holds no token, for [C] or any client;
    migrating again changes nothing; rows without a user are as they
    were, and so is the session when a user is [None]. *)
Theorem C1_migrate_user_merges_tokens `{Py.SetIter} (s : AuthToken.session)
    (o n C io jn : nat) (old new : AuthToken.t) :
  o ≠ n →
  unique_user_client s →
  live_token s io old →
  AuthToken.user_id old = Some o → AuthToken.client_id old = C →
  live_token s jn new →
  AuthToken.user_id new = Some n → AuthToken.client_id new = C →
  let s' := AuthToken.migrate_user (Some o) (Some n) s in
  let merged := merged_token old new in
  tokens_of_user_client n C s' = [(jn, merged)]
  ∧ AuthToken._scope merged
    = Py.join " " (Py.sorted (remove_dups (AuthToken.scope new
                                           ++ AuthToken.scope old)))
  ∧ (∀ x, x ∈ AuthToken.scope merged
          ↔ x ∈ AuthToken.scope new ∨ x ∈ AuthToken.scope old)
  ∧ tokens_of_user_client o C s' = []
  ∧ AuthToken.query_filter_by_user o s' = []
  ∧ AuthToken.migrate_user (Some o) (Some n) s' = s'
  ∧ (∀ i tk, AuthToken.rows s !! i = Some tk → AuthToken.user_id tk = None →
       AuthToken.rows s' !! i = Some tk
       ∧ (i ∈ AuthToken.deleted s' ↔ i ∈ AuthToken.deleted s))
  ∧ (∀ u, AuthToken.migrate_user None u s = s
          ∧ AuthToken.migrate_user u None s = s).
Proof.
  intros Hon Hunique Hold Hold_user Hold_client Hnew Hnew_user Hnew_client s' merged.
  pose proof (migrated_end s o n Hon) as Hm. fold s' in Hm.
  pose proof (merged_into_end s o n Hon C io jn old new Hunique Hold Hold_user
                Hold_client Hnew Hnew_user Hnew_client) as Hj.
  fold s' in Hj. set (oldtokens := (AuthToken.query_filter_by_user o s).*1) in *.
  assert (Hio : io ∈ oldtokens) by (apply query_filter_by_user_keys; eauto).
  assert (Hold_keys : ∀ i tk, i ∈ oldtokens → AuthToken.rows s !! i = Some tk →
                        AuthToken.user_id tk = Some o ∧ i ∉ AuthToken.deleted s).
  { intros i tk (tk' & [Hrow Hdel] & Hu)%query_filter_by_user_keys Htk.
    split; [congruence|done]. }
  assert (Hmerged : AuthToken.rows s' !! jn = Some merged).
  { rewrite (merged_row _ _ _ _ _ _ Hj). by rewrite decide_True. }
  assert (Hgone : AuthToken.query_filter_by_user o s' = []).
  { apply elem_of_nil_inv. intros [i tk] [[Hrow Hdel] Hu]%query_filter_by_user_elem.
    destruct (AuthToken.rows s !! i) as [tk0|] eqn:Hrow0.
    - destruct (migrated_Some _ _ _ _ Hm _ _ Hrow0)
        as (tk' & Htk' & Hc & Hin & Hout & Huser).
      assert (tk' = tk) as -> by congruence.
      destruct (decide (i ∈ oldtokens)) as [Hi|Hi].
      + destruct (Hin Hi) as [?|[Hn _]]; [done|]. congruence.
      + destruct (decide (AuthToken.user_id tk0 = Some n)) as [Hn|Hn].
        * apply Huser in Hn. congruence.
        * apply Hout in Hn as ->; [|done]. apply Hi.
          apply query_filter_by_user_keys. exists tk0. repeat split; [done| |done].
          intros Hd. by apply Hdel, (migrated_deleted_mono _ _ _ _ Hm).
    - rewrite (migrated_None _ _ _ _ Hm _ Hrow0) in Hrow. done. }
  split; [|split; [|split; [|split; [|split; [|split; [|split]]]]]].
  - apply singleton_list.
    { apply NoDup_filter, query_filter_by_user_NoDup. }
    intros [i tk]. rewrite tokens_of_user_client_elem. split.
    + intros ([Hrow Hdel] & Hu & Hc).
      destruct (AuthToken.rows s !! i) as [tk0|] eqn:Hrow0.
      * destruct (migrated_Some _ _ _ _ Hm _ _ Hrow0)
          as (tk' & Htk' & Hc' & Hin & Hout & Huser).
        assert (tk' = tk) as -> by congruence.
        destruct (decide (i ∈ oldtokens)) as [Hi|Hi].
        -- destruct (Hin Hi) as [?|[_ Hnone]]; [done|]. exfalso.
           destruct (newtokens_Some s n jn new Hnew Hnew_user) as (l & Hl & _).
           congruence.
        -- destruct (decide (AuthToken.user_id tk0 = Some n)) as [Hn|Hn].
           ++ assert (i = jn) as ->.
              { apply (Hunique i jn tk0 new n); try done; [|congruence].
                split; [done|]. intros Hd.
                by apply Hdel, (migrated_deleted_mono _ _ _ _ Hm). }
              congruence.
           ++ rewrite (Hout Hi Hn) in Hu. congruence.
      * rewrite (migrated_None _ _ _ _ Hm _ Hrow0) in Hrow. done.
    + intros [= -> ->]. repeat split; [done| |done|done].
      intros [Hd|Hd]%(migrated_deleted _ _ _ _ Hm).
      * by destruct Hnew.
      * destruct Hnew as [Hrow _].
        destruct (Hold_keys _ _ Hd Hrow) as [Hu _]. congruence.
  - done.
  - intros x. unfold merged, merged_token. rewrite scope_set_scope.
    + by rewrite sorted_Permutation, elem_of_remove_dups, elem_of_app.
    + intros Hnil. apply (split_not_nil " "%char (AuthToken._scope new)).
      apply (f_equal length) in Hnil. apply nil_length_inv.
      assert (Hx : ∀ x, x ∈ AuthToken.scope new → False).
      { intros y Hy.
        assert (Hy' : y ∈ remove_dups (AuthToken.scope new ++ AuthToken.scope old))
          by (rewrite elem_of_remove_dups, elem_of_app; by left).
        destruct (remove_dups _); [by apply elem_of_nil in Hy'|done]. }
      unfold AuthToken.scope in Hx.
      destruct (Py.split " " (AuthToken._scope new)) as [|y ?]; [done|].
      destruct (Hx y). by left.
    + apply Forall_forall. intros x'.
      rewrite elem_of_remove_dups, elem_of_app.
      intros [Hx|Hx]; revert x' Hx; apply Forall_forall, split_no_sep.
  - unfold tokens_of_user_client. by rewrite Hgone.
  - done.
  - unfold AuthToken.migrate_user. fold s'. by rewrite Hgone.
  - intros i tk Hrow Hu.
    destruct (migrated_Some _ _ _ _ Hm _ _ Hrow)
      as (tk' & Htk' & Hc & Hin & Hout & Huser).
    assert (Hi : i ∉ oldtokens).
    { intros Hi. destruct (Hold_keys _ _ Hi Hrow). congruence. }
    rewrite Htk', Hout; [|done|congruence]. split; [done|]. split.
    + intros [Hd|Hd]%(migrated_deleted _ _ _ _ Hm); done.
    + apply (migrated_deleted_mono _ _ _ _ Hm).
  - intros u. split; [done|]. by destruct u.
Qed.

Lemma example_session_lookup i tk :
  AuthToken.rows example_session !! i = Some tk →
  (i = 1 ∧ tk = example_token (Some 1) "profile/read")
  ∨ (i = 2 ∧ tk = example_token (Some 2) "email/read")
  ∨ (i = 3 ∧ tk = example_token None "profile/read").
Proof.
  unfold example_session. simpl.
  rewrite !lookup_insert_Some, lookup_singleton_Some. intuition.
Defined.

Lemma example_session_unique : unique_user_client example_session.
Proof.
  intros i j ti tj u [Hi _] [Hj _] Hui Huj Hc.
  apply example_session_lookup in Hi as [[-> ->]|[[-> ->]|[-> ->]]];
    apply example_session_lookup in Hj as [[-> ->]|[[-> ->]|[-> ->]]];
    simpl in *; congruence.
Defined.

(** C1 on the example session: user 1 is merged into user 2, both holding
    a token for client 7. *)
Lemma C1_migrate_user_merges_tokens_witness :
  let old := example_token (Some 1) "profile/read" in
  let new := example_token (Some 2) "email/read" in
  let s' := AuthToken.migrate_user (Some 1) (Some 2) example_session in
  tokens_of_user_client 2 7 s' = [(2, merged_token old new)]
  ∧ AuthToken._scope (merged_token old new)
    = Py.join " " (Py.sorted (remove_dups (AuthToken.scope new
                                           ++ AuthToken.scope old)))
  ∧ tokens_of_user_client 1 7 s' = []
  ∧ AuthToken.migrate_user (Some 1) (Some 2) s' = s'.
Proof.
  intros old new s'.
  assert (Hlive : ∀ i tk, AuthToken.rows example_session !! i = Some tk →
                    live_token example_session i tk).
  { intros i tk Hrow. split; [done|]. simpl. apply not_elem_of_empty. }
  destruct (C1_migrate_user_merges_tokens (H := slot_iter)
              example_session 1 2 7 1 2 old new)
    as (H1 & H2 & _ & H4 & _ & H6 & _).
  - lia.
  - apply example_session_unique.
  - by apply Hlive.
  - reflexivity.
  - reflexivity.
  - by apply Hlive.
  - reflexivity.
  - reflexivity.
  - by repeat split.
Defined.

(** On that session the merged scope is stored as the two tokens in
    sorted order. *)
Example example_session_migrated :
  let s' := AuthToken.migrate_user (Some 1) (Some 2) example_session in
  AuthToken._scope <$> AuthToken.rows s' !! 2 = Some "email/read profile/read"
  ∧ AuthToken.deleted s' = {[1]}
  ∧ AuthToken.rows s' !! 3 = AuthToken.rows example_session !! 3.
Proof. by vm_compute. Qed.

(** ** Moving the permissions of a user to another user *)

(** Loops with the same body give the same result. *)
Lemma for_in_ext {S} (coll : S → list nat) (body1 body2 : nat → S → option S) :
  (∀ x st, body1 x st = body2 x st) →
  ∀ fuel i st, for_in fuel i coll body1 st = for_in fuel i coll body2 st.
Proof.
  intros Hext. induction fuel as [|fuel IH]; intros i st; simpl; [done|].
  destruct (coll st !! i) as [x|]; [|done].
  rewrite Hext. destruct (body2 x st) as [st'|]; simpl; [apply IH|done].
Qed.

(** A loop whose body ends and never makes the list longer ends when
    given one round more than the list has elements. *)
Lemma for_in_total {S} (coll : S → list nat) (body : nat → S → option S)
    (inv : S → Prop) :
  (∀ x st, inv st → ∃ st', body x st = Some st' ∧ inv st'
                           ∧ length (coll st') ≤ length (coll st)) →
  ∀ fuel i st, inv st → length (coll st) - i < fuel →
    ∃ st', for_in fuel i coll body st = Some st' ∧ inv st'.
Proof.
  intros Hbody. induction fuel as [|fuel IH]; intros i st Hinv Hlen; [lia|].
  simpl. destruct (coll st !! i) as [x|] eqn:Hx; [|eauto].
  apply lookup_lt_Some in Hx.
  destruct (Hbody x st Hinv) as (st' & -> & Hinv' & Hle). simpl.
  apply IH; [done|lia].
Qed.

Section permissions_facts.
Context `{Py.SetIter}.

(** No token cut out of a string is the single space, so the test
    [u' ' in tokens] never holds: the merged string is the sorted union
    of the two lists of tokens, with an empty token when one of the
    strings has one. *)
Lemma merge_permissions_eq operm nperm :
  UserClientPermissions.merge_permissions operm nperm
  = Py.join " " (Py.sorted (remove_dups
      (Py.split " " (UserClientPermissions.access_permissions operm)
       ++ Py.split " " (UserClientPermissions.access_permissions nperm)))).
Proof.
  unfold UserClientPermissions.merge_permissions.
  set (a := Py.split " " (UserClientPermissions.access_permissions operm)).
  set (b := Py.split " " (UserClientPermissions.access_permissions nperm)).
  assert (Hperm : Py.union (Py.set a) (Py.set b) ≡ₚ remove_dups (a ++ b)).
  { unfold Py.union at 1. rewrite set_iter_Permutation.
    apply NoDup_Permutation; try apply NoDup_remove_dups.
    intros x. rewrite !elem_of_remove_dups, !elem_of_app.
    unfold Py.set. by rewrite !Py.set_iter_elem. }
  rewrite decide_False.
  - f_equal. by apply sorted_proper.
  - rewrite Hperm, elem_of_remove_dups, elem_of_app.
    assert (Hno : ∀ s, " " ∉ Py.split " " s).
    { intros s Hin. pose proof (split_no_sep " "%char s) as Hall.
      rewrite Forall_forall in Hall. apply (Hall _ Hin). simpl. by left. }
    intros [Hin|Hin]; by apply Hno in Hin.
Qed.
End permissions_facts.

(** The migration gives the same session however sets are iterated. *)
Lemma migrate_user_set_iter (H1 H2 : Py.SetIter) olduser newuser s :
  @UserClientPermissions.migrate_user H1 olduser newuser s
  = @UserClientPermissions.migrate_user H2 olduser newuser s.
Proof.
  unfold UserClientPermissions.migrate_user. apply for_in_ext.
  intros i st. unfold UserClientPermissions.migrate_permission.
  f_equal. apply for_in_ext. intros j [st' b].
  unfold UserClientPermissions.merge_into.
  destruct (UserClientPermissions.rows st' !! i) as [operm|]; [|done].
  destruct (UserClientPermissions.rows st' !! j) as [nperm|]; [|done].
  by rewrite (@merge_permissions_eq H1), (@merge_permissions_eq H2).
Qed.

Section permissions_returns.
Context `{Py.SetIter}.
Import UserClientPermissions.

Lemma collection_load_ne u v s : u ≠ v → collection u (load v s) = collection u s.
Proof.
  intros Hne. unfold load, collection.
  destruct (client_permissions s !! v); [done|]. simpl.
  by rewrite lookup_insert_ne.
Qed.

Lemma collection_set_user_le u i n s :
  u ≠ n → length (collection u (set_user i n s)) ≤ length (collection u s).
Proof.
  intros Hne. unfold set_user, collection.
  destruct (rows s !! i) as [p|]; [|done].
  case_decide; [done|]. simpl.
  rewrite lookup_alter_ne by done. rewrite lookup_alter.
  case_decide as Hu; [rewrite <- Hu|done].
  destruct (client_permissions s !! user_id p) as [l|]; simpl; [|done].
  apply length_filter.
Qed.

(** The loop over the permissions of the new user ends, and leaves the
    collections as they are. *)
Lemma merge_into_loop_returns newuser i s b :
  ∃ s' b',
    for_in (S (length (collection newuser s))) 0
           (λ st : session * bool, collection newuser st.1)
           (merge_into i) (s, b) = Some (s', b')
    ∧ client_permissions s' = client_permissions s.
Proof.
  destruct (for_in_total (λ st : session * bool, collection newuser st.1)
              (merge_into i)
              (λ st, client_permissions st.1 = client_permissions s))
    with (fuel := S (length (collection newuser s))) (i := 0) (st := (s, b))
    as ([s' b'] & Hfor & Hcp); [|done|simpl; lia|by eauto].
  intros j [st mp] Hst. simpl in Hst. unfold merge_into.
  destruct (rows st !! i) as [operm|]; [|by eauto].
  destruct (rows st !! j) as [nperm|]; [|by eauto].
  case_decide; [|by eauto].
  eexists. split; [done|]. simpl. split; [done|].
  unfold collection. simpl. done.
Qed.

Lemma migrate_permission_returns olduser newuser i s :
  olduser ≠ newuser →
  ∃ s', migrate_permission newuser i s = Some s'
        ∧ length (collection olduser s') ≤ length (collection olduser s).
Proof.
  intros Hne. unfold migrate_permission.
  destruct (merge_into_loop_returns newuser i (load newuser s) false)
    as (s' & b' & -> & Hcp). simpl.
  eexists. split; [done|].
  assert (Hsame : collection olduser s' = collection olduser s).
  { rewrite <- (collection_load_ne olduser newuser s) by done.
    unfold collection. by rewrite Hcp. }
  destruct b'; [by rewrite Hsame|].
  rewrite <- Hsame. by apply collection_set_user_le.
Qed.

(** The migration returns, for two different users at least. *)
Lemma migrate_user_returns olduser newuser s :
  olduser ≠ newuser → is_Some (migrate_user olduser newuser s).
Proof.
  intros Hne. unfold migrate_user.
  destruct (for_in_total (collection olduser) (migrate_permission newuser)
              (λ _, True))
    with (fuel := S (length (collection olduser (load olduser s))))
         (i := 0) (st := load olduser s)
    as (s' & -> & _); [|done|lia|done].
  intros i st _.
  destruct (migrate_permission_returns olduser newuser i st Hne)
    as (st' & ? & ?). eauto.
Qed.
End permissions_returns.

(** C5 fails on the code where one of the two strings is empty: the
    migration tests for a token that is a single space, which no token
    is, and so the empty token stays in the merged string, which comes
    out as [ a] where the union without the empty token is [a]. The row
    of the old user is deleted, as C5 says. *)
Theorem C5_migrate_user_keeps_empty_token `{Py.SetIter} :
  ∃ s', UserClientPermissions.migrate_user 1 2 example_permissions = Some s'
        ∧ UserClientPermissions.rows s' !! 2
          = Some (UserClientPermissions.mk 2 7 " a")
        ∧ UserClientPermissions.deleted s' = {[1]}
        ∧ Py.split " " " a" = [""; "a"]
        ∧ union_without_empty "" "a" = "a".
Proof.
  rewrite (migrate_user_set_iter _ slot_iter).
  eexists. split; [by vm_compute|]. by vm_compute.
Qed.

(** Handing a row over to the new user takes it out of the list the loop
    is walking, and the loop passes over the row that follows: of two
    rows to hand over, one stays with the old user after the first
    migration, and a second migration moves it. *)
Example migrate_user_passes_over_a_row `{Py.SetIter} :
  ∃ s1 s2,
    UserClientPermissions.migrate_user 1 2 example_permissions_two = Some s1
    ∧ (∃ i p, UserClientPermissions.rows s1 !! i = Some p
              ∧ UserClientPermissions.user_id p = 1
              ∧ i ∉ UserClientPermissions.deleted s1)
    ∧ UserClientPermissions.migrate_user 1 2 s1 = Some s2
    ∧ map_Forall (λ _ p, UserClientPermissions.user_id p = 2)
                 (UserClientPermissions.rows s2).
Proof.
  rewrite (migrate_user_set_iter _ slot_iter).
  eexists _, _. split; [by vm_compute|]. split.
  { exists 2. eexists. by vm_compute. }
  rewrite (migrate_user_set_iter _ slot_iter). split; [by vm_compute|].
  apply (bool_decide_unpack _). by vm_compute.
Qed.

(** * Further properties of the scope of a code or token *)

(** Cutting a string in which two pieces are joined by the separator
    gives the pieces of the first followed by the pieces of the second. *)
Lemma split_app (sep : ascii) (w s : string) :
  Py.split sep (w +:+ String sep s) = Py.split sep w ++ Py.split sep s.
Proof.
  induction w as [|a w IH].
  - change ("" +:+ String sep s) with (String sep s). simpl.
    by rewrite Ascii.eqb_refl.
  - change (String a w +:+ String sep s) with (String a (w +:+ String sep s)).
    simpl. rewrite IH. destruct (Ascii.eqb a sep); [done|].
    pose proof (split_not_nil sep w).
    by destruct (Py.split sep w).
Qed.

(** Joining and cutting again cuts every element of the list. *)
Lemma split_join_bind (sep : ascii) (l : list string) :
  l ≠ [] → Py.split sep (Py.join (String sep "") l) = l ≫= Py.split sep.
Proof.
  unfold Py.join. intros Hl. induction l as [|w l IH]; [done|].
  destruct l as [|w' l].
  - simpl. by rewrite app_nil_r.
  - change (String.concat (String sep "") (w :: w' :: l))
      with (w +:+ String sep (String.concat (String sep "") (w' :: l))).
    rewrite split_app, IH by done. done.
Qed.

Lemma elem_of_split_join (sep : ascii) (l : list string) (x : string) :
  l ≠ [] →
  x ∈ Py.split sep (Py.join (String sep "") l)
  ↔ ∃ t, t ∈ l ∧ x ∈ Py.split sep t.
Proof.
  intros Hl. rewrite split_join_bind by done.
  rewrite list_elem_of_bind. split; intros (t & ? & ?); eauto.
Qed.

Lemma elem_of_split_no_sep (sep : ascii) (s x : string) :
  x ∈ Py.split sep s → Py.split sep x = [x].
Proof.
  intros Hx. apply split_word.
  pose proof (split_no_sep sep s) as Hall. rewrite Forall_forall in Hall. auto.
Qed.

Section add_scope_facts.
Context `{Py.SetIter}.

Lemma elem_of_split_union_join (scope additional : list string) (x : string) :
  scope ≠ [] → Forall (λ w, Py.split " " w = [w]) scope →
  ∀ l, l ≡ₚ Py.union (Py.set scope) (Py.set additional) →
  x ∈ Py.split " " (Py.join " " l)
  ↔ x ∈ scope ∨ ∃ t, t ∈ additional ∧ x ∈ Py.split " " t.
Proof.
  intros Hne Hscope l Hl. rewrite Forall_forall in Hscope.
  rewrite (elem_of_split_join " "%char).
  - split.
    + intros (t & Ht & Hx). rewrite Hl, union_elem in Ht.
      destruct Ht as [Ht|Ht]; [|eauto].
      left. rewrite (Hscope _ Ht) in Hx. by apply list_elem_of_singleton in Hx as ->.
    + intros [Hx|(t & Ht & Hx)].
      * exists x. split; [rewrite Hl, union_elem; by left|].
        rewrite (Hscope _ Hx). by left.
      * exists t. split; [rewrite Hl, union_elem; by right|done].
  - intros ->. apply Permutation_nil_l in Hl. symmetry in Hl.
    by apply union_not_nil in Hl.
Qed.
End add_scope_facts.

Section add_scope_algebra.
Context `{Py.SetIter}.

Lemma token_add_scope_stored (additional : scope_arg) (tk : AuthToken.t) :
  AuthToken._scope (AuthToken.add_scope additional tk)
  = Py.join " " (Py.sorted (remove_dups
      (AuthToken.scope tk ++ scope_arg_list additional))).
Proof.
  unfold AuthToken.add_scope, AuthToken.set_scope. simpl.
  by rewrite sorted_union.
Qed.

Lemma token_add_scope_scope (additional : scope_arg) (tk : AuthToken.t) :
  Forall (λ w, ¬ contains " " w) (scope_arg_list additional) →
  AuthToken.scope (AuthToken.add_scope additional tk)
  = Py.sorted (remove_dups (AuthToken.scope tk ++ scope_arg_list additional)).
Proof.
  intros Harg. unfold AuthToken.scope at 1. rewrite token_add_scope_stored.
  apply (split_join " "%char).
  - apply sorted_not_nil. intros Hnil.
    pose proof (split_not_nil " "%char (AuthToken._scope tk)) as Hne.
    unfold AuthToken.scope in Hnil.
    destruct (Py.split " " (AuthToken._scope tk)) as [|y l]; [done|].
    assert (Hy : y ∈ remove_dups ((y :: l) ++ scope_arg_list additional)).
    { apply elem_of_remove_dups. by left. }
    rewrite Hnil in Hy. by apply elem_of_nil in Hy.
  - rewrite sorted_Permutation. apply Forall_forall. intros x.
    rewrite elem_of_remove_dups, elem_of_app.
    intros [Hx|Hx]; revert x Hx; apply Forall_forall; [apply split_no_sep|done].
Qed.

Lemma sorted_remove_dups_proper (l1 l2 : list string) :
  (∀ x, x ∈ l1 ↔ x ∈ l2) →
  Py.sorted (remove_dups l1) = Py.sorted (remove_dups l2).
Proof.
  intros Hl. apply sorted_proper, NoDup_Permutation; try apply NoDup_remove_dups.
  intros x. by rewrite !elem_of_remove_dups.
Qed.
End add_scope_algebra.

(** X1: after [add_scope] the scope of a code or of a token holds every
    token it held before, and beside them the pieces of the tokens added
    (a token added without a space is its own piece): nothing is lost and
    nothing else comes in. *)
Theorem add_scope_keeps_tokens `{Py.SetIter} (c : AuthCode.t) (tk : AuthToken.t)
    (additional : scope_arg) (x : string) :
  (x ∈ AuthCode.scope (AuthCode.add_scope additional c)
   ↔ x ∈ AuthCode.scope c
     ∨ ∃ t, t ∈ scope_arg_list additional ∧ x ∈ Py.split " " t)
  ∧ (x ∈ AuthToken.scope (AuthToken.add_scope additional tk)
     ↔ x ∈ AuthToken.scope tk
       ∨ ∃ t, t ∈ scope_arg_list additional ∧ x ∈ Py.split " " t).
Proof.
  assert (Hpieces : ∀ s, Forall (λ w, Py.split " " w = [w]) (Py.split " " s)).
  { intros s. apply Forall_forall. intros w Hw.
    by apply (elem_of_split_no_sep " "%char s). }
  split.
  - unfold AuthCode.add_scope, AuthCode.scope at 1. simpl.
    apply elem_of_split_union_join; [apply split_not_nil|apply Hpieces|done].
  - unfold AuthToken.add_scope, AuthToken.scope at 1. simpl.
    apply elem_of_split_union_join; [apply split_not_nil|apply Hpieces|].
    apply sorted_Permutation.
Qed.

(** X2: adding to a token tokens it was already given changes nothing:
    with tokens free of spaces, [add_scope] done twice stores the string
    that [add_scope] done once stores. *)
Theorem token_add_scope_idempotent `{Py.SetIter} (tk : AuthToken.t)
    (additional : scope_arg) :
  Forall (λ w, ¬ contains " " w) (scope_arg_list additional) →
  AuthToken.add_scope additional (AuthToken.add_scope additional tk)
  = AuthToken.add_scope additional tk.
Proof.
  intros Harg.
  assert (Hs : AuthToken._scope
                 (AuthToken.add_scope additional (AuthToken.add_scope additional tk))
               = AuthToken._scope (AuthToken.add_scope additional tk)).
  { rewrite (token_add_scope_stored additional (AuthToken.add_scope _ _)).
    rewrite token_add_scope_scope by done. rewrite token_add_scope_stored.
    f_equal. apply sorted_remove_dups_proper. intros x.
    rewrite !elem_of_app, sorted_Permutation, elem_of_remove_dups, elem_of_app.
    tauto. }
  revert Hs. unfold AuthToken.add_scope, AuthToken.set_scope, AuthToken.set__scope.
  simpl. by intros ->.
Qed.

Lemma token_add_scope_idempotent_witness :
  AuthToken.add_scope (H := slot_iter) (Tokens ["email"; "profile"])
    (AuthToken.add_scope (H := slot_iter) (Tokens ["email"; "profile"])
       (example_token (Some 1) "profile"))
  = AuthToken.add_scope (H := slot_iter) (Tokens ["email"; "profile"])
      (example_token (Some 1) "profile").
Proof.
  apply (token_add_scope_idempotent (H := slot_iter)).
  repeat constructor; simpl; intros Hc; decompose [or] Hc; done.
Defined.

(** X3: the order in which tokens are added to a token does not show:
    with tokens free of spaces, adding [a] and then [b] stores the string
    that adding [b] and then [a] stores. *)
Theorem token_add_scope_commutative `{Py.SetIter} (tk : AuthToken.t)
    (a b : scope_arg) :
  Forall (λ w, ¬ contains " " w) (scope_arg_list a) →
  Forall (λ w, ¬ contains " " w) (scope_arg_list b) →
  AuthToken.add_scope b (AuthToken.add_scope a tk)
  = AuthToken.add_scope a (AuthToken.add_scope b tk).
Proof.
  intros Ha Hb.
  assert (Hs : AuthToken._scope (AuthToken.add_scope b (AuthToken.add_scope a tk))
               = AuthToken._scope (AuthToken.add_scope a (AuthToken.add_scope b tk))).
  { rewrite (token_add_scope_stored b (AuthToken.add_scope _ _)).
    rewrite (token_add_scope_stored a (AuthToken.add_scope _ _)).
    rewrite !token_add_scope_scope by done.
    f_equal. apply sorted_remove_dups_proper. intros x.
    rewrite !elem_of_app, !sorted_Permutation, !elem_of_remove_dups, !elem_of_app.
    tauto. }
  revert Hs. unfold AuthToken.add_scope, AuthToken.set_scope, AuthToken.set__scope.
  simpl. by intros ->.
Qed.

Lemma token_add_scope_commutative_witness :
  AuthToken.add_scope (H := slot_iter) (OneToken "email")
    (AuthToken.add_scope (H := slot_iter) (OneToken "profile")
       (example_token (Some 1) "id"))
  = AuthToken.add_scope (H := slot_iter) (OneToken "profile")
      (AuthToken.add_scope (H := slot_iter) (OneToken "email")
         (example_token (Some 1) "id")).
Proof.
  apply (token_add_scope_commutative (H := slot_iter));
    repeat constructor; simpl; intros Hc; decompose [or] Hc; done.
Defined.

(** * The constructor of a token *)

(** What assigning the keywords does: it raises exactly when one of them
    is an [algorithm] that is not recognized; otherwise the user and
    the refresh token of the object are the last ones given, and an
    algorithm that was allowed stays allowed unless [_algorithm] is
    assigned directly. *)
Lemma setattrs_spec (kwargs : list AuthTokenObject.keyword) :
  ∀ o : AuthTokenObject.t,
  match AuthTokenObject.setattrs kwargs o with
  | Raise e =>
      ∃ v, AuthTokenObject.Kw_algorithm (Some v) ∈ kwargs
           ∧ ¬ recognized_algorithm v
  | Return o' =>
      (∀ v, AuthTokenObject.Kw_algorithm (Some v) ∈ kwargs →
            recognized_algorithm v)
      ∧ AuthTokenObject.user o'
        = foldl (λ acc k, match k with
                          | AuthTokenObject.Kw_user v => v
                          | _ => acc
                          end) (AuthTokenObject.user o) kwargs
      ∧ AuthTokenObject.refresh_token o'
        = foldl (λ acc k, match k with
                          | AuthTokenObject.Kw_refresh_token v => v
                          | _ => acc
                          end) (AuthTokenObject.refresh_token o) kwargs
      ∧ (allowed_algorithm (AuthTokenObject._algorithm o) →
         (∀ a, AuthTokenObject.Kw__algorithm a ∉ kwargs) →
         allowed_algorithm (AuthTokenObject._algorithm o'))
  end.
Proof.
  induction kwargs as [|k kwargs IH]; intros o.
  { simpl. split_and!; [by intros v ?%elem_of_nil|done|done|auto]. }
  assert (Hstep : ∀ o1 : AuthTokenObject.t,
    AuthTokenObject.setattr k o = (Return (), o1) →
    (∀ v, k = AuthTokenObject.Kw_algorithm (Some v) → recognized_algorithm v) →
    AuthTokenObject.user o1
    = match k with
      | AuthTokenObject.Kw_user v => v
      | _ => AuthTokenObject.user o
      end →
    AuthTokenObject.refresh_token o1
    = match k with
      | AuthTokenObject.Kw_refresh_token v => v
      | _ => AuthTokenObject.refresh_token o
      end →
    (allowed_algorithm (AuthTokenObject._algorithm o) →
     (∀ a, k ≠ AuthTokenObject.Kw__algorithm a) →
     allowed_algorithm (AuthTokenObject._algorithm o1)) →
    match AuthTokenObject.setattrs (k :: kwargs) o with
    | Raise e =>
        ∃ v, AuthTokenObject.Kw_algorithm (Some v) ∈ k :: kwargs
             ∧ ¬ recognized_algorithm v
    | Return o' =>
        (∀ v, AuthTokenObject.Kw_algorithm (Some v) ∈ k :: kwargs →
              recognized_algorithm v)
        ∧ AuthTokenObject.user o'
          = foldl (λ acc k, match k with
                            | AuthTokenObject.Kw_user v => v
                            | _ => acc
                            end) (AuthTokenObject.user o) (k :: kwargs)
        ∧ AuthTokenObject.refresh_token o'
          = foldl (λ acc k, match k with
                            | AuthTokenObject.Kw_refresh_token v => v
                            | _ => acc
                            end) (AuthTokenObject.refresh_token o) (k :: kwargs)
        ∧ (allowed_algorithm (AuthTokenObject._algorithm o) →
           (∀ a, AuthTokenObject.Kw__algorithm a ∉ k :: kwargs) →
           allowed_algorithm (AuthTokenObject._algorithm o'))
    end).
  { intros o1 Hset Hrec Huser Hrefresh Halg.
    cbn [AuthTokenObject.setattrs foldl]. rewrite Hset.
    specialize (IH o1). destruct (AuthTokenObject.setattrs kwargs o1) as [o'|e].
    - destruct IH as (IH1 & IH2 & IH3 & IH4). split_and!.
      + intros v [Hk|Hin]%elem_of_cons; [by apply Hrec|by apply IH1].
      + by rewrite IH2, Huser.
      + by rewrite IH3, Hrefresh.
      + intros Ha Hno. apply IH4.
        * apply Halg; [done|]. intros a ->. apply (Hno a). by left.
        * intros a Hin. apply (Hno a). by right.
    - destruct IH as (v & Hin & Hv). exists v. split; [by right|done]. }
  destruct k as [v|v|v|v|v|v|v|v|v|v|v|v|v];
    try (apply (Hstep _ eq_refl); [done|done|done|by auto]).
  - (* _algorithm=... *)
    apply (Hstep _ eq_refl); [done|done|done|].
    intros _ Hno. by destruct (Hno v).
  - (* algorithm=... *)
    destruct v as [v|].
    + destruct (decide (v ∈ ["hmac-sha-1"; "hmac-sha-256"])) as [Hv|Hv].
      * apply (Hstep (AuthTokenObject.set__algorithm (Some v) o)).
        -- cbn [AuthTokenObject.setattr AuthTokenObject.set_algorithm].
           by rewrite bool_decide_eq_true_2.
        -- intros ? [= <-]. by apply recognized_algorithm_elem.
        -- done.
        -- done.
        -- intros _ _. by apply recognized_algorithm_elem.
      * cbn [AuthTokenObject.setattrs AuthTokenObject.setattr
             AuthTokenObject.set_algorithm].
        rewrite bool_decide_eq_false_2 by done.
        exists v. split; [by left|]. by rewrite <- recognized_algorithm_elem.
    + apply (Hstep _ eq_refl); [done|done|done|]. by intros _ _.
Qed.

(** X4: the constructor, for every list of keywords, raises exactly when
    one of them is an [algorithm] that is not recognized, and then
    draws nothing from the random source. The object it returns has a
    token drawn from the source, whatever [token] the caller gave, and
    a secret drawn last (also after [algorithm=None], which clears the
    secret). With a user among the keywords the refresh token is drawn
    from the source as well; without one it is the refresh token the
    caller gave, and the object of a call that gave neither never
    changes under [refresh]. Unless [_algorithm] is given directly, the
    algorithm of the object is [None] or a recognized name. *)
Theorem init_token {rng : Type} (newid newsecret : rng → string * rng)
    (kwargs : list AuthTokenObject.keyword) (g : rng) :
  match AuthTokenObject.__init__ newid newsecret kwargs g with
  | (Raise e, g') =>
      g' = g
      ∧ ∃ v, AuthTokenObject.Kw_algorithm (Some v) ∈ kwargs
             ∧ ¬ recognized_algorithm v
  | (Return o, g') =>
      (∀ v, AuthTokenObject.Kw_algorithm (Some v) ∈ kwargs →
            recognized_algorithm v)
      ∧ AuthTokenObject.token o = Some (newid g).1
      ∧ AuthTokenObject.user o = given_user kwargs
      ∧ match given_user kwargs with
        | Some _ =>
            AuthTokenObject.refresh_token o = Some (newid (newid g).2).1
            ∧ AuthTokenObject.secret o
              = Some (newsecret (newid (newid g).2).2).1
            ∧ g' = (newsecret (newid (newid g).2).2).2
        | None =>
            AuthTokenObject.refresh_token o = given_refresh_token kwargs
            ∧ AuthTokenObject.secret o = Some (newsecret (newid g).2).1
            ∧ g' = (newsecret (newid g).2).2
            ∧ (given_refresh_token kwargs = None →
               ∀ g1, AuthTokenObject.refresh newid newsecret o g1 = (o, g1))
        end
      ∧ ((∀ a, AuthTokenObject.Kw__algorithm a ∉ kwargs) →
         allowed_algorithm (AuthTokenObject._algorithm o))
  end.
Proof.
  unfold AuthTokenObject.__init__, given_user, given_refresh_token.
  pose proof (setattrs_spec kwargs AuthTokenObject.blank) as Hspec.
  destruct (AuthTokenObject.setattrs kwargs AuthTokenObject.blank) as [self|e];
    [|by split].
  destruct Hspec as (Hrec & Huser & Hrefresh & Halg). simpl in Huser, Hrefresh.
  rewrite <- Huser, <- Hrefresh.
  destruct (newid g) as [i g0]. simpl.
  destruct (AuthTokenObject.user self) as [u|] eqn:Hu.
  - destruct (newid g0) as [r g1]. simpl.
    destruct (newsecret g1) as [k g2]. simpl.
    rewrite Hu. split_and!; [done|done|done|done|done|done|].
    intros Hno. by apply Halg.
  - destruct (newsecret g0) as [k g2]. simpl. rewrite Hu.
    split_and!; [done|done|done|done|done|done| |].
    + intros Hnone g1. unfold AuthTokenObject.refresh. simpl. by rewrite Hnone.
    + intros Hno. by apply Halg.
Qed.

(** A call without user that gives a refresh token, a token and the
    user as a column: the refresh token is kept, the token given is
    replaced, no refresh token is drawn for the column alone, and
    [refresh] changes the object. *)
Example init_with_refresh_token :
  let newid (n : nat) := (if n =? 0 then "id0" else "id1", S n) in
  let newsecret (n : nat) := ("secret", S n) in
  match AuthTokenObject.__init__ newid newsecret
          [AuthTokenObject.Kw_client (Some 7);
           AuthTokenObject.Kw_user_id (Some 1);
           AuthTokenObject.Kw_token (Some "mine");
           AuthTokenObject.Kw_scope ["b"; "a"];
           AuthTokenObject.Kw_refresh_token (Some "r")] 0 with
  | (Return o, g) =>
      AuthTokenObject.user o = None
      ∧ AuthTokenObject.refresh_token o = Some "r"
      ∧ AuthTokenObject.token o = Some "id0"
      ∧ AuthTokenObject._scope o = Some "a b"
      ∧ g = 2
      ∧ AuthTokenObject.token (AuthTokenObject.refresh newid newsecret o g).1
        = Some "id1"
  | (Raise _, _) => False
  end.
Proof. by vm_compute. Qed.

(** The constructor on the keywords of [plain_keywords] is
    [AuthToken.init]: both raise the same exception, or both return,
    having drawn the same values, an object and a row that agree on
    every column the constructor or the caller assigned. *)
Lemma init_plain_keywords {rng : Type} (newid newsecret : rng → string * rng)
    (user : option nat) (client : nat) (scope : list string) (valid : Z)
    (alg : option (option string)) (g : rng) :
  match AuthToken.init newid newsecret user client scope valid alg g,
        AuthTokenObject.__init__ newid newsecret
          (plain_keywords user client scope valid alg) g with
  | (Return tk, g1), (Return o, g2) =>
      g1 = g2
      ∧ AuthTokenObject.user o = AuthToken.user_id tk
      ∧ AuthTokenObject.client o = Some (AuthToken.client_id tk)
      ∧ AuthTokenObject.token o = Some (AuthToken.token tk)
      ∧ AuthTokenObject.secret o = AuthToken.secret tk
      ∧ AuthTokenObject._algorithm o = AuthToken._algorithm tk
      ∧ AuthTokenObject._scope o = Some (AuthToken._scope tk)
      ∧ AuthTokenObject.validity o = Some (AuthToken.validity tk)
      ∧ AuthTokenObject.refresh_token o = AuthToken.refresh_token tk
      ∧ AuthTokenObject.user_id o = None
      ∧ AuthTokenObject.client_id o = None
      ∧ AuthTokenObject.token_type o = None
  | (Raise e1, g1), (Raise e2, g2) => e1 = e2 ∧ g1 = g2
  | _, _ => False
  end.
Proof.
  unfold AuthToken.init, AuthTokenObject.__init__, plain_keywords.
  destruct user as [u|], alg as [[v|]|]; simpl;
    unfold AuthToken.set_algorithm, AuthTokenObject.set_algorithm;
    try case_bool_decide; simpl; try done;
    destruct (newid g) as [i g0]; simpl;
    try destruct (newid g0) as [r g1]; simpl;
    try destruct (newsecret g1) as [k g2]; simpl;
    try destruct (newsecret g0) as [k' g2']; simpl;
    by split_and!.
Qed.

(** * Further properties of moving tokens to another user *)

Section reassigned_token.
Context `{Py.SetIter}.
Variables (s0 : AuthToken.session) (o n : nat).
Hypothesis Hon : o ≠ n.
Variables (i0 : nat) (tk0 : AuthToken.t).
Hypothesis Hlive0 : live_token s0 i0 tk0.
Hypothesis Huser0 : AuthToken.user_id tk0 = Some o.
Hypothesis Hnone :
  ∀ j tk, live_token s0 j tk → AuthToken.user_id tk = Some n →
          AuthToken.client_id tk ≠ AuthToken.client_id tk0.

Lemma reassigned_no_newtoken :
  AuthToken.newtokens_of (AuthToken.query_filter_by_user n s0)
    !! AuthToken.client_id tk0 = None.
Proof.
  destruct (_ !! _) as [l|] eqn:Hl; [|done]. exfalso.
  destruct l as [|j l]; [by apply newtokens_not_nil in Hl|].
  destruct (newtokens_elem s0 o n Hon _ _ j Hl) as (tk & Hlive & Hu & Hc);
    [by left|].
  by apply (Hnone j tk).
Qed.

(** The row of the old token through the loop *)
Record reassigned (pre : list nat) (s : AuthToken.session) : Prop := {
  reassigned_row :
    AuthToken.rows s !! i0
    = Some (if decide (i0 ∈ pre) then AuthToken.set_user_id (Some n) tk0
            else tk0);
  reassigned_live : ¬ (i0 ∈ AuthToken.deleted s)
}.

Lemma reassigned_step pre s i :
  migrated s0 n pre s → reassigned pre s →
  i ∈ (AuthToken.query_filter_by_user o s0).*1 → i ∉ pre →
  reassigned (pre ++ [i])
    (AuthToken.migrate_token n
       (AuthToken.newtokens_of (AuthToken.query_filter_by_user n s0)) s i).
Proof.
  intros Hm [Hrow Hdel] (tk & Hlive & Hu)%query_filter_by_user_keys Hpre.
  assert (Hmem : i0 ∈ pre ++ [i] ↔ i0 ∈ pre ∨ i0 = i).
  { by rewrite elem_of_app, list_elem_of_singleton. }
  destruct (migrate_token_cases s0 o n Hon _ _ _ _ Hm Hlive Hu Hpre)
    as [(l & j & nt & tkj & Hd & Hj & Hji & Hjrow & Hjlive & Hjn & Hjc & ->)
       |[Hd ->]].
  - assert (Hi : i ≠ i0).
    { intros ->. destruct Hlive as [Hi _], Hlive0 as [Hi' _].
      assert (tk = tk0) as -> by congruence.
      rewrite reassigned_no_newtoken in Hd. done. }
    assert (Hj0 : j ≠ i0).
    { intros ->. destruct Hjlive as [Hj' _], Hlive0 as [Hi' _]. congruence. }
    split; simpl.
    + rewrite lookup_alter_ne by done. rewrite Hrow. f_equal.
      destruct (decide (i0 ∈ pre));
        [rewrite decide_True|rewrite decide_False]; try done;
        rewrite Hmem; intuition congruence.
    + rewrite elem_of_union, elem_of_singleton. intuition congruence.
  - split; simpl; [|done].
    destruct (decide (i = i0)) as [->|Hi].
    + rewrite lookup_alter_eq, Hrow.
      rewrite decide_False by done. simpl.
      rewrite decide_True by (apply Hmem; by right). done.
    + rewrite lookup_alter_ne by done. rewrite Hrow. f_equal.
      destruct (decide (i0 ∈ pre));
        [rewrite decide_True|rewrite decide_False]; try done;
        rewrite Hmem; intuition congruence.
Qed.

Lemma reassigned_foldl todo : ∀ pre s,
  migrated s0 n pre s → reassigned pre s → NoDup (pre ++ todo) →
  (∀ i, i ∈ todo → i ∈ (AuthToken.query_filter_by_user o s0).*1) →
  reassigned (pre ++ todo)
    (foldl (AuthToken.migrate_token n
              (AuthToken.newtokens_of (AuthToken.query_filter_by_user n s0)))
           s todo).
Proof.
  induction todo as [|i todo IH]; intros pre s Hm Hr Hnd Hin; simpl.
  - by rewrite app_nil_r.
  - replace (pre ++ i :: todo) with ((pre ++ [i]) ++ todo) in *
      by (by rewrite <- app_assoc).
    assert (Hi : i ∉ pre).
    { apply NoDup_app in Hnd as [Hnd _]. apply NoDup_app in Hnd as (_ & Hd & _).
      intros Hi. apply (Hd _ Hi). by left. }
    apply IH; [| |done|].
    + apply (migrated_step s0 o n Hon); [done|by apply Hin; left|done].
    + apply reassigned_step; [done|done|by apply Hin; left|done].
    + intros k Hk. apply Hin. by right.
Qed.

Lemma reassigned_end :
  reassigned (AuthToken.query_filter_by_user o s0).*1
    (AuthToken.migrate_user (Some o) (Some n) s0).
Proof.
  apply (reassigned_foldl _ [] s0);
    [apply migrated_start| |apply query_filter_by_user_NoDup_keys|done].
  split.
  - rewrite decide_False by (by intros ?%elem_of_nil). apply Hlive0.
  - apply Hlive0.
Qed.
End reassigned_token.

(** X5: a token of the old user for a client for which the new user has
    no token is handed over: after [AuthToken.migrate_user] the same row
    is live, belongs to the new user, and has every other column (token,
    secret, scope, refresh token) as before. *)
Theorem migrate_user_reassigns_token `{Py.SetIter} (s : AuthToken.session)
    (o n i : nat) (tk : AuthToken.t) :
  o ≠ n →
  live_token s i tk → AuthToken.user_id tk = Some o →
  (∀ j t, live_token s j t → AuthToken.user_id t = Some n →
          AuthToken.client_id t ≠ AuthToken.client_id tk) →
  live_token (AuthToken.migrate_user (Some o) (Some n) s) i
             (AuthToken.set_user_id (Some n) tk)
  ∧ (i, AuthToken.set_user_id (Some n) tk)
    ∈ tokens_of_user_client n (AuthToken.client_id tk)
        (AuthToken.migrate_user (Some o) (Some n) s).
Proof.
  intros Hon Hlive Hu Hnone.
  destruct (reassigned_end s o n Hon i tk Hlive Hu Hnone) as [Hrow Hdel].
  rewrite decide_True in Hrow by (apply query_filter_by_user_keys; eauto).
  split; [done|]. by apply tokens_of_user_client_elem.
Qed.

Lemma migrate_user_reassigns_token_witness :
  live_token (AuthToken.migrate_user (H := slot_iter) (Some 1) (Some 2)
                example_session_apart) 1
             (AuthToken.set_user_id (Some 2) (example_token (Some 1) "profile/read")).
Proof.
  refine (proj1 (migrate_user_reassigns_token (H := slot_iter)
                   example_session_apart 1 2 1
                   (example_token (Some 1) "profile/read") _ _ _ _)).
  - lia.
  - split; [reflexivity|]. simpl. apply not_elem_of_empty.
  - reflexivity.
  - intros j t [Hrow _] Hu. unfold example_session_apart in Hrow. simpl in Hrow.
    apply lookup_insert_Some in Hrow as [[<- <-]|[_ Hrow]]; [done|].
    apply lookup_singleton_Some in Hrow as [<- <-]. simpl. lia.
Defined.

(** X6: [AuthToken.migrate_user] touches the tokens of the two users
    only: a row of any other user, or of no user, is the same afterwards
    and is deleted only if it was; no row appears; only rows that were
    live tokens of the old user get deleted; and a token of the new user
    stays a live token of the new user for the same client. *)
Theorem migrate_user_leaves_others `{Py.SetIter} (s : AuthToken.session)
    (o n : nat) :
  o ≠ n →
  let s' := AuthToken.migrate_user (Some o) (Some n) s in
  (∀ i tk, AuthToken.rows s !! i = Some tk →
     AuthToken.user_id tk ≠ Some o → AuthToken.user_id tk ≠ Some n →
     AuthToken.rows s' !! i = Some tk
     ∧ (i ∈ AuthToken.deleted s' ↔ i ∈ AuthToken.deleted s))
  ∧ (∀ i, AuthToken.rows s !! i = None → AuthToken.rows s' !! i = None)
  ∧ (∀ i, i ∈ AuthToken.deleted s' →
       i ∈ AuthToken.deleted s
       ∨ ∃ tk, live_token s i tk ∧ AuthToken.user_id tk = Some o)
  ∧ (∀ j tk, live_token s j tk → AuthToken.user_id tk = Some n →
       ∃ tk', live_token s' j tk' ∧ AuthToken.user_id tk' = Some n
              ∧ AuthToken.client_id tk' = AuthToken.client_id tk).
Proof.
  intros Hon s'. pose proof (migrated_end s o n Hon) as Hm. fold s' in Hm.
  split_and!.
  - intros i tk Hrow Ho Hn.
    destruct (migrated_Some _ _ _ _ Hm _ _ Hrow)
      as (tk' & Htk' & Hc & Hin & Hout & Huser).
    assert (Hi : i ∉ (AuthToken.query_filter_by_user o s).*1).
    { intros (t & [Ht _] & Hu)%query_filter_by_user_keys. congruence. }
    rewrite Htk', (Hout Hi Hn). split; [done|]. split.
    + by intros [Hd|Hd]%(migrated_deleted _ _ _ _ Hm).
    + apply (migrated_deleted_mono _ _ _ _ Hm).
  - apply (migrated_None _ _ _ _ Hm).
  - intros i [Hd|Hd]%(migrated_deleted _ _ _ _ Hm); [by left|right].
    by apply query_filter_by_user_keys.
  - intros j tk [Hrow Hdel] Hu.
    destruct (migrated_Some _ _ _ _ Hm _ _ Hrow)
      as (tk' & Htk' & Hc & Hin & Hout & Huser).
    exists tk'. split; [split; [done|]|by auto].
    intros [Hd|Hd]%(migrated_deleted _ _ _ _ Hm); [done|].
    apply query_filter_by_user_keys in Hd as (t & [Ht _] & Hto). congruence.
Qed.

Lemma migrate_user_leaves_others_witness :
  AuthToken.rows (AuthToken.migrate_user (H := slot_iter) (Some 1) (Some 2)
                    example_session) !! 3
  = Some (example_token None "profile/read").
Proof.
  refine (proj1 (proj1 (migrate_user_leaves_others (H := slot_iter)
                          example_session 1 2 _) 3 _ _ _ _));
    [lia|reflexivity|done|done].
Defined.

Section merged_into_itself.
Context `{Py.SetIter}.
Variables (s0 : AuthToken.session) (u : nat).

(** What holds through the loop when the old and the new user are one:
    rows keep their user and client, and the tokens gone through the
    loop are deleted. *)
Record self_migrated (pre : list nat) (s : AuthToken.session) : Prop := {
  self_migrated_rows k tk0 :
    AuthToken.rows s0 !! k = Some tk0 →
    ∃ tk, AuthToken.rows s !! k = Some tk
          ∧ AuthToken.user_id tk = AuthToken.user_id tk0
          ∧ AuthToken.client_id tk = AuthToken.client_id tk0;
  self_migrated_None k :
    AuthToken.rows s0 !! k = None → AuthToken.rows s !! k = None;
  self_migrated_mono k : k ∈ AuthToken.deleted s0 → k ∈ AuthToken.deleted s;
  self_migrated_deleted k : k ∈ pre → k ∈ AuthToken.deleted s
}.

Lemma self_migrated_step pre s i :
  self_migrated pre s → i ∈ (AuthToken.query_filter_by_user u s0).*1 →
  self_migrated (pre ++ [i])
    (AuthToken.migrate_token u
       (AuthToken.newtokens_of (AuthToken.query_filter_by_user u s0)) s i).
Proof.
  intros [Hrows Hnone Hmono Hdel] (tk0 & Hlive & Hu)%query_filter_by_user_keys.
  destruct (Hrows _ _ (proj1 Hlive)) as (tk & Hrow & Htku & Htkc).
  destruct (newtokens_Some s0 u i tk0 Hlive Hu) as (l & Hl & Hil).
  unfold AuthToken.migrate_token. rewrite Hrow, Htkc, Hl. simpl.
  destruct (AuthToken.first_of_user u s l) as [[j nt]|] eqn:Hf.
  - split; simpl.
    + intros k t0 Hk. destruct (Hrows _ _ Hk) as (t & Ht & Htu & Htc).
      rewrite lookup_alter. case_decide; subst; [|eauto].
      rewrite Ht. simpl. eauto.
    + intros k Hk. rewrite lookup_alter. case_decide; subst.
      * by rewrite (Hnone _ Hk).
      * by apply Hnone.
    + intros k Hk. apply elem_of_union_r. auto.
    + intros k [Hk|Hk%list_elem_of_singleton]%elem_of_app.
      * apply elem_of_union_r. auto.
      * subst. apply elem_of_union_l. by apply elem_of_singleton.
  - exfalso. apply (first_of_user_None u s l i tk Hf Hil Hrow). congruence.
Qed.

Lemma self_migrated_foldl todo : ∀ pre s,
  self_migrated pre s →
  (∀ i, i ∈ todo → i ∈ (AuthToken.query_filter_by_user u s0).*1) →
  self_migrated (pre ++ todo)
    (foldl (AuthToken.migrate_token u
              (AuthToken.newtokens_of (AuthToken.query_filter_by_user u s0)))
           s todo).
Proof.
  induction todo as [|i todo IH]; intros pre s Hm Hin; simpl.
  - by rewrite app_nil_r.
  - replace (pre ++ i :: todo) with ((pre ++ [i]) ++ todo)
      by (by rewrite <- app_assoc).
    apply IH.
    + apply self_migrated_step; [done|apply Hin; by left].
    + intros k Hk. apply Hin. by right.
Qed.
End merged_into_itself.

(** X7: migrating a user into itself deletes its tokens. Every token of
    the user finds a token of "the new user" for its client, be it
    itself, and is deleted after the merge: afterwards the user holds no
    token at all. *)
Theorem migrate_user_into_itself `{Py.SetIter} (s : AuthToken.session) (u : nat) :
  let s' := AuthToken.migrate_user (Some u) (Some u) s in
  AuthToken.query_filter_by_user u s' = []
  ∧ ∀ i tk, live_token s i tk → AuthToken.user_id tk = Some u →
            i ∈ AuthToken.deleted s'.
Proof.
  intros s'.
  assert (Hm : self_migrated s (AuthToken.query_filter_by_user u s).*1 s').
  { apply (self_migrated_foldl s u _ [] s); [|done].
    split; [eauto|done|done|]. by intros k ?%elem_of_nil. }
  assert (Hdel : ∀ i tk, live_token s i tk → AuthToken.user_id tk = Some u →
                         i ∈ AuthToken.deleted s').
  { intros i tk Hlive Hu. apply (self_migrated_deleted _ _ _ Hm).
    apply query_filter_by_user_keys. eauto. }
  split; [|done].
  apply elem_of_nil_inv. intros [i tk] [[Hrow Hnd] Hu]%query_filter_by_user_elem.
  apply Hnd. destruct (AuthToken.rows s !! i) as [tk0|] eqn:Hrow0.
  - destruct (self_migrated_rows _ _ _ Hm _ _ Hrow0) as (t & Ht & Htu & _).
    assert (t = tk) as -> by congruence.
    destruct (decide (i ∈ AuthToken.deleted s)) as [Hd|Hd].
    + by apply (self_migrated_mono _ _ _ Hm).
    + apply (Hdel i tk0); [done|congruence].
  - rewrite (self_migrated_None _ _ _ Hm _ Hrow0) in Hrow. done.
Qed.

(** On the session of the examples, merging user 1 into itself leaves it
    without its token. *)
Example migrate_user_into_itself_example :
  AuthToken.deleted (AuthToken.migrate_user (H := slot_iter) (Some 1) (Some 1)
                       example_session) = {[1]}.
Proof. by vm_compute. Qed.

(** * Team membership across an account merge *)

Lemma join_teams_spec (n : nat) (l : list nat) : ∀ m : gmap nat (list nat),
  ∃ ext,
    TeamMembership.teams n (foldl (TeamMembership.join_team n) m l)
    = TeamMembership.teams n m ++ ext
    ∧ NoDup ext
    ∧ (∀ t, t ∈ ext ↔ t ∈ l ∧ t ∉ TeamMembership.teams n m)
    ∧ (∀ u, u ≠ n → foldl (TeamMembership.join_team n) m l !! u = m !! u).
Proof.
  induction l as [|t l IH]; intros m; simpl.
  - exists []. rewrite app_nil_r. split_and!; [done|constructor| |done].
    intros t. split; [by intros ?%elem_of_nil|]. by intros [?%elem_of_nil _].
  - unfold TeamMembership.join_team at 2 4.
    destruct (decide (t ∈ TeamMembership.teams n m)) as [Ht|Ht].
    + destruct (IH m) as (ext & Heq & Hnd & Hmem & Hother).
      exists ext. split_and!; [done|done| |done].
      intros x. rewrite Hmem, elem_of_cons. split; [tauto|].
      intros [[->|Hx] Hnot]; [done|tauto].
    + set (m1 := <[n := TeamMembership.teams n m ++ [t]]> m).
      assert (Hm1 : TeamMembership.teams n m1 = TeamMembership.teams n m ++ [t]).
      { unfold TeamMembership.teams at 1, m1. by rewrite lookup_insert_eq. }
      destruct (IH m1) as (ext & Heq & Hnd & Hmem & Hother).
      exists (t :: ext). split_and!.
      * rewrite Heq, Hm1, <- app_assoc. done.
      * constructor; [|done]. rewrite Hmem, Hm1, elem_of_app, list_elem_of_singleton.
        tauto.
      * intros x. rewrite !elem_of_cons, Hmem, Hm1, elem_of_app,
          list_elem_of_singleton.
        destruct (decide (x = t)) as [->|Hx]; [tauto|]. tauto.
      * intros u Hu. rewrite Hother by done. unfold m1.
        by rewrite lookup_insert_ne.
Qed.

(** X8: [Team.migrate_user] for two different users leaves the old user
    without teams and the new user with its teams as before, in the same
    order, followed by the teams of the old user it was not in, each
    once. No membership is lost, no team is listed twice if none was,
    other users keep their teams, and migrating again changes nothing. *)
Theorem team_migrate_user (olduser newuser : nat) (m : gmap nat (list nat)) :
  olduser ≠ newuser →
  let m' := TeamMembership.migrate_user olduser newuser m in
  TeamMembership.teams olduser m' = []
  ∧ (∃ ext,
       TeamMembership.teams newuser m' = TeamMembership.teams newuser m ++ ext
       ∧ NoDup ext
       ∧ ∀ t, t ∈ ext ↔ t ∈ TeamMembership.teams olduser m
                        ∧ t ∉ TeamMembership.teams newuser m)
  ∧ (∀ t, t ∈ TeamMembership.teams newuser m'
          ↔ t ∈ TeamMembership.teams newuser m
            ∨ t ∈ TeamMembership.teams olduser m)
  ∧ (NoDup (TeamMembership.teams newuser m) →
     NoDup (TeamMembership.teams newuser m'))
  ∧ (∀ u, u ≠ olduser → u ≠ newuser → m' !! u = m !! u)
  ∧ TeamMembership.migrate_user olduser newuser m' = m'.
Proof.
  intros Hne m'.
  destruct (join_teams_spec newuser (TeamMembership.teams olduser m) m)
    as (ext & Heq & Hnd & Hmem & Hother).
  assert (Hold : TeamMembership.teams olduser m' = []).
  { unfold TeamMembership.teams at 1, m', TeamMembership.migrate_user.
    by rewrite lookup_insert_eq. }
  assert (Hnew : TeamMembership.teams newuser m'
                 = TeamMembership.teams newuser m ++ ext).
  { rewrite <- Heq. unfold TeamMembership.teams at 1 3, m',
      TeamMembership.migrate_user. by rewrite lookup_insert_ne. }
  split_and!.
  - done.
  - eauto.
  - intros t. rewrite Hnew, elem_of_app, Hmem.
    destruct (decide (t ∈ TeamMembership.teams newuser m)); tauto.
  - intros Hn. rewrite Hnew. apply NoDup_app. split_and!; [done| |done].
    intros t Ht Hext. apply Hmem in Hext. tauto.
  - intros u Ho Hn. unfold m', TeamMembership.migrate_user.
    rewrite lookup_insert_ne by done. by apply Hother.
  - unfold TeamMembership.migrate_user at 1. rewrite Hold. simpl.
    unfold m', TeamMembership.migrate_user. by rewrite insert_insert_eq.
Qed.

Lemma team_migrate_user_witness :
  TeamMembership.teams 2
    (TeamMembership.migrate_user 1 2 {[ 1 := [10; 11]; 2 := [11; 12] ]})
  = [11; 12] ++ [10]
  ∧ TeamMembership.teams 1
      (TeamMembership.migrate_user 1 2 {[ 1 := [10; 11]; 2 := [11; 12] ]}) = [].
Proof.
  destruct (team_migrate_user 1 2 {[ 1 := [10; 11]; 2 := [11; 12] ]})
    as (Hold & _); [lia|].
  split; [by vm_compute|exact Hold].
Defined.

(** X9: migrating a user into itself takes it out of all its teams:
    nothing is appended, since every team is found in the list it comes
    from, and the list is then emptied. *)
Theorem team_migrate_user_into_itself (u : nat) (m : gmap nat (list nat)) :
  TeamMembership.migrate_user u u m = <[u := []]> m.
Proof.
  unfold TeamMembership.migrate_user. f_equal.
  enough (Hgen : ∀ l, (∀ t, t ∈ l → t ∈ TeamMembership.teams u m) →
                      foldl (TeamMembership.join_team u) m l = m) by by apply Hgen.
  induction l as [|t l IH]; intros Hl; simpl; [done|].
  unfold TeamMembership.join_team at 2.
  rewrite decide_True by (apply Hl; by left).
  apply IH. intros x Hx. apply Hl. by right.
Qed.

(** * Clients and the helpers of the views *)

(** ** The URL filters *)

Lemma startswith_from (p s : string) :
  Helpers.startswith p s = true → s = p +:+ Helpers.from (String.length p) s.
Proof.
  unfold Helpers.startswith. revert s.
  induction p as [|a p IH]; intros s Hp; [done|].
  destruct s as [|b s]; [done|]. simpl in Hp.
  destruct (ascii_dec a b) as [->|]; [|done].
  change (String b p +:+ Helpers.from (String.length (String b p)) (String b s))
    with (String b (p +:+ Helpers.from (String.length p) s)).
  f_equal. by apply IH.
Qed.

(** X10: [nossl] never gives a URL that starts with [https://], and
    [usessl], when SSL is enabled, never gives one that starts with
    [http:]; with SSL disabled [usessl] gives the URL back. *)
Theorem ssl_filters_scheme (req : Helpers.request) (u : string) :
  Helpers.startswith "https://" (Helpers.nossl req u) = false
  ∧ Helpers.startswith "http:" (Helpers.usessl true req u) = false
  ∧ Helpers.usessl false req u = u.
Proof.
  split_and!; [| |done].
  - unfold Helpers.nossl.
    destruct (Helpers.startswith "//" u); [done|].
    match goal with
    | |- context [Helpers.startswith "https://" ?x] =>
        by destruct (Helpers.startswith "https://" x) eqn:Hu
    end.
  - unfold Helpers.usessl. simpl.
    destruct (Helpers.startswith "//" u); [done|].
    match goal with
    | |- context [Helpers.startswith "http:" ?x] =>
        by destruct (Helpers.startswith "http:" x) eqn:Hu
    end.
Qed.

(** X11: on absolute URLs the two filters undo each other: for a URL
    that starts with [https://], [usessl] (with SSL enabled) of its
    [nossl] is the URL, and for one that starts with [http://], [nossl]
    of its [usessl] is the URL. *)
Theorem ssl_filters_round_trip (req : Helpers.request) (u : string) :
  (Helpers.startswith "https://" u = true →
   Helpers.nossl req u = "http:" +:+ Helpers.from 6 u
   ∧ Helpers.usessl true req (Helpers.nossl req u) = u)
  ∧ (Helpers.startswith "http://" u = true →
     Helpers.usessl true req u = "https:" +:+ Helpers.from 5 u
     ∧ Helpers.nossl req (Helpers.usessl true req u) = u).
Proof.
  split; intros Hu; pose proof (startswith_from _ _ Hu) as Heq;
    revert Heq; generalize (Helpers.from (String.length "https://") u),
                           (Helpers.from (String.length "http://") u);
    intros rest1 rest2 ->; destruct rest1, rest2; by vm_compute.
Qed.

Example ssl_filters_on_paths :
  Helpers.nossl (Helpers.Request "https://host/" "https://host/page") "/path"
  = "http://host/path"
  ∧ Helpers.nossl (Helpers.Request "http://host/" "http://host/page") "/path"
    = "/path"
  ∧ Helpers.usessl true (Helpers.Request "http://host" "http://host/page") "/path"
    = "https://host/path"
  ∧ Helpers.usessl true (Helpers.Request "" "") "//cdn/x" = "https://cdn/x".
Proof. by vm_compute. Qed.

(** ** The timezone set at login *)

(** X12: [autoset_timezone] never replaces a timezone that is valid, and
    never stores one that is not: the timezone afterwards is the one
    before, or else a valid one read from the cookie. Setting it again
    with the same cookies changes nothing. *)
Theorem autoset_timezone_valid (valid_timezones : gset string)
    (unquote : string → string) (cookies : gmap string string)
    (timezone : option string) :
  let tz' := Helpers.autoset_timezone valid_timezones unquote cookies timezone in
  (∀ tz, timezone = Some tz → tz ∈ valid_timezones → tz' = timezone)
  ∧ (tz' = timezone
     ∨ ∃ c tz, cookies !! "timezone" = Some c ∧ c ≠ "" ∧ tz = unquote c
               ∧ tz ∈ valid_timezones ∧ tz' = Some tz)
  ∧ (cookies !! "timezone" = None → tz' = timezone)
  ∧ Helpers.autoset_timezone valid_timezones unquote cookies tz' = tz'.
Proof.
  unfold Helpers.autoset_timezone.
  destruct (cookies !! "timezone") as [c|] eqn:Hc; simpl;
    [destruct (String.eqb_spec c "") as [->|Hne]; simpl|];
    (destruct timezone as [tz|]; [destruct (decide (tz ∈ valid_timezones))|]);
    rewrite ?bool_decide_eq_true_2, ?bool_decide_eq_false_2 by (by auto);
    simpl;
    try (destruct (decide (unquote c ∈ valid_timezones)));
    rewrite ?bool_decide_eq_true_2, ?bool_decide_eq_false_2 by (by auto);
    simpl;
    rewrite ?bool_decide_eq_true_2, ?bool_decide_eq_false_2 by (by auto);
    (split_and!; [by intros ? [= <-] ? | | done | done ]);
    first [ by left | right; exists c, (unquote c); by split_and! ].
Qed.

(** ** Client login *)

(** X13: a view behind [requires_client_login] runs only for a request
    whose credentials are the key and the secret of the first active
    client with that key, which is then [g.client]. Every other request
    (no credentials, no active client with that key, another secret) is
    answered with status 401 whatever the view is, and the context is
    left as it was. An inactive client does not log in, even with its
    own key and secret. *)
Theorem requires_client_login_runs (clients : list Client.t)
    (authorization : option (string * string)) (c : Helpers.context) :
  match authorization with
  | None =>
      ∀ f, Helpers.requires_client_login clients authorization f c
           = (Helpers.Response "Client credentials required." 401
                               Helpers.www_authenticate, c)
  | Some (username, password) =>
      ∃ r, first_match (λ x, Client.key x = username ∧ Client.active x = true)
                       clients r
           ∧ match r with
             | Some cl =>
                 if decide (Client.secret cl = password)
                 then ∀ f, Helpers.requires_client_login clients authorization f c
                           = f (Helpers.set_client (Some cl) c)
                 else ∀ f, Helpers.requires_client_login clients authorization f c
                           = (Helpers.Response "Invalid client credentials." 401
                               Helpers.www_authenticate, c)
             | None =>
                 ∀ f, Helpers.requires_client_login clients authorization f c
                      = (Helpers.Response "Invalid client credentials." 401
                               Helpers.www_authenticate, c)
             end
  end.
Proof.
  unfold Helpers.requires_client_login, Helpers._client_login_inner.
  destruct authorization as [[username password]|]; [|done].
  pose proof (head_filter_first_match
                (λ x, Client.key x = username ∧ Client.active x = true) clients)
    as Hfirst.
  unfold Client.get. destruct (head (filter _ clients)) as [cl|] eqn:Hget.
  - exists (Some cl). split; [done|]. unfold Client.secret_is.
    destruct (String.eqb_spec (Client.secret cl) password) as [Hs|Hs]; simpl.
    + by rewrite decide_True.
    + by rewrite decide_False.
  - exists None. by split.
Qed.

Example inactive_client_does_not_log_in :
  let cl := Client.mk (Some 1) None "App" "https://app" false true false
                      "key" "secret" false in
  ∀ f c, Helpers.requires_client_login [cl] (Some ("key", "secret")) f c
         = (Helpers.Response "Invalid client credentials." 401
                               Helpers.www_authenticate, c).
Proof. done. Qed.

(** ** The user of a request *)

(** X14: after [login_internal(user)] the next request finds the user:
    [lookup_current_user] gives the first active user with the userid
    stored in the session, so the user logged in when it is active and
    the only one with its userid, and nobody when it has been suspended
    or merged since. A user with an empty userid cannot be found again:
    the lookup raises. *)
Theorem login_then_lookup (valid_timezones : gset string)
    (unquote : string → string) (cookies : gmap string string)
    (table : list User.t) (u : User.t) (timezone : option string)
    (c : Helpers.context) :
  let c' := (Helpers.login_internal valid_timezones unquote cookies
               u timezone c).1 in
  Helpers.user c' = Some u
  ∧ Helpers.data (Helpers.sess c') !! "userid" = Some (User.userid u)
  ∧ Helpers.permanent (Helpers.sess c') = true
  ∧ (User.userid u = "" →
     ∃ msg, Helpers.lookup_current_user table c' = Raise (TypeError msg))
  ∧ (User.userid u ≠ "" →
     ∃ r, Helpers.lookup_current_user table c'
          = Return (Helpers.set_user r c')
          ∧ first_match (λ x, User.userid x = User.userid u
                              ∧ User.status x = USER_STATUS.ACTIVE) table r
          ∧ ((∀ x, x ∈ table → User.userid x = User.userid u → x = u) →
             u ∈ table →
             if decide (User.status u = USER_STATUS.ACTIVE)
             then r = Some u else r = None)).
Proof.
  intros c'. split_and!; try done.
  - unfold c'. simpl. by rewrite lookup_insert_eq.
  - intros Hid. unfold Helpers.lookup_current_user. simpl.
    rewrite lookup_insert_eq. unfold User.get. simpl. rewrite Hid. simpl. eauto.
  - intros Hid. unfold Helpers.lookup_current_user. simpl.
    rewrite lookup_insert_eq. unfold User.get. simpl.
    destruct (String.eqb_spec (User.userid u) "") as [?|_]; [done|]. simpl.
    unfold User.first.
    pose proof (head_filter_first_match
      (λ x, Some (User.userid x) = Some (User.userid u)
            ∧ User.status x = USER_STATUS.ACTIVE) table) as Hfirst.
    destruct (head (filter _ table)) as [r|] eqn:Hr.
    + exists (Some r). split; [done|].
      destruct Hfirst as (before & after & -> & [Hru Hrs] & Hbefore).
      split.
      * exists before, after. split_and!; [done|congruence|done|].
        eapply Forall_impl; [exact Hbefore|]. simpl. intros x Hx [? ?].
        apply Hx. split; [congruence|done].
      * intros Huniq Hin.
        assert (r = u) as ->.
        { apply Huniq; [|congruence]. rewrite elem_of_app. right. by left. }
        by rewrite decide_True.
    + exists None. split; [done|]. simpl in Hfirst. split.
      * eapply Forall_impl; [exact Hfirst|]. simpl. intros x Hx [? ?].
        apply Hx. split; [congruence|done].
      * intros _ Hin. rewrite Forall_forall in Hfirst.
        case_decide as Hs; [|done]. exfalso.
        by apply (Hfirst u Hin).
Qed.

(** X15: [logout_internal] leaves no user behind: [g.user] is [None],
    the session is no longer permanent and holds none of [userid],
    [merge_userid], [userid_external] and [avatar_url], every other key
    being kept; the next request is anonymous, whatever the users are. *)
Theorem logout_then_lookup (table : list User.t) (c : Helpers.context) :
  let c' := Helpers.logout_internal c in
  Helpers.user c' = None
  ∧ Helpers.permanent (Helpers.sess c') = false
  ∧ (∀ k, Helpers.data (Helpers.sess c') !! k
          = if decide (k ∈ ["userid"; "merge_userid"; "userid_external";
                            "avatar_url"])
            then None else Helpers.data (Helpers.sess c) !! k)
  ∧ Helpers.client c' = Helpers.client c
  ∧ Helpers.lookup_current_user table c' = Return c'.
Proof.
  intros c'. split_and!; try done.
  - intros k. unfold c', Helpers.logout_internal. simpl.
    rewrite !lookup_delete.
    destruct (decide (k ∈ ["userid"; "merge_userid"; "userid_external";
                           "avatar_url"])) as [Hk|Hk];
      rewrite !elem_of_cons, elem_of_nil in Hk;
      repeat case_decide; try done; exfalso; intuition congruence.
  - unfold Helpers.lookup_current_user, c', Helpers.logout_internal. simpl.
    rewrite !lookup_delete_ne by done. by rewrite lookup_delete_eq.
Qed.

(** X16: a request whose session names a user that is not active any
    more is a request without a user: [lookup_current_user] leaves
    [g.user] empty, and a view behind [requires_login] is not run; the
    answer is the redirect to the login page, with the URL kept under
    [next] in the session and a message flashed. *)
Theorem inactive_user_is_logged_out (table : list User.t) (c : Helpers.context)
    (userid current_url : string) :
  Helpers.data (Helpers.sess c) !! "userid" = Some userid →
  userid ≠ "" →
  (∀ x, x ∈ table → User.userid x = userid →
        User.status x ≠ USER_STATUS.ACTIVE) →
  ∃ c1,
    Helpers.lookup_current_user table c = Return c1
    ∧ Helpers.user c1 = None
    ∧ ∀ f, ∃ c2,
        Helpers.requires_login current_url f c1 = (Helpers.Redirect "login", c2)
        ∧ Helpers.data (Helpers.sess c2) !! "next" = Some current_url
        ∧ Helpers.flashes c2
          = Helpers.flashes c ++ [("You need to be logged in for that page", "info")].
Proof.
  intros Hsess Hid Hinactive.
  unfold Helpers.lookup_current_user. simpl. rewrite Hsess.
  unfold User.get. simpl.
  destruct (String.eqb_spec userid "") as [?|_]; [done|]. simpl.
  unfold User.first.
  destruct (head (filter _ table)) as [x|] eqn:Hx.
  - apply head_Some_elem_of, list_elem_of_filter in Hx as [[[= Hu] Hs] Hin].
    by destruct (Hinactive x Hin Hu).
  - eexists. split; [done|]. split; [done|]. intros f.
    unfold Helpers.requires_login. simpl. eexists. split; [done|]. simpl.
    by rewrite lookup_insert_eq.
Qed.

Lemma inactive_user_is_logged_out_witness :
  ∃ c1,
    Helpers.lookup_current_user
      [User.mk "u1" "Alice" (Some "alice") None USER_STATUS.SUSPENDED]
      (Helpers.Context None None (Helpers.Session {[ "userid" := "u1" ]} true) [])
    = Return c1
    ∧ Helpers.user c1 = None.
Proof.
  destruct (inactive_user_is_logged_out
              [User.mk "u1" "Alice" (Some "alice") None USER_STATUS.SUSPENDED]
              (Helpers.Context None None
                 (Helpers.Session {[ "userid" := "u1" ]} true) [])
              "u1" "/page") as (c1 & H1 & H2 & _).
  - reflexivity.
  - discriminate.
  - intros x ->%list_elem_of_singleton _. discriminate.
  - exists c1. by split.
Defined.

(** * The owners of an organization *)

(** X17: merging an owner of an organization into another account hands
    the organization over: after [Team.migrate_user] the new user gets
    all five owner permissions on the organization, and edit and delete
    on each of its teams, while the old user gets none of view, edit and
    delete on the organization, not even from the base class. *)
Theorem merge_hands_over_organization (perms : gset string)
    (m : gmap nat (list nat)) (org : Organization.t) (owners olduser newuser : nat) :
  olduser ≠ newuser →
  Organization.owners org = Some owners →
  owners ∈ TeamMembership.teams olduser m →
  let m' := TeamMembership.migrate_user olduser newuser m in
  (∃ r, Owners.organization_permissions perms m' org (Some newuser) = Some r
        ∧ ∀ p, p ∈ ["view"; "edit"; "delete"; "view-teams"; "new-team"] → p ∈ r)
  ∧ (∃ r, Owners.team_permissions perms m' org (Some newuser) = Some r
          ∧ "edit" ∈ r ∧ "delete" ∈ r)
  ∧ (∃ r, Owners.organization_permissions perms m' org (Some olduser) = Some r
          ∧ ∀ p, p ∈ ["view"; "edit"; "delete"] → p ∉ r)
  ∧ Owners.team_permissions perms m' org (Some olduser) = Some perms.
Proof.
  intros Hne Howners Hin m'.
  destruct (join_teams_spec newuser (TeamMembership.teams olduser m) m)
    as (ext & Heq & _ & Hmem & _).
  assert (Hold : TeamMembership.teams olduser m' = []).
  { unfold TeamMembership.teams at 1, m', TeamMembership.migrate_user.
    by rewrite lookup_insert_eq. }
  assert (Hnew : owners ∈ TeamMembership.teams newuser m').
  { unfold TeamMembership.teams at 1, m', TeamMembership.migrate_user.
    rewrite lookup_insert_ne by done.
    fold (TeamMembership.teams newuser
            (foldl (TeamMembership.join_team newuser) m
                   (TeamMembership.teams olduser m))).
    rewrite Heq, elem_of_app, Hmem.
    destruct (decide (owners ∈ TeamMembership.teams newuser m)); tauto. }
  unfold Owners.organization_permissions, Owners.team_permissions,
    Owners.is_member.
  rewrite Howners. simpl. rewrite Hold.
  rewrite (bool_decide_eq_true_2 _ Hnew).
  rewrite (bool_decide_eq_false_2 (owners ∈ [])) by by intros ?%elem_of_nil.
  split_and!.
  - eexists. split; [done|]. intros p Hp.
    rewrite !elem_of_cons, elem_of_nil in Hp. rewrite !elem_of_union,
      !elem_of_singleton. tauto.
  - eexists. split; [done|].
    rewrite !elem_of_union, !elem_of_singleton. tauto.
  - eexists. split; [done|]. intros p Hp.
    rewrite !elem_of_cons, elem_of_nil in Hp.
    rewrite !elem_of_difference, !elem_of_singleton. tauto.
  - done.
Qed.

Lemma merge_hands_over_organization_witness :
  Owners.team_permissions {["view"]}
    (TeamMembership.migrate_user 1 2 {[ 1 := [10; 11]; 2 := [11; 12] ]})
    (Organization.mk (Some 10) None (Some "hasgeek") (Some "HasGeek") None [10; 11])
    (Some 1)
  = Some {["view"]}.
Proof.
  apply (merge_hands_over_organization {["view"]}
           {[ 1 := [10; 11]; 2 := [11; 12] ]}
           (Organization.mk (Some 10) None (Some "hasgeek") (Some "HasGeek")
                            None [10; 11])
           10 1 2).
  - lia.
  - reflexivity.
  - by vm_compute; left.
Defined.

(** * The headers of a response *)

Lemma list_get_filter (k k' : string) (l : list (string * string)) :
  Http.lower k ≠ Http.lower k' →
  Http.list_get k' (filter (λ q, ¬ Http.same_name k q) l) = Http.list_get k' l.
Proof.
  intros Hne. induction l as [|p l IH]; [done|].
  rewrite filter_cons.
  destruct (decide (¬ Http.same_name k p)) as [Hd|Hd]; simpl.
  - by rewrite IH.
  - destruct (Http.same_name k p) eqn:Hk; [|by destruct Hd; intros []].
    destruct (Http.same_name k' p) eqn:Hk'; [|done].
    unfold Http.same_name in *.
    apply String.eqb_eq in Hk, Hk'. congruence.
Qed.

#[export] Program Instance list_headers : Http.Headers (list (string * string)) := {|
  Http.contains k l := bool_decide (is_Some (Http.list_get k l));
  Http.get := Http.list_get;
  Http.set := Http.list_set
|}.
Next Obligation.
  intros k l. by rewrite bool_decide_eq_true.
Qed.
Next Obligation.
  intros k v l. induction l as [|p l IH]; simpl.
  - unfold Http.same_name. simpl. by rewrite String.eqb_refl.
  - destruct (Http.same_name k p) eqn:Hk; simpl.
    + unfold Http.same_name. simpl. by rewrite String.eqb_refl.
    + by rewrite Hk.
Qed.
Next Obligation.
  intros k k' v l Hne.
  assert (Hk' : Http.same_name k' (k, v) = false).
  { unfold Http.same_name. simpl. by apply String.eqb_neq. }
  induction l as [|p l IH]; simpl.
  - by rewrite Hk'.
  - destruct (Http.same_name k p) eqn:Hk; simpl.
    + rewrite Hk', list_get_filter by done.
      destruct (Http.same_name k' p) eqn:Hp; [|done].
      unfold Http.same_name in *. apply String.eqb_eq in Hk, Hp. congruence.
    + by rewrite IH.
Qed.

Lemma substring_in_private (v : string) :
  Http.substring_in "private" ("private, " +:+ v) = true.
Proof. by destruct v. Qed.

Section cache_facts.
Context {H : Type} `{Http.Headers H}.

Lemma contains_Some (k v : string) (h : H) :
  Http.get k h = Some v → Http.contains k h = true.
Proof. intros Hv. apply Http.contains_get. by rewrite Hv. Qed.

Lemma contains_None (k : string) (h : H) :
  Http.contains k h = false → Http.get k h = None.
Proof.
  intros Hc. destruct (Http.get k h) as [v|] eqn:Hv; [|done].
  apply contains_Some in Hv. congruence.
Qed.

Lemma cache_expiry_headers_done (v : string) (h : H) :
  Http.contains "Expires" h = true →
  Http.get "Cache-Control" h = Some v →
  Http.substring_in "private" v = true →
  Http.cache_expiry_headers h = Some h.
Proof.
  intros He Hv Hp. unfold Http.cache_expiry_headers.
  rewrite He. simpl. rewrite (contains_Some _ _ _ Hv), Hv. simpl.
  by rewrite Hp.
Qed.

Lemma expires_set (h : H) :
  let h1 := if negb (Http.contains "Expires" h)
            then Http.set "Expires" "Fri, 01 Jan 1990 00:00:00 GMT" h else h in
  Http.contains "Expires" h1 = true
  ∧ (∀ v, Http.get "Expires" h = Some v → Http.get "Expires" h1 = Some v)
  ∧ (∀ k, Http.lower k ≠ "expires" → Http.get k h1 = Http.get k h).
Proof.
  intros h1. unfold h1.
  destruct (Http.contains "Expires" h) eqn:He; simpl; [done|].
  split_and!.
  - eapply contains_Some, Http.get_set.
  - intros v Hv. apply contains_Some in Hv. congruence.
  - intros k Hk. apply Http.get_set_ne. intros Heq. apply Hk. by rewrite <- Heq.
Qed.
End cache_facts.

(** X18: [cache_expiry_headers] raises nothing and returns headers with
    an Expires header and a Cache-Control header whose value contains
    [private]; an Expires header and a Cache-Control value with
    [private] in it are kept as they were, any other Cache-Control value
    is kept behind [private, ], every other header is left alone, and
    running the hook on its own result changes nothing. *)
Theorem cache_expiry_headers_private {H : Type} `{Http.Headers H} (headers : H) :
  ∃ headers',
    Http.cache_expiry_headers headers = Some headers'
    ∧ Http.contains "Expires" headers' = true
    ∧ (∃ v, Http.get "Cache-Control" headers' = Some v
            ∧ Http.substring_in "private" v = true
            ∧ match Http.get "Cache-Control" headers with
              | Some v0 => v = if Http.substring_in "private" v0 then v0
                               else "private, " +:+ v0
              | None => v = "private"
              end)
    ∧ (∀ v, Http.get "Expires" headers = Some v →
            Http.get "Expires" headers' = Some v)
    ∧ (∀ k, Http.lower k ≠ "expires" → Http.lower k ≠ "cache-control" →
            Http.get k headers' = Http.get k headers)
    ∧ Http.cache_expiry_headers headers' = Some headers'.
Proof.
  unfold Http.cache_expiry_headers at 1.
  destruct (expires_set headers) as (He & Hkeep & Hother).
  set (h1 := if negb (Http.contains "Expires" headers) then _ else _) in *.
  assert (Hcc : Http.get "Cache-Control" h1 = Http.get "Cache-Control" headers)
    by by apply Hother.
  assert (He2 : ∀ v, Http.contains "Expires" (Http.set "Cache-Control" v h1) = true).
  { intros v. apply Http.contains_get. rewrite Http.get_set_ne by by vm_compute.
    by apply Http.contains_get. }
  assert (Hother2 : ∀ v k, Http.lower k ≠ "expires" →
                           Http.lower k ≠ "cache-control" →
            Http.get k (Http.set "Cache-Control" v h1) = Http.get k headers).
  { intros v k Hk1 Hk2. rewrite Http.get_set_ne
      by (intros Heq; apply Hk2; by rewrite <- Heq).
    by apply Hother. }
  assert (Hkeep2 : ∀ v v', Http.get "Expires" headers = Some v' →
            Http.get "Expires" (Http.set "Cache-Control" v h1) = Some v').
  { intros v v' Hv. rewrite Http.get_set_ne by by vm_compute. by apply Hkeep. }
  destruct (Http.contains "Cache-Control" h1) eqn:Hc.
  - apply Http.contains_get in Hc as [v0 Hv0]. rewrite Hv0. simpl.
    rewrite <- Hcc, Hv0.
    destruct (Http.substring_in "private" v0) eqn:Hp; simpl.
    + exists h1. split_and!; [done|done|by eauto|done|auto|].
      by apply (cache_expiry_headers_done v0).
    + eexists. split_and!; [done|by apply He2| |by apply Hkeep2|by apply Hother2|].
      * eexists. rewrite Http.get_set. split_and!; [done| |done].
        apply substring_in_private.
      * eapply cache_expiry_headers_done; [by apply He2|by apply Http.get_set|].
        apply substring_in_private.
  - apply contains_None in Hc. rewrite <- Hcc, Hc.
    eexists. split_and!; [done|by apply He2| |by apply Hkeep2|by apply Hother2|].
    + eexists. rewrite Http.get_set. by split_and!.
    + eapply cache_expiry_headers_done; [by apply He2|by apply Http.get_set|done].
Qed.

(** On the headers as a list: a second Cache-Control header goes away
    when the first one is rewritten. *)
Example cache_expiry_headers_example :
  Http.cache_expiry_headers
    [("Content-Type", "text/html"); ("cache-control", "max-age=60");
     ("Cache-Control", "no-store")]
  = Some [("Content-Type", "text/html");
          ("Cache-Control", "private, max-age=60");
          ("Expires", "Fri, 01 Jan 1990 00:00:00 GMT")].
Proof. by vm_compute. Qed.

(** * The email addresses of a user *)

Lemma elem_of_query_emails (u : nat) (s : UserEmail.session) (i : nat)
    (e : UserEmail.t) :
  (i, e) ∈ UserEmail.query_filter_by_user u s
  ↔ live_email s i e ∧ UserEmail.user_id e = u.
Proof.
  unfold UserEmail.query_filter_by_user, live_email.
  rewrite list_elem_of_filter, elem_of_by_key. simpl. tauto.
Qed.

Lemma clear_primary_facts (e : UserEmail.t) :
  UserEmail.user_id (UserEmail.clear_primary e) = UserEmail.user_id e
  ∧ UserEmail._email (UserEmail.clear_primary e) = UserEmail._email e
  ∧ UserEmail.primary (UserEmail.clear_primary e) = false
  ∧ (UserEmail.primary e = false → UserEmail.clear_primary e = e).
Proof.
  unfold UserEmail.clear_primary.
  destruct e as [u a h []]; simpl; by split_and!.
Qed.

Lemma clear_primary_all (l : list nat) : ∀ (s : UserEmail.session) (k : nat),
  let s' := foldl (λ s i, UserEmail.update i UserEmail.clear_primary s) s l in
  UserEmail.rows s' !! k
  = (if decide (k ∈ l) then UserEmail.clear_primary <$> UserEmail.rows s !! k
     else UserEmail.rows s !! k)
  ∧ UserEmail.deleted s' = UserEmail.deleted s
  ∧ UserEmail.past_emails s' = UserEmail.past_emails s.
Proof.
  induction l as [|a l IH]; intros s k; cbn [foldl].
  - rewrite decide_False by by intros ?%elem_of_nil. done.
  - destruct (IH (UserEmail.update a UserEmail.clear_primary s) k)
      as (Hrows & Hdel & Hpast).
    split_and!; [|done|done].
    rewrite Hrows. simpl.
    destruct (decide (k = a)) as [->|Hka].
    + rewrite lookup_alter_eq, (decide_True (P := a ∈ a :: l)) by by left.
      destruct (decide (a ∈ l)) as [Hal|Hal]; [|done].
      destruct (UserEmail.rows s !! a) as [x|]; [|done]. simpl. f_equal.
      apply clear_primary_facts. apply clear_primary_facts.
    + rewrite lookup_alter_ne by done.
      destruct (decide (k ∈ l)) as [Hk|Hk].
      * rewrite decide_True by by right. done.
      * rewrite decide_False; [done|]. rewrite elem_of_cons. tauto.
Qed.

Section add_email_facts.
Variable md5_hexdigest : string → string.
Variables (u : nat) (email : string) (primary : bool) (s : UserEmail.session).

Let s1 : UserEmail.session :=
  if primary
  then foldl (λ s i, UserEmail.update i UserEmail.clear_primary s) s
             (UserEmail.query_filter_by_user u s).*1
  else s.

Lemma add_email_cleared (j : nat) (e1 : UserEmail.t) :
  live_email s1 j e1
  ↔ ∃ e, live_email s j e
         ∧ e1 = if primary && bool_decide (UserEmail.user_id e = u)
                then UserEmail.clear_primary e else e.
Proof.
  unfold s1. destruct primary; simpl; [|by split; [eauto|intros (? & ? & ->)]].
  unfold live_email.
  destruct (clear_primary_all (UserEmail.query_filter_by_user u s).*1 s j)
    as (-> & -> & _).
  destruct (decide (j ∈ (UserEmail.query_filter_by_user u s).*1)) as [Hj|Hj].
  - apply list_elem_of_fmap in Hj as ([j' e] & -> & Hq). simpl.
    apply elem_of_query_emails in Hq as [[Hr Hd] Hu].
    rewrite Hr. simpl. split.
    + intros [[= <-] _]. exists e. by rewrite bool_decide_eq_true_2.
    + intros (e' & [[= <-] _] & ->). by rewrite bool_decide_eq_true_2.
  - split.
    + intros [Hr Hd]. exists e1. split; [done|].
      rewrite bool_decide_eq_false_2; [done|]. intros Hu. apply Hj.
      apply list_elem_of_fmap. exists (j, e1). split; [done|].
      by apply elem_of_query_emails.
    + intros (e & [Hr Hd] & ->).
      rewrite bool_decide_eq_false_2; [done|]. intros Hu. apply Hj.
      apply list_elem_of_fmap. exists (j, e). split; [done|].
      by apply elem_of_query_emails.
Qed.

Lemma add_email_spec :
  let i := (UserEmail.add_email md5_hexdigest u email primary s).1 in
  let s' := (UserEmail.add_email md5_hexdigest u email primary s).2 in
  UserEmail.rows s !! i = None
  ∧ ¬ (i ∈ UserEmail.deleted s)
  ∧ ∀ j e1, live_email s' j e1
            ↔ (j = i ∧ e1 = UserEmail.init md5_hexdigest u email primary)
              ∨ (j ≠ i ∧ live_email s1 j e1).
Proof.
  unfold UserEmail.add_email. fold s1. simpl.
  set (i := fresh _).
  assert (Hi : i ∉ dom (UserEmail.rows s1) ∪ UserEmail.deleted s1)
    by apply is_fresh.
  rewrite not_elem_of_union, not_elem_of_dom in Hi. destruct Hi as [Hr1 Hd1].
  assert (Hs : UserEmail.rows s !! i = None ∧ i ∉ UserEmail.deleted s).
  { revert Hr1 Hd1. unfold s1. destruct primary; [|done].
    destruct (clear_primary_all (UserEmail.query_filter_by_user u s).*1 s i)
      as (-> & -> & _).
    intros Hr ?. split; [|done].
    destruct (decide _); [|done].
    by destruct (UserEmail.rows s !! i). }
  destruct Hs as [Hr Hd]. split_and!; [done|done|].
  intros j e1. unfold live_email at 1. simpl.
  destruct (decide (j = i)) as [->|Hj].
  - rewrite lookup_insert_eq. split.
    + intros [[= <-] _]. by left.
    + intros [[_ ->]|[? _]]; done.
  - rewrite lookup_insert_ne by done. unfold live_email. split.
    + intros ?. by right.
    + intros [[? _]|[_ ?]]; done.
Qed.
End add_email_facts.

(** X19: [User.add_email] adds one row under a key not in use and keeps
    every other row, but for the primary flag: with [primary] set the
    new address is afterwards the one primary address of the user, the
    flag being cleared on all others of that user; without it no flag
    changes. Either way a user with at most one primary address has at
    most one afterwards. *)
Theorem add_email_one_primary (md5_hexdigest : string → string) (u : nat)
    (email : string) (primary : bool) (s : UserEmail.session) :
  let i := (UserEmail.add_email md5_hexdigest u email primary s).1 in
  let s' := (UserEmail.add_email md5_hexdigest u email primary s).2 in
  UserEmail.rows s !! i = None
  ∧ live_email s' i (UserEmail.mk u email (md5_hexdigest email) primary)
  ∧ (∀ j e, live_email s j e →
       ∃ e', live_email s' j e'
             ∧ UserEmail.user_id e' = UserEmail.user_id e
             ∧ UserEmail._email e' = UserEmail._email e
             ∧ UserEmail.md5sum e' = UserEmail.md5sum e
             ∧ UserEmail.primary e'
               = UserEmail.primary e
                 && negb (primary && bool_decide (UserEmail.user_id e = u)))
  ∧ (∀ j e', live_email s' j e' → j ≠ i → ∃ e, live_email s j e)
  ∧ (primary = true →
     ∀ j e', live_email s' j e' → UserEmail.user_id e' = u →
             UserEmail.primary e' = true → j = i)
  ∧ (∀ u', one_primary u' s → one_primary u' s').
Proof.
  intros i s'.
  destruct (add_email_spec md5_hexdigest u email primary s) as (Hr & Hd & Hlive).
  fold i s' in Hr, Hd, Hlive.
  assert (Hold : ∀ j e', live_email s' j e' → j ≠ i →
            ∃ e, live_email s j e
                 ∧ e' = if primary && bool_decide (UserEmail.user_id e = u)
                        then UserEmail.clear_primary e else e).
  { intros j e' [[? _]|[_ H1]]%Hlive Hj; [done|].
    by apply add_email_cleared in H1. }
  split_and!.
  - done.
  - apply Hlive. by left.
  - intros j e He.
    assert (Hj : j ≠ i) by (intros ->; destruct He; congruence).
    eexists. split; [apply Hlive; right; split; [done|];
                     apply add_email_cleared; eauto|].
    destruct (primary && bool_decide (UserEmail.user_id e = u)); simpl.
    + destruct (clear_primary_facts e) as (-> & -> & -> & _).
      rewrite andb_false_r. by destruct e as [? ? ? []].
    + by rewrite andb_true_r.
  - intros j e' He' Hj. destruct (Hold j e' He' Hj) as (e & ? & _). eauto.
  - intros -> j e' He' Hu Hp.
    destruct (decide (j = i)) as [|Hj]; [done|]. exfalso.
    destruct (Hold j e' He' Hj) as (e & He & ->). simpl in *.
    destruct (bool_decide (UserEmail.user_id e = u)) eqn:Hb.
    + destruct (clear_primary_facts e) as (_ & _ & Hc & _). congruence.
    + apply bool_decide_eq_false in Hb. done.
  - intros u' Hinv j1 j2 e1 e2 H1 H2 Hu1 Hu2 Hp1 Hp2.
    assert (Hcase : ∀ j e', live_email s' j e' → UserEmail.user_id e' = u' →
              UserEmail.primary e' = true →
              (j = i ∧ primary = true ∧ u' = u)
              ∨ (j ≠ i ∧ live_email s j e' ∧ (primary = true → u' ≠ u))).
    { intros j e' He' Hu Hp.
      destruct (decide (j = i)) as [->|Hj].
      - left. apply Hlive in He' as [[_ ->]|[? _]]; [|done]. by simpl in *.
      - right. destruct (Hold j e' He' Hj) as (e & He & ->).
        destruct primary; simpl in *; [|by split_and!].
        destruct (bool_decide (UserEmail.user_id e = u)) eqn:Hb.
        + destruct (clear_primary_facts e) as (_ & _ & Hc & _). congruence.
        + apply bool_decide_eq_false in Hb. split_and!; [done|done|].
          intros _ ->. done. }
    destruct (Hcase j1 e1 H1 Hu1 Hp1) as [(-> & Hpt & ->)|(Hj1 & Hl1 & Hn1)],
             (Hcase j2 e2 H2 Hu2 Hp2) as [(-> & Hpt' & Hu')|(Hj2 & Hl2 & Hn2)].
    + done.
    + by destruct (Hn2 Hpt).
    + by destruct (Hn1 Hpt').
    + by apply (Hinv j1 j2 e1 e2).
Qed.

Lemma live_email_delete (u i : nat) (a : string) (s : UserEmail.session)
    (j : nat) (e : UserEmail.t) :
  live_email (UserEmail.delete i (UserEmail.add_past u a s)) j e
  ↔ live_email s j e ∧ j ≠ i.
Proof.
  unfold live_email. simpl.
  rewrite not_elem_of_union, not_elem_of_singleton. tauto.
Qed.

Lemma live_email_update (i : nat) (f : UserEmail.t → UserEmail.t)
    (s : UserEmail.session) (j : nat) (e : UserEmail.t) :
  live_email (UserEmail.update i f s) j e
  ↔ ∃ e0, live_email s j e0 ∧ e = if decide (j = i) then f e0 else e0.
Proof.
  unfold live_email. simpl.
  destruct (decide (j = i)) as [->|Hj].
  - rewrite lookup_alter_eq. destruct (UserEmail.rows s !! i) as [e0|]; simpl.
    + split.
      * intros [[= <-] ?]. eauto.
      * intros (? & [[= <-] ?] & ->). done.
    + split; [by intros [? _]|by intros (? & [? _] & _)].
  - rewrite lookup_alter_ne by done. split.
    + intros ?. eauto.
    + intros (? & ? & ->). done.
Qed.

(** X20: [User.del_email] of an address the user does not have changes
    nothing. Otherwise the first row with the address is deleted and the
    address is recorded as a past one; the rows of other users are left
    as they are, and a user with at most one primary address has at most
    one afterwards: when the row deleted was the primary one and the
    user has another address, one of these has become the primary
    address. *)
Theorem del_email_one_primary (u : nat) (email : string) (s : UserEmail.session) :
  one_primary u s →
  let s' := UserEmail.del_email u email s in
  match head (filter (λ p, UserEmail._email p.2 = email)
                     (UserEmail.query_filter_by_user u s)) with
  | None => s' = s
  | Some (i, useremail) =>
      live_email s i useremail
      ∧ i ∈ UserEmail.deleted s'
      ∧ UserEmail.past_emails s' = UserEmail.past_emails s ++ [(u, email)]
      ∧ (∀ j e, live_email s' j e → j ≠ i ∧ ∃ e0, live_email s j e0)
      ∧ (∀ j e, UserEmail.user_id e ≠ u → j ≠ i →
                live_email s' j e ↔ live_email s j e)
      ∧ one_primary u s'
      ∧ (UserEmail.primary useremail = true →
         ∀ j e, live_email s j e → UserEmail.user_id e = u → j ≠ i →
                ∃ k ek, live_email s' k ek ∧ UserEmail.user_id ek = u
                        ∧ UserEmail.primary ek = true)
      ∧ (UserEmail.primary useremail = false →
         ∀ j e, live_email s' j e ↔ live_email s j e ∧ j ≠ i)
  end.
Proof.
  intros Hinv s'. unfold s', UserEmail.del_email.
  destruct (head (filter _ (UserEmail.query_filter_by_user u s)))
    as [[i useremail]|] eqn:Hhead; [|done].
  apply head_Some_elem_of, list_elem_of_filter in Hhead as [Hemail Hq].
  apply elem_of_query_emails in Hq as [Hlive Hu]. simpl in Hemail.
  set (s2 := UserEmail.delete i (UserEmail.add_past u (UserEmail._email useremail) s)).
  assert (H2 : ∀ j e, live_email s2 j e ↔ live_email s j e ∧ j ≠ i)
    by apply live_email_delete.
  assert (Hinv2 : one_primary u s2).
  { intros j1 j2 e1 e2 [H1 _]%H2 [H2' _]%H2. by apply Hinv. }
  assert (Hd2 : i ∈ UserEmail.deleted s2).
  { simpl. apply elem_of_union_l. by apply elem_of_singleton. }
  assert (Hpast2 : UserEmail.past_emails s2 = UserEmail.past_emails s ++ [(u, email)]).
  { simpl. by rewrite Hemail. }
  destruct (UserEmail.primary useremail) eqn:Hprim; simpl.
  2:{ split_and!; [done|done|done| | |done|done|by intros _].
      - intros j e [He Hj]%H2. eauto.
      - intros j e _ Hj. rewrite H2. tauto. }
  destruct (head (filter (λ p, p.1 ≠ i) (UserEmail.query_filter_by_user u s2)))
    as [[j ej]|] eqn:Hnext.
  - apply head_Some_elem_of, list_elem_of_filter in Hnext as [Hji Hq].
    apply elem_of_query_emails in Hq as [Hlj Huj]. simpl in Hji.
    set (s3 := UserEmail.update j (UserEmail.set_primary true) s2).
    assert (H3 : ∀ k ek, live_email s3 k ek
              ↔ ∃ e0, live_email s2 k e0
                      ∧ ek = if decide (k = j) then UserEmail.set_primary true e0
                             else e0) by apply live_email_update.
    split_and!; [done|done|done| | | |intros _|done].
    + intros k ek (e0 & [He0 Hk]%H2 & _)%H3. eauto.
    + intros k ek Hk Hki. rewrite H3. split.
      * intros (e0 & He0 & ->). destruct (decide (k = j)) as [->|_].
        -- destruct Hlj as [Hr _], He0 as [Hr0 _]. simpl in Hk. congruence.
        -- by apply H2 in He0 as [? _].
      * intros He. exists ek. rewrite H2. split; [done|].
        rewrite decide_False; [done|]. intros ->.
        apply H2 in Hlj as [[Hr _] _]. destruct He as [Hr' _]. congruence.
    + intros k1 k2 e1 e2 (a1 & Ha1 & He1)%H3 (a2 & Ha2 & He2)%H3 Hu1 Hu2 Hp1 Hp2.
      destruct (decide (k1 = j)) as [->|Hk1], (decide (k2 = j)) as [->|Hk2];
        subst e1 e2.
      * done.
      * exfalso. apply H2 in Ha2 as [Ha2 Hne].
        by apply Hne, (Hinv k2 i a2 useremail).
      * exfalso. apply H2 in Ha1 as [Ha1 Hne].
        by apply Hne, (Hinv k1 i a1 useremail).
      * by apply (Hinv2 k1 k2 a1 a2).
    + intros _ _ _ _ _. exists j, (UserEmail.set_primary true ej).
      split_and!; [|done|done].
      apply H3. exists ej. by rewrite decide_True.
  - apply head_None in Hnext.
    split_and!; [done|done|done| | |done| |done].
    + intros k ek [He Hk]%H2. eauto.
    + intros k ek _ Hk. rewrite H2. tauto.
    + intros _ k ek Hk Huk Hki. exfalso.
      assert (Hin : (k, ek) ∈ filter (λ p, p.1 ≠ i)
                                     (UserEmail.query_filter_by_user u s2)).
      { apply list_elem_of_filter. split; [done|].
        apply elem_of_query_emails. by rewrite H2. }
      rewrite Hnext in Hin. by apply elem_of_nil in Hin.
Qed.

Lemma example_emails_lookup (i : nat) (e : UserEmail.t) :
  UserEmail.rows example_emails !! i = Some e →
  (i = 1 ∧ e = UserEmail.mk 1 "a@example.org" "" true)
  ∨ (i = 2 ∧ e = UserEmail.mk 1 "b@example.org" "" false)
  ∨ (i = 3 ∧ e = UserEmail.mk 2 "c@example.org" "" true).
Proof.
  unfold example_emails. simpl.
  rewrite !lookup_insert_Some, lookup_singleton_Some. intuition auto.
Defined.

Lemma example_emails_one_primary : one_primary 1 example_emails.
Proof.
  intros i j ei ej [Hi _] [Hj _] Hui Huj Hpi Hpj.
  apply example_emails_lookup in Hi as [[-> ->]|[[-> ->]|[-> ->]]];
    apply example_emails_lookup in Hj as [[-> ->]|[[-> ->]|[-> ->]]];
    simpl in *; congruence.
Defined.

Lemma del_email_one_primary_witness :
  one_primary 1 (UserEmail.del_email 1 "a@example.org" example_emails).
Proof.
  pose proof (del_email_one_primary 1 "a@example.org" example_emails
                example_emails_one_primary) as Hdel.
  by destruct Hdel as (_ & _ & _ & _ & _ & Hinv & _).
Defined.

(** On these rows the second address of the user becomes the primary
    one. *)
Example del_email_example :
  let s' := UserEmail.del_email 1 "a@example.org" example_emails in
  UserEmail.deleted s' = {[1]}
  ∧ UserEmail.primary <$> UserEmail.rows s' !! 2 = Some true
  ∧ UserEmail.past_emails s' = [(1, "a@example.org")].
Proof. by vm_compute. Qed.

(** Of the three addresses left, the one with the least key becomes the
    primary one. *)
Example del_email_promotes_first :
  let s := UserEmail.Session
             {[ 1 := UserEmail.mk 1 "a@example.org" "" true;
                2 := UserEmail.mk 1 "b@example.org" "" false;
                3 := UserEmail.mk 1 "c@example.org" "" false;
                4 := UserEmail.mk 1 "d@example.org" "" false ]} ∅ [] in
  let s' := UserEmail.del_email 1 "a@example.org" s in
  (λ p, (p.1, UserEmail.primary p.2)) <$> UserEmail.query_filter_by_user 1 s'
  = [(2, true); (3, false); (4, false)].
Proof. by vm_compute. Qed.



(** Of two addresses of a user, none primary, the one with the lesser
    key is returned and marked; of two primary ones, the one with the
    lesser key is returned. *)
Example user_email_first :
  let s := UserEmail.Session {[ 1 := UserEmail.mk 1 "a@example.org" "" false;
                                2 := UserEmail.mk 1 "b@example.org" "" false ]}
                             ∅ [] in
  let s2 := UserEmail.Session {[ 1 := UserEmail.mk 1 "a@example.org" "" false;
                                 2 := UserEmail.mk 1 "b@example.org" "" true;
                                 3 := UserEmail.mk 1 "c@example.org" "" true ]}
                              ∅ [] in
  (UserEmail.email 1 s).1 = Some 1
  ∧ UserEmail.primary <$> UserEmail.rows (UserEmail.email 1 s).2 !! 1 = Some true
  ∧ UserEmail.primary <$> UserEmail.rows (UserEmail.email 1 s).2 !! 2 = Some false
  ∧ (UserEmail.email 1 s2).1 = Some 2.
Proof. by vm_compute. Qed.

(** A user whose only address is not marked primary: reading the
    property marks it. *)
Example user_email_example :
  let s := UserEmail.Session {[ 5 := UserEmail.mk 1 "a@example.org" "" false ]}
                             ∅ [] in
  (UserEmail.email 1 s).1 = Some 5
  ∧ UserEmail.primary <$> UserEmail.rows (UserEmail.email 1 s).2 !! 5 = Some true
  ∧ (UserEmail.email 2 s).1 = None.
Proof. by vm_compute. Qed.

(** * User names and organization names *)

Lemma head_filter_map_None {A} (P : nat * A → Prop)
    `{∀ p, Decision (P p)} (m : gmap nat A) :
  head (filter P (by_key m)) = None →
  ∀ k a, m !! k = Some a → ¬ P (k, a).
Proof.
  intros Hnone%head_None k a Hk HP.
  assert (Hin : (k, a) ∈ filter P (by_key m)).
  { apply list_elem_of_filter. split; [done|]. by apply elem_of_by_key. }
  rewrite Hnone in Hin. by apply elem_of_nil in Hin.
Qed.

Lemma head_filter_map_Some {A} (P : nat * A → Prop)
    `{∀ p, Decision (P p)} (m : gmap nat A) (k : nat) (a : A) :
  head (filter P (by_key m)) = Some (k, a) →
  m !! k = Some a ∧ P (k, a).
Proof.
  intros [HP Hin]%head_Some_elem_of%list_elem_of_filter.
  by apply elem_of_by_key in Hin.
Qed.

Lemma lookup_alter_Some' {A} (f : A → A) (m : gmap nat A) (self j : nat) (a' : A) :
  alter f self m !! j = Some a'
  ↔ ∃ a, m !! j = Some a ∧ a' = if decide (j = self) then f a else a.
Proof.
  destruct (decide (j = self)) as [->|Hj].
  - rewrite lookup_alter_eq. destruct (m !! self) as [a|]; simpl.
    + split; [intros [= <-]; eauto|by intros (? & [= <-] & ->)].
    + split; [done|by intros (? & ? & _)].
  - rewrite lookup_alter_ne by done. split; [eauto|by intros (? & ? & ->)].
Qed.

Lemma organization_get_name (v : string) (d : Names.db) :
  v ≠ "" →
  Names.organization_get (Some v) None d
  = Return (head (filter (λ p, Organization._name p.2 = Some v)
                         (by_key (Names.organizations d)))).
Proof.
  intros Hv. unfold Names.organization_get. simpl.
  by destruct (String.eqb_spec v "").
Qed.

Section namespace_facts.
Variables (d : Names.db) (self : nat).
Hypothesis Hns : namespace d.

Lemma namespace_set_username (n : option string) :
  (∀ v, n = Some v →
        (∀ j uj, Names.users d !! j = Some uj → j ≠ self →
                 User._username uj ≠ Some v ∧ User.userid uj ≠ v)
        ∧ (∀ o org, Names.organizations d !! o = Some org →
                    Organization._name org ≠ Some v)) →
  namespace (Names.Db (alter (Names.set__username n) self (Names.users d))
                      (Names.organizations d)).
Proof.
  intros Hfree. destruct Hns as [J1 J2 J3 J4 J5]. split; simpl.
  - intros i j ui' uj' m (ui & Hi & ->)%lookup_alter_Some'
      (uj & Hj & ->)%lookup_alter_Some'.
    destruct (decide (i = self)) as [->|Hi'], (decide (j = self)) as [->|Hj'];
      simpl; [done| | |by eauto].
    + intros Hn Hm. by destruct (Hfree m Hn) as [Hu _], (Hu j uj Hj Hj').
    + intros Hm Hn. by destruct (Hfree m Hn) as [Hu _], (Hu i ui Hi Hi').
  - intros i j ui' uj' (ui & Hi & ->)%lookup_alter_Some'
      (uj & Hj & ->)%lookup_alter_Some' Heq.
    apply (J2 i j ui uj); [done|done|].
    by repeat case_decide.
  - intros i j ui' uj' (ui & Hi & ->)%lookup_alter_Some'
      (uj & Hj & ->)%lookup_alter_Some'.
    destruct (decide (i = self)) as [->|Hi'], (decide (j = self)) as [->|Hj'];
      simpl; [done| |by eauto|by eauto].
    intros Hn. by destruct (Hfree _ Hn) as [Hu _], (Hu j uj Hj Hj').
  - intros i o ui' org m (ui & Hi & ->)%lookup_alter_Some' Ho.
    destruct (decide (i = self)) as [->|Hi']; simpl; [|by eauto].
    intros Hn. destruct (Hfree m Hn) as [_ Horg]. by eauto.
  - done.
Qed.

Lemma namespace_set_name (v : string) :
  (∀ j oj, Names.organizations d !! j = Some oj → j ≠ self →
           Organization._name oj ≠ Some v) →
  (∀ i ui, Names.users d !! i = Some ui → User._username ui ≠ Some v) →
  namespace (Names.Db (Names.users d)
               (alter (Names.set__name (Some v)) self (Names.organizations d))).
Proof.
  intros Horgs Husers. destruct Hns as [J1 J2 J3 J4 J5]. split; simpl;
    [done|done|done| |].
  - intros i o ui org' m Hi (org & Ho & ->)%lookup_alter_Some' Hm.
    destruct (decide (o = self)) as [->|Ho']; simpl; [|by eauto].
    intros [= <-]. by destruct (Husers i ui Hi).
  - intros i j oi' oj' m (oi & Hi & ->)%lookup_alter_Some'
      (oj & Hj & ->)%lookup_alter_Some'.
    destruct (decide (i = self)) as [->|Hi'], (decide (j = self)) as [->|Hj'];
      simpl; [done| | |by eauto].
    + intros [= <-] Hm. by destruct (Horgs j oj Hj Hj').
    + intros Hm [= <-]. by destruct (Horgs i oi Hi Hi').
Qed.

(** The one row a query for the name may find is the row itself. *)
Lemma no_other_user (v : string) :
  Names.is_another
    (head (filter (λ p, User._username p.2 = Some v ∨ User.userid p.2 = v)
                  (by_key (Names.users d)))) (Some self) = false →
  ∀ j uj, Names.users d !! j = Some uj → j ≠ self →
          User._username uj ≠ Some v ∧ User.userid uj ≠ v.
Proof.
  destruct Hns as [J1 J2 J3 _ _].
  destruct (head _) as [[i ui]|] eqn:Hhead; simpl.
  - intros Hi%bool_decide_eq_false j uj Hj Hne.
    assert (i = self) as -> by (destruct (decide (i = self)); [done|];
                                destruct Hi; congruence).
    apply head_filter_map_Some in Hhead as [Hself [Hn|Hid]]; simpl in *.
    + split; intros H'.
      * by apply Hne, (J1 j self uj ui v).
      * apply Hne. symmetry. apply (J3 self j ui uj); [done|done|congruence].
    + split; intros H'.
      * apply Hne, (J3 j self uj ui); [done|done|congruence].
      * apply Hne, (J2 j self uj ui); [done|done|congruence].
  - intros _ j uj Hj _. pose proof (head_filter_map_None _ _ Hhead j uj Hj) as Hno.
    simpl in Hno. tauto.
Qed.

Lemma no_other_organization (v : string) :
  Names.is_another
    (head (filter (λ p, Organization._name p.2 = Some v)
                  (by_key (Names.organizations d)))) (Some self) = false →
  ∀ j oj, Names.organizations d !! j = Some oj → j ≠ self →
          Organization._name oj ≠ Some v.
Proof.
  destruct Hns as [_ _ _ _ J5].
  destruct (head _) as [[i oi]|] eqn:Hhead; simpl.
  - intros Hi%bool_decide_eq_false j oj Hj Hne Hv.
    assert (i = self) as -> by (destruct (decide (i = self)); [done|];
                                destruct Hi; congruence).
    apply head_filter_map_Some in Hhead as [Hself Hn]; simpl in *.
    by apply Hne, (J5 j self oj oi v).
  - intros _ j oj Hj _.
    by pose proof (head_filter_map_None _ _ Hhead j oj Hj) as Hno.
Qed.
End namespace_facts.

(** X22: the [username] setter of a user raises nothing and keeps the
    names told apart. A value that is [None] or empty clears the
    username; any other value is stored only if [valid_username] accepts
    it and no other user has it as username or userid and no
    organization as name, and the username stays as it was otherwise.
    No other row changes. *)
Theorem set_username_keeps_namespace (valid_username : string → bool)
    (self : nat) (value : option string) (d : Names.db) :
  namespace d →
  ∃ d' n,
    Names.set_username valid_username self value d = Return d'
    ∧ namespace d'
    ∧ Names.organizations d' = Names.organizations d
    ∧ Names.users d' = alter (Names.set__username n) self (Names.users d)
    ∧ (bool_of_string value = false → n = None)
    ∧ (bool_of_string value = true →
       (n = value ∧ ∃ v, value = Some v ∧ valid_username v = true)
       ∨ (Names.users d' = Names.users d)).
Proof.
  intros Hns. unfold Names.set_username.
  assert (Hsame : ∀ m : gmap nat User.t, ∃ n,
            m = alter (Names.set__username n) self m).
  { intros m. destruct (m !! self) as [u|] eqn:Hu.
    - exists (User._username u). apply map_eq. intros j.
      destruct (decide (j = self)) as [->|Hj].
      + rewrite lookup_alter_eq, Hu. simpl. by destruct u.
      + by rewrite lookup_alter_ne.
    - exists None. apply map_eq. intros j.
      destruct (decide (j = self)) as [->|Hj].
      + by rewrite lookup_alter_eq, Hu.
      + by rewrite lookup_alter_ne. }
  assert (Hkeep : bool_of_string value = true →
            ∃ d' n, Return d = Return d' ∧ namespace d'
              ∧ Names.organizations d' = Names.organizations d
              ∧ Names.users d' = alter (Names.set__username n) self (Names.users d)
              ∧ (bool_of_string value = false → n = None)
              ∧ (bool_of_string value = true →
                 (n = value ∧ ∃ v, value = Some v ∧ valid_username v = true)
                 ∨ (Names.users d' = Names.users d))).
  { intros Hb. destruct (Hsame (Names.users d)) as [n Hn].
    exists d, n. split_and!; [done|done|done|done|congruence|by right]. }
  destruct (bool_of_string value) eqn:Hb; simpl.
  2:{ eexists _, None. split_and!; [done| |done|done|done|done].
      by apply namespace_set_username. }
  destruct value as [v|]; [|done].
  assert (Hv : v ≠ "").
  { intros ->. by vm_compute in Hb. }
  unfold Names.is_valid_username.
  destruct (valid_username v) eqn:Hvalid; simpl; [|by apply Hkeep].
  destruct (Names.is_another _ (Some self)) eqn:Hother; [by apply Hkeep|].
  rewrite organization_get_name by done.
  destruct (head (filter _ (by_key (Names.organizations d))))
    as [[o org]|] eqn:Horg; simpl; [by apply Hkeep|].
  eexists _, (Some v). split_and!; [done| |done|done|done|by left; eauto].
  apply namespace_set_username; [done|]. intros ? [= <-]. split.
  - by apply no_other_user.
  - intros o org Ho. by apply (head_filter_map_None _ _ Horg o org Ho).
Qed.

(** X23: the [name] setter of an organization keeps the names told
    apart. The name is stored only if [valid_username] accepts it and no
    other organization has it as name and no user as username; the
    organization is left as it was otherwise, and no other row changes.
    The one way to a TypeError is an empty name that [valid_username]
    accepts, raised by [Organization.get]. *)
Theorem set_name_keeps_namespace (valid_username : string → bool)
    (self : nat) (value : string) (d : Names.db) :
  namespace d →
  match Names.set_name valid_username self value d with
  | Return d' =>
      namespace d'
      ∧ Names.users d' = Names.users d
      ∧ (d' = d
         ∨ (valid_username value = true
            ∧ Names.organizations d'
              = alter (Names.set__name (Some value)) self
                      (Names.organizations d)))
  | Raise e => value = "" ∧ valid_username "" = true
  end.
Proof.
  intros Hns. unfold Names.set_name, Names.valid_name.
  destruct (valid_username value) eqn:Hvalid; simpl; [|by split_and!; auto].
  destruct (decide (value = "")) as [->|Hv]; [done|].
  rewrite organization_get_name by done.
  destruct (Names.is_another _ (Some self)) eqn:Hother; [by split_and!; auto|].
  destruct (head (filter _ (by_key (Names.users d))))
    as [[i ui]|] eqn:Huser; simpl; [by split_and!; auto|].
  split_and!; [|done|by right].
  apply namespace_set_name; [done| |].
  - by apply no_other_organization.
  - intros i ui Hi. by apply (head_filter_map_None _ _ Huser i ui Hi).
Qed.

Lemma example_names_users (i : nat) (u : User.t) :
  Names.users example_names !! i = Some u →
  (i = 1 ∧ u = User.mk "u1" "Alice" (Some "alice") None USER_STATUS.ACTIVE)
  ∨ (i = 2 ∧ u = User.mk "u2" "Bob" None None USER_STATUS.ACTIVE).
Proof.
  unfold example_names. simpl.
  rewrite lookup_insert_Some, lookup_singleton_Some. intuition auto.
Defined.

Lemma example_names_organizations (i : nat) (o : Organization.t) :
  Names.organizations example_names !! i = Some o →
  i = 1 ∧ Organization._name o = Some "hasgeek".
Proof.
  unfold example_names. simpl.
  rewrite lookup_singleton_Some. by intros [-> <-].
Defined.

Lemma example_names_namespace : namespace example_names.
Proof.
  split.
  - intros i j ui uj n Hi Hj.
    apply example_names_users in Hi as [[-> ->]|[-> ->]];
      apply example_names_users in Hj as [[-> ->]|[-> ->]]; simpl; congruence.
  - intros i j ui uj Hi Hj.
    apply example_names_users in Hi as [[-> ->]|[-> ->]];
      apply example_names_users in Hj as [[-> ->]|[-> ->]]; simpl; congruence.
  - intros i j ui uj Hi Hj.
    apply example_names_users in Hi as [[-> ->]|[-> ->]];
      apply example_names_users in Hj as [[-> ->]|[-> ->]]; simpl; congruence.
  - intros i o ui org n Hi Ho.
    apply example_names_users in Hi as [[-> ->]|[-> ->]];
      apply example_names_organizations in Ho as [-> ->]; simpl; congruence.
  - intros i j oi oj n Hi Hj.
    apply example_names_organizations in Hi as [-> _].
    by apply example_names_organizations in Hj as [-> _].
Defined.

Lemma set_username_keeps_namespace_witness :
  ∃ d', Names.set_username (λ _, true) 2 (Some "hasgeek") example_names
        = Return d'
        ∧ namespace d'.
Proof.
  destruct (set_username_keeps_namespace (λ _, true) 2 (Some "hasgeek")
              example_names example_names_namespace)
    as (d' & n & Hd & Hns & _).
  by exists d'.
Defined.

Lemma set_name_keeps_namespace_witness :
  match Names.set_name (λ _, true) 1 "alice" example_names with
  | Return d' =>
      namespace d'
      ∧ Names.users d' = Names.users example_names
      ∧ (d' = example_names
         ∨ ((λ _ : string, true) "alice" = true
            ∧ Names.organizations d'
              = alter (Names.set__name (Some "alice")) 1
                      (Names.organizations example_names)))
  | Raise e => "alice" = "" ∧ (λ _ : string, true) "" = true
  end.
Proof.
  exact (set_name_keeps_namespace (λ _, true) 1 "alice" example_names
           example_names_namespace).
Defined.

(** Names in use are turned down, free ones are stored, and an empty
    organization name reaches [Organization.get]. *)
Example names_example :
  Names.set_username (λ _, true) 2 (Some "hasgeek") example_names
  = Return example_names
  ∧ Names.set_username (λ _, true) 2 (Some "u1") example_names
    = Return example_names
  ∧ Names.set_name (λ _, true) 1 "alice" example_names = Return example_names
  ∧ (User._username <$>
       (match Names.set_username (λ _, true) 2 (Some "bob") example_names with
        | Return d' => Names.users d' !! 2
        | Raise _ => None
        end)) = Some (Some "bob")
  ∧ Names.set_name (λ _, true) 1 "" example_names
    = Raise (TypeError "Either name or userid should be specified").
Proof. by vm_compute. Qed.

(** * The owner of a client and of a permission *)

Lemma elem_of_organizations_owned (h : gmap nat Organization.object)
    (m : gmap nat (list nat)) (user : nat) :
  teams_in_store h m user →
  ∃ owned,
    Ownership.organizations_owned h m user = Some owned
    ∧ ∀ org, org ∈ owned
             ↔ ∃ team tm o,
                 team ∈ TeamMembership.teams user m
                 ∧ Ownership.team_at h team = Some tm
                 ∧ Team.org tm = Some org
                 ∧ Ownership.organization_at h org = Some o
                 ∧ Organization.owners o = Some team.
Proof.
  unfold teams_in_store, Ownership.organizations_owned.
  induction (TeamMembership.teams user m) as [|team l IH]; intros Hin; simpl.
  - exists ∅. split; [done|]. intros org. split; [by intros ?%elem_of_empty|].
    by intros (? & ? & ? & ?%elem_of_nil & _).
  - destruct (Hin team) as (tm & org0 & o & Htm & Horg & Ho); [by left|].
    destruct IH as (owned & Hl & Howned); [intros ? ?; apply Hin; by right|].
    destruct (mapM (Ownership.owned_through h) l) as [orgs|] eqn:Hmap; [|done].
    simpl in Hl. injection Hl as <-.
    unfold Ownership.owned_through at 1. rewrite Htm. simpl.
    rewrite Horg. simpl. rewrite Ho. simpl.
    eexists. split; [done|]. intros org.
    rewrite list_to_set_app, elem_of_union, Howned, elem_of_list_to_set.
    split.
    + intros [Hhere|(t' & tm' & o' & Ht' & ?)].
      * destruct (decide (Organization.owners o = Some team)) as [Hown|];
          [|by apply elem_of_nil in Hhere].
        apply list_elem_of_singleton in Hhere as ->.
        exists team, tm, o. split_and!; [by left|done..].
      * exists t', tm', o'. split; [by right|done].
    + intros (t' & tm' & o' & [->|Ht']%elem_of_cons & Htm' & Horg' & Ho' & Hown).
      * left. assert (tm' = tm) as -> by congruence.
        assert (org = org0) as -> by congruence.
        assert (o' = o) as -> by congruence.
        rewrite decide_True by done. by apply list_elem_of_singleton.
      * right. by exists t', tm', o'.
Qed.

(** X24: for an organization whose owners team is a team of that
    organization, the two tests for an owner agree: a user is the owner
    of a client of the organization, for [Client.owner_is], exactly when
    [Organization.permissions] gives the user the owner permissions,
    that is when the user is in the owners team. *)
Theorem owners_agree (perms : gset string) (h : gmap nat Organization.object)
    (m : gmap nat (list nat)) (self : Client.t) (org owners user : nat)
    (o : Organization.t) (tm : Team.t) :
  Client.user_id self = None →
  Client.org_id self = Some org →
  Ownership.organization_at h org = Some o →
  Organization.owners o = Some owners →
  Ownership.team_at h owners = Some tm →
  Team.org tm = Some org →
  teams_in_store h m user →
  "edit" ∉ perms →
  ∃ owner r_client r_org,
    Ownership.client_owner_is h m self (Some user) = Some owner
    ∧ (owner = true ↔ owners ∈ TeamMembership.teams user m)
    ∧ Ownership.client_permissions h m perms self (Some user) = Some r_client
    ∧ Owners.organization_permissions perms m o (Some user) = Some r_org
    ∧ ("edit" ∈ r_client ↔ "edit" ∈ r_org)
    ∧ ("edit" ∈ r_org ↔ owner = true).
Proof.
  intros Huser Horg Ho Howners Htm Htmorg Hstore Hedit.
  destruct (elem_of_organizations_owned h m user Hstore) as (owned & Howned & Hin).
  assert (Hiff : org ∈ owned ↔ owners ∈ TeamMembership.teams user m).
  { rewrite Hin. split.
    - intros (t' & tm' & o' & Ht' & _ & _ & Ho' & Hown). congruence.
    - intros Hmem. by exists owners, tm, o. }
  unfold Ownership.client_permissions, Ownership.client_owner_is,
    Owners.organization_permissions, Owners.is_member.
  rewrite Huser, Horg, Howned, Howners. simpl.
  do 3 eexists. split_and!; [done| |done|done| |].
  - by rewrite bool_decide_eq_true.
  - destruct (decide (org ∈ owned)) as [Hy|Hn].
    + rewrite (bool_decide_eq_true_2 _ Hy).
      rewrite (bool_decide_eq_true_2 _ (proj1 Hiff Hy)).
      rewrite !elem_of_union, !elem_of_singleton. split; intros _; tauto.
    + rewrite (bool_decide_eq_false_2 _ Hn).
      rewrite (bool_decide_eq_false_2 (owners ∈ _)) by (by rewrite <- Hiff).
      rewrite !elem_of_union, !elem_of_difference, !elem_of_singleton.
      split; [intros [?|[=]]; done|intros [[[? ?] ?] ?]; done].
  - rewrite bool_decide_eq_true, Hiff.
    destruct (decide (owners ∈ TeamMembership.teams user m)) as [Hy|Hn].
    + rewrite (bool_decide_eq_true_2 _ Hy).
      rewrite !elem_of_union, !elem_of_singleton. split; intros _; tauto.
    + rewrite (bool_decide_eq_false_2 _ Hn).
      rewrite !elem_of_difference, !elem_of_singleton. split; [|done].
      intros [[[? ?] ?] ?]; done.
Qed.

Lemma owners_agree_witness :
  Ownership.client_owner_is example_store {[ 5 := [1] ]} example_client (Some 5)
  = Some true.
Proof.
  destruct (owners_agree ∅ example_store {[ 5 := [1] ]} example_client 0 1 5
              (Organization.mk (Some 1) (Some "org-1") None (Some "First") None [1])
              (Team.mk "Owners" (Some 0) []))
    as (owner & r_client & r_org & Hown & Hiff & _).
  - reflexivity.
  - reflexivity.
  - reflexivity.
  - reflexivity.
  - reflexivity.
  - reflexivity.
  - intros team Hteam. vm_compute in Hteam.
    apply list_elem_of_singleton in Hteam as ->.
    by eexists _, _, _.
  - apply not_elem_of_empty.
  - rewrite Hown. f_equal. apply Hiff. vm_compute. by left.
Defined.

(** An organization constructed with the owners team of another
    organization: a member of that team is an owner for
    [Organization.permissions] and none for [Client.owner_is], and
    [Permission.owner_is] without a user is an AttributeError on a
    permission of an organization. *)
Example owners_apart :
  let kw := Organization.Kwargs (Some 1) None None (Some "Second") None in
  let h := (Organization.init (λ _, true) kw example_store).2 in
  let m : gmap nat (list nat) := {[ 5 := [1] ]} in
  let client := Client.mk None (Some 2) "App" "" true false false "k" "s" false in
  let perm := Permission.mk None (Some 2) "read" "Read" "" false in
  Ownership.client_owner_is h m client (Some 5) = Some false
  ∧ (∃ o r, Ownership.organization_at h 2 = Some o
            ∧ Owners.organization_permissions ∅ m o (Some 5) = Some r
            ∧ "edit" ∈ r)
  ∧ Ownership.permission_owner_is h m perm None = None
  ∧ Ownership.client_owner_is h m client None = Some false.
Proof.
  split_and!; [by vm_compute| |by vm_compute|by vm_compute].
  do 2 eexists. split_and!; [by vm_compute|by vm_compute|by vm_compute].
Qed.

(** X25: for a user that is given, [Permission.owner_is] and
    [Client.owner_is] are the same test on the owner of the row, and
    [Permission.permissions] adds edit and delete exactly when it holds.
    Without a user [Client.owner_is] is false, and [Permission.owner_is]
    is false for a permission without organization and an
    AttributeError for one with an organization; [permissions] never
    asks it then. *)
Theorem permission_owner_is_client_owner_is (perms : gset string)
    (h : gmap nat Organization.object) (m : gmap nat (list nat))
    (client : Client.t) (perm : Permission.t) (user : nat) :
  Client.user_id client = Permission.user_id perm →
  Client.org_id client = Permission.org_id perm →
  Ownership.permission_owner_is h m perm (Some user)
  = Ownership.client_owner_is h m client (Some user)
  ∧ Ownership.permission_permissions h m perms perm (Some user)
    = (owner ← Ownership.client_owner_is h m client (Some user);
       Some (if owner : bool then perms ∪ {["edit"; "delete"]} else perms))
  ∧ Ownership.client_owner_is h m client None = Some false
  ∧ Ownership.permission_owner_is h m perm None
    = match Permission.org_id perm with
      | Some _ => None
      | None => Some false
      end
  ∧ Ownership.permission_permissions h m perms perm None = Some perms
  ∧ Ownership.client_permissions h m perms client None = Some (perms ∪ {["view"]}).
Proof.
  intros Huser Horg.
  assert (Hsame : Ownership.permission_owner_is h m perm (Some user)
                  = Ownership.client_owner_is h m client (Some user)).
  { unfold Ownership.permission_owner_is, Ownership.client_owner_is.
    rewrite Huser, Horg.
    destruct (decide (Permission.user_id perm = Some user)) as [Hu|Hu].
    - rewrite bool_decide_eq_true_2; [done|]. split; [by eexists|done].
    - rewrite bool_decide_eq_false_2 by (by intros [_ ?]). done. }
  split_and!; [done| |done| |done|done].
  - unfold Ownership.permission_permissions. rewrite Hsame.
    destruct (Ownership.client_owner_is h m client (Some user)) as [[]|];
      simpl; [|done|done].
    f_equal. apply set_eq. intros x.
    rewrite !elem_of_union, !elem_of_singleton. tauto.
  - unfold Ownership.permission_owner_is.
    rewrite bool_decide_eq_false_2 by (by intros [[? [=]] _]).
    by destruct (Permission.org_id perm).
Qed.

Lemma permission_owner_is_client_owner_is_witness :
  Ownership.permission_owner_is example_store {[ 5 := [1] ]}
    (Permission.mk None (Some 0) "read" "Read" "" false) (Some 5)
  = Ownership.client_owner_is example_store {[ 5 := [1] ]} example_client (Some 5).
Proof.
  apply (permission_owner_is_client_owner_is ∅ example_store {[ 5 := [1] ]}
           example_client (Permission.mk None (Some 0) "read" "Read" "" false) 5);
    reflexivity.
Defined.
